(** * Weighted-graph algorithms: shortest paths and minimum spanning trees

    A shallow embedding of [dijkstra.py], [bellmanford.py], [kruskal.py] and
    [prim.py], and the properties of their specification.

    Conventions of the embedding.
    - Nodes are an abstract type with decidable equality and a countable
      encoding (Python: hashable identifiers).  Where [heapq] compares tuples
      it falls back on the order of the nodes; that order is the parameter
      [node_ltb].
    - Weights and distances are integers ([Z]).  The [float('inf')] sentinel
      of the distance tables is the constructor [Inf].
    - Python dictionaries are [gmap]s and [set]s are [gset]s; a subscript
      [d[k]] on an absent key raises [KeyError].
    - A Python call either returns, raises, or runs for ever; the three
      outcomes are the constructors of [result]. *)

From stdpp Require Import gmap strings list fin_maps sorting.
From Stdlib Require Import ZArith Lia.

Open Scope Z_scope.

(** ** Outcomes of a call *)

Inductive exn := KeyError | RecursionError.

Inductive result (A : Type) :=
  | Ok (a : A)
  | Raise (e : exn)
  | Diverge.
Arguments Ok {A} a.
Arguments Raise {A} e.
Arguments Diverge {A}.

#[global] Instance result_bind : MBind result := λ A B k m,
  match m with
  | Ok a => k a
  | Raise e => Raise e
  | Diverge => Diverge
  end.

#[global] Instance result_ret : MRet result := λ A a, Ok a.

(** [d[k]] for a dictionary [d]. *)
Definition subscript `{Countable K} {V} (d : gmap K V) (k : K) : result V :=
  match d !! k with
  | Some v => Ok v
  | None => Raise KeyError
  end.

(** ** Disjoint sets: class [UnionFind] of [kruskal.py] *)

Module UnionFind.
Section with_node.
Context {node : Type} `{Countable node}.

Record state := State {
  parent : gmap node node;
  rank : gmap node nat;
}.

Definition set_parent (x p : node) (uf : state) : state :=
  State (<[x := p]> (parent uf)) (rank uf).

Definition set_rank (x : node) (r : nat) (uf : state) : state :=
  State (parent uf) (<[x := r]> (rank uf)).

(** [__init__]: every element is its own parent, with rank 0. *)
Definition init (elements : list node) : state :=
  State (list_to_map ((λ x, (x, x)) <$> elements))
        (list_to_map ((λ x, (x, 0%nat)) <$> elements)).

(** [find], with [depth] bounding the nesting of the recursive calls. *)
Fixpoint find_rec (depth : nat) (uf : state) (x : node) : result (node * state) :=
  match depth with
  | O => Raise RecursionError
  | S depth =>
      p ← subscript (parent uf) x;
      if decide (p ≠ x) then
        '(r, uf1) ← find_rec depth uf p;
        let uf2 := set_parent x r uf1 in
        p2 ← subscript (parent uf2) x;
        Ok (p2, uf2)
      else Ok (p, uf)
  end.

(** A chain of parent links that does not come back to a node it left has at
    most [size (parent uf)] links, so this depth serves every such chain;
    a chain that cycles exhausts any depth, as it exhausts the interpreter's
    stack. *)
Definition find (uf : state) (x : node) : result (node * state) :=
  find_rec (S (size (parent uf))) uf x.

Definition union (uf : state) (x y : node) : result (bool * state) :=
  '(root_x, uf) ← find uf x;
  '(root_y, uf) ← find uf y;
  if decide (root_x = root_y) then Ok (false, uf)
  else
    rx ← subscript (rank uf) root_x;
    ry ← subscript (rank uf) root_y;
    if decide (rx < ry)%nat then Ok (true, set_parent root_x root_y uf)
    else
      rx ← subscript (rank uf) root_x;
      ry ← subscript (rank uf) root_y;
      if decide (ry < rx)%nat then Ok (true, set_parent root_y root_x uf)
      else
        let uf := set_parent root_y root_x uf in
        rx ← subscript (rank uf) root_x;
        Ok (true, set_rank root_x (rx + 1)%nat uf).

Definition connected (uf : state) (x y : node) : result (bool * state) :=
  '(root_x, uf) ← find uf x;
  '(root_y, uf) ← find uf y;
  Ok (bool_decide (root_x = root_y), uf).

(** *** The forest a state represents

    [chain p x l r]: following the parent links of [p] from [x] leaves the
    nodes of [l], in that order, and stops at the root [r]. *)
Inductive chain (p : gmap node node) : node → list node → node → Prop :=
  | chain_root r : p !! r = Some r → chain p r [] r
  | chain_step x y l r :
      p !! x = Some y → y ≠ x → chain p y l r → chain p x (x :: l) r.

Definition root_of (p : gmap node node) (x r : node) : Prop :=
  ∃ l, chain p x l r.

(** Well-formed states: parents and ranks cover the same elements and every
    element leads to a root. *)
Definition wf (uf : state) : Prop :=
  dom (parent uf) = dom (rank uf) ∧
  ∀ x, x ∈ dom (parent uf) → ∃ r, root_of (parent uf) x r.

(** Path compression: the nodes of [l] are re-pointed at [r], last first. *)
Definition compress (r : node) (l : list node) (uf : state) : state :=
  foldr (λ x, set_parent x r) uf l.

(** Same ranks, same elements, same root for every element. *)
Definition same_sets (uf uf' : state) : Prop :=
  rank uf' = rank uf ∧ dom (parent uf') = dom (parent uf) ∧
  ∀ y r, root_of (parent uf) y r ↔ root_of (parent uf') y r.

(** The root of [x], without compression; a decision procedure for [wf]. *)
Fixpoint root_rec (depth : nat) (p : gmap node node) (x : node) : option node :=
  match depth with
  | O => None
  | S depth =>
      match p !! x with
      | None => None
      | Some y => if decide (y = x) then Some x else root_rec depth p y
      end
  end.

Definition wfb (uf : state) : bool :=
  bool_decide (dom (parent uf) = dom (rank uf)) &&
  forallb (λ x, bool_decide (is_Some (root_rec (S (size (parent uf))) (parent uf) x)))
          (elements (dom (parent uf))).

(** A sequence of [union] calls. *)
Fixpoint unions (uf : state) (ops : list (node * node)) : result state :=
  match ops with
  | [] => Ok uf
  | (x, y) :: ops => '(_, uf) ← union uf x y; unions uf ops
  end.

(** *** Sets, ranks and sequences of calls *)

(** [x] and [y] lead to the same root. *)
Definition same_set (uf : state) (x y : node) : Prop :=
  ∃ r, root_of (parent uf) x r ∧ root_of (parent uf) y r.

(** Ranks grow along the parent links. *)
Definition ranked (uf : state) : Prop :=
  ∀ x y, parent uf !! x = Some y → y ≠ x →
         ∃ kx ky, rank uf !! x = Some kx ∧ rank uf !! y = Some ky ∧ (kx < ky)%nat.

(** The root of a set of rank [k] has at least [2 ^ k] elements under it. *)
Definition heavy (uf : state) : Prop :=
  ∀ r k, parent uf !! r = Some r → rank uf !! r = Some k →
         ∃ M : gset node, (∀ x, x ∈ M ↔ root_of (parent uf) x r) ∧ (2 ^ k ≤ size M)%nat.

(** A sequence of calls on one structure. *)
Inductive call :=
  | Find (x : node)
  | Union (x y : node)
  | Connected (x y : node).

Definition run_call (uf : state) (c : call) : result state :=
  match c with
  | Find x => '(_, uf) ← find uf x; Ok uf
  | Union x y => '(_, uf) ← union uf x y; Ok uf
  | Connected x y => '(_, uf) ← connected uf x y; Ok uf
  end.

Fixpoint run (uf : state) (cs : list call) : result state :=
  match cs with
  | [] => Ok uf
  | c :: cs => uf ← run_call uf c; run uf cs
  end.

End with_node.
Arguments state node {_ _}.
End UnionFind.

(** The state after [union(A,B)], [union(C,D)], [union(A,C)] on four elements:
    [D] is two links away from its root. *)
Definition uf_chain : UnionFind.state string :=
  UnionFind.State
    (<["A" := "A"]> (<["B" := "A"]> (<["C" := "A"]> (<["D" := "C"]> ∅))))
    (<["A" := 2%nat]> (<["B" := 0%nat]> (<["C" := 1%nat]> (<["D" := 0%nat]> ∅)))).

(** ** Graphs, distance tables and the priority queue *)

(** A graph is a dictionary from each node to the list of its outgoing
    [(neighbour, weight)] pairs. *)
Abbreviation graph node := (gmap node (list (node * Z))).

(** A distance: an integer or [float('inf')]. *)
Inductive distance := Fin (d : Z) | Inf.

#[global] Instance distance_eq_dec : EqDecision distance.
Proof. solve_decision. Defined.

(** [x < d] for a finite [x]. *)
Definition lt_distance (x : Z) (d : distance) : bool :=
  match d with
  | Fin y => bool_decide (x < y)
  | Inf => true
  end.

(** [heapq]: only its contract is modelled.  The queue is the list of its
    entries; [heappop] removes and returns a least entry for the order [ltb]
    on entries (the first such entry of the list). *)
Section heapq.
Context {E : Type} `{EqDecision E} (ltb : E → E → bool).

Fixpoint least (x : E) (h : list E) : E :=
  match h with
  | [] => x
  | y :: h => least (if ltb y x then y else x) h
  end.

Fixpoint remove_first (x : E) (h : list E) : list E :=
  match h with
  | [] => []
  | y :: h => if decide (y = x) then h else y :: remove_first x h
  end.

Definition heappush (h : list E) (x : E) : list E := h ++ [x].

Definition heappop (h : list E) : option (E * list E) :=
  match h with
  | [] => None
  | x :: h' => let m := least x h' in Some (m, remove_first m h)
  end.

End heapq.

(** Tuples compare lexicographically. *)
Definition pair_ltb {A B} (lta : A → A → bool) (eqa : A → A → bool)
    (ltb : B → B → bool) (x y : A * B) : bool :=
  lta x.1 y.1 || (eqa x.1 y.1 && ltb x.2 y.2).

Section graphs.
Context {node : Type} `{Countable node}.

(** The flat edge list of a graph, as the examples build it. *)
Definition edge_list (g : graph node) : list (node * node * Z) :=
  '(u, nbrs) ← map_to_list g; (λ '(v, w), (u, v, w)) <$> nbrs.

Definition num_edges (g : graph node) : nat :=
  sum_list_with (λ '(u, nbrs), length nbrs) (map_to_list g).

(** [sum(w for _, _, w in edges)]. *)
Definition sum_weights (edges : list (node * node * Z)) : Z :=
  foldr (λ '(_, _, w) acc, w + acc) 0 edges.

(** Edges that leave a node not yet visited: a bound on the entries still to
    be pushed. *)
Definition pending (g : graph node) (vis : gset node) : nat :=
  sum_list_with (λ '(u, nbrs), if decide (u ∈ vis) then 0%nat else length nbrs)
                (map_to_list g).

(** Every neighbour is a node of the graph. *)
Definition closedb (g : graph node) : bool :=
  forallb (λ '(u, v, w), bool_decide (v ∈ dom g)) (edge_list g).

Definition nonnegb (g : graph node) : bool :=
  forallb (λ '(u, v, w), bool_decide (0 ≤ w)) (edge_list g).

(** [path g s ns v d]: the nodes [ns], from [s] to [v], follow edges of [g]
    of total weight [d]. *)
Inductive path (g : graph node) (s : node) : list node → node → Z → Prop :=
  | path_start : path g s [s] s 0
  | path_step ns x d nbrs v w :
      path g s ns x d → g !! x = Some nbrs → (v, w) ∈ nbrs →
      path g s (ns ++ [v]) v (d + w).

Definition reachable (g : graph node) (s v : node) : Prop :=
  ∃ ns d, path g s ns v d.

(** [d] is the least weight of a simple path from [s] to [v]. *)
Definition shortest (g : graph node) (s v : node) (d : Z) : Prop :=
  (∃ ns, path g s ns v d ∧ NoDup ns) ∧
  ∀ ns d', path g s ns v d' → NoDup ns → d ≤ d'.

(** *** [reconstruct_path] of [dijkstra.py] and of [bellmanford.py]

    The loop [while node is not None] has no bound of its own; [fuel] counts
    its iterations and [Diverge] is the outcome when they run out. *)
Fixpoint reconstruct_loop (fuel : nat) (prev : gmap node (option node))
    (path : list node) (node_ : option node) : result (list node) :=
  match node_ with
  | None => Ok (reverse path)
  | Some n =>
      match fuel with
      | O => Diverge
      | S fuel =>
          let path := path ++ [n] in
          next ← subscript prev n;
          reconstruct_loop fuel prev path next
      end
  end.

Definition reconstruct_path (fuel : nat) (prev : gmap node (option node))
    (target : node) : result (list node) :=
  reconstruct_loop fuel prev [] (Some target).

(** [follows prev x k y]: [k] predecessor links lead from [x] to [y]. *)
Inductive follows (prev : gmap node (option node)) : node → nat → node → Prop :=
  | follows_O x : follows prev x 0 x
  | follows_S x y k z :
      prev !! x = Some (Some y) → follows prev y k z → follows prev x (S k) z.

(** The chain from [target] comes back to a node it has visited. *)
Definition revisits (prev : gmap node (option node)) (target : node) : Prop :=
  ∃ x j k, follows prev target j x ∧ follows prev x (S k) x.

(** [descends prev start v ns]: the predecessor links lead from [v] back to
    [start], where they stop, through the nodes of [ns] read backwards. *)
Inductive descends (prev : gmap node (option node)) (start : node)
    : node → list node → Prop :=
  | descends_start : prev !! start = Some None → descends prev start start [start]
  | descends_step u ns v :
      descends prev start u ns → prev !! v = Some (Some u) →
      descends prev start v (ns ++ [v]).

(** The source has distance 0 and no predecessor; every other finite entry
    is the entry of the predecessor plus the weight of an edge from it. *)
Definition linked (g : graph node) (start : node) (dist : gmap node distance)
    (prev : gmap node (option node)) : Prop :=
  prev !! start = Some None ∧ dist !! start = Some (Fin 0) ∧
  ∀ v dv, dist !! v = Some (Fin dv) → v ≠ start →
    ∃ u du w nbrs, prev !! v = Some (Some u) ∧ dist !! u = Some (Fin du) ∧
                   g !! u = Some nbrs ∧ (v, w) ∈ nbrs ∧ dv = du + w.

End graphs.

(** *** [bellman_ford] *)
Module BellmanFord.
Section with_node.
Context {node : Type} `{Countable node}.

Abbreviation tables := (gmap node distance * gmap node (option node))%type.

(** The body of the relaxation loops: the test
    [dist[u] != float('inf') and dist[u] + weight < dist[v]]. *)
Definition relaxable (dist : gmap node distance) (e : node * node * Z) : result bool :=
  let '(u, v, weight) := e in
  du ← subscript dist u;
  match du with
  | Inf => Ok false
  | Fin du => dv ← subscript dist v; Ok (lt_distance (du + weight) dv)
  end.

Definition relax (t : tables) (e : node * node * Z) : result tables :=
  let '(dist, prev) := t in
  let '(u, v, weight) := e in
  b ← relaxable dist e;
  if b : bool then
    du ← subscript dist u;
    match du with
    | Fin du => Ok (<[v := Fin (du + weight)]> dist, <[v := Some u]> prev)
    | Inf => Ok (dist, prev)
    end
  else Ok (dist, prev).

(** One pass over the edges. *)
Fixpoint relax_all (edges : list (node * node * Z)) (t : tables) : result tables :=
  match edges with
  | [] => Ok t
  | e :: edges => t ← relax t e; relax_all edges t
  end.

(** [for i in range(n)]. *)
Fixpoint passes (n : nat) (edges : list (node * node * Z)) (t : tables) : result tables :=
  match n with
  | O => Ok t
  | S n => t ← relax_all edges t; passes n edges t
  end.

(** The detection loop, with its [break]. *)
Fixpoint detect (edges : list (node * node * Z)) (dist : gmap node distance) : result bool :=
  match edges with
  | [] => Ok false
  | e :: edges =>
      b ← relaxable dist e;
      if b : bool then Ok true else detect edges dist
  end.

Definition init (g : graph node) (start : node) : tables :=
  (<[start := Fin 0]> ((λ _, Inf) <$> g), (λ _, None) <$> g).

(** [range(V - 1)] is empty when [V] is 0, as the truncated subtraction
    gives. *)
Definition bellman_ford (g : graph node) (edges : list (node * node * Z)) (start : node)
    : result (gmap node distance * gmap node (option node) * bool) :=
  let V := size g in
  '(dist, prev) ← passes (V - 1)%nat edges (init g start);
  has_negative_cycle ← detect edges dist;
  Ok (dist, prev, has_negative_cycle).

Definition reconstruct_path := @reconstruct_path node _ _.

(** Every edge joins nodes that have an entry in the distance table. *)
Definition edges_in (g : graph node) (start : node) (edges : list (node * node * Z)) : bool :=
  forallb (λ '(u, v, w), bool_decide (u ∈ {[start]} ∪ dom g) &&
                         bool_decide (v ∈ {[start]} ∪ dom g)) edges.

(** An edge that can still be relaxed: [dist[u]] is finite and
    [dist[u] + w < dist[v]]. *)
Definition improves (dist : gmap node distance) (e : node * node * Z) : Prop :=
  ∃ du dv, dist !! e.1.1 = Some (Fin du) ∧ dist !! e.1.2 = Some dv ∧
           lt_distance (du + e.2) dv = true.

Definition endpoints_in (D : gset node) (edges : list (node * node * Z)) : Prop :=
  ∀ u v w, (u, v, w) ∈ edges → u ∈ D ∧ v ∈ D.

(** Every finite entry is the weight of a path from the source. *)
Definition achieved (g : graph node) (start : node) (dist : gmap node distance) : Prop :=
  ∀ v d, dist !! v = Some (Fin d) → ∃ ns, path g start ns v d.

(** The entries are at most the weights of the paths of at most [k] edges. *)
Definition within (g : graph node) (start : node) (k : nat)
    (dist : gmap node distance) : Prop :=
  ∀ v ns d, path g start ns v d → (length ns ≤ S k)%nat →
            ∃ dv, dist !! v = Some (Fin dv) ∧ dv ≤ d.

(** [dist'] is pointwise at most [dist]. *)
Definition below (dist dist' : gmap node distance) : Prop :=
  ∀ y d, dist !! y = Some (Fin d) → ∃ d', dist' !! y = Some (Fin d') ∧ d' ≤ d.

(** In [dist'] every edge of [edges] has been relaxed from [dist]. *)
Definition settled (edges : list (node * node * Z))
    (dist dist' : gmap node distance) : Prop :=
  ∀ u v w du, (u, v, w) ∈ edges → dist !! u = Some (Fin du) →
              ∃ dv, dist' !! v = Some (Fin dv) ∧ dv ≤ du + w.

(** The edges of the list are edges of the graph. *)
Definition graph_edges (g : graph node) (edges : list (node * node * Z)) : Prop :=
  ∀ u v w, (u, v, w) ∈ edges → ∃ nbrs, g !! u = Some nbrs ∧ (v, w) ∈ nbrs.

(** A cycle of negative weight through a node that the source reaches. *)
Definition negative_cycle (g : graph node) (start : node) : Prop :=
  ∃ u ns d ns' c, path g start ns u d ∧ path g u ns' u c ∧ c < 0.

(** What the passes keep of the predecessor table, short of a negative
    cycle: a finite entry is not less than the entry of the predecessor plus
    the weight of an edge from it, an infinite entry has no predecessor, and
    the predecessors of a finite entry lead back to the source. *)
Definition loose (g : graph node) (start : node) (dist : gmap node distance)
    (prev : gmap node (option node)) : Prop :=
  (∀ v dv, dist !! v = Some (Fin dv) →
     (v = start ∧ prev !! v = Some None ∧ dv = 0) ∨
     ∃ u du w nbrs, prev !! v = Some (Some u) ∧ dist !! u = Some (Fin du) ∧
                    g !! u = Some nbrs ∧ (v, w) ∈ nbrs ∧ du + w ≤ dv) ∧
  (∀ v, dist !! v = Some Inf → prev !! v = Some None) ∧
  (∀ v dv, dist !! v = Some (Fin dv) → ∃ ns, descends prev start v ns).

End with_node.
End BellmanFord.

(** *** [dijkstra] *)
Module Dijkstra.
Section with_node.
Context {node : Type} `{Countable node}.
(** The order of the nodes, which breaks ties between heap entries. *)
Variable node_ltb : node → node → bool.

Abbreviation entry := (Z * node)%type.

Definition entry_ltb : entry → entry → bool := pair_ltb Z.ltb Z.eqb node_ltb.

Record state := State {
  dist : gmap node distance;
  prev : gmap node (option node);
  heap : list entry;
  visited : gset node;
}.

(** Step 4, the loop over [graph[u]]. *)
Fixpoint relax_edges (current_dist : Z) (u : node) (nbrs : list (node * Z))
    (st : state) : result state :=
  match nbrs with
  | [] => Ok st
  | (v, weight) :: nbrs =>
      if decide (v ∈ visited st) then relax_edges current_dist u nbrs st
      else
        let new_dist := current_dist + weight in
        dv ← subscript (dist st) v;
        if lt_distance new_dist dv then
          relax_edges current_dist u nbrs
            (State (<[v := Fin new_dist]> (dist st)) (<[v := Some u]> (prev st))
                   (heappush (heap st) (new_dist, v)) (visited st))
        else relax_edges current_dist u nbrs st
  end.

(** [while heap], one unit of [fuel] per iteration. *)
Fixpoint loop (fuel : nat) (g : graph node) (st : state)
    : result (gmap node distance * gmap node (option node)) :=
  match fuel with
  | O => Diverge
  | S fuel =>
      match heappop entry_ltb (heap st) with
      | None => Ok (dist st, prev st)
      | Some ((current_dist, u), heap') =>
          if decide (u ∈ visited st) then
            loop fuel g (State (dist st) (prev st) heap' (visited st))
          else
            let st := State (dist st) (prev st) heap' ({[u]} ∪ visited st) in
            nbrs ← subscript g u;
            st ← relax_edges current_dist u nbrs st;
            loop fuel g st
      end
  end.

Definition init (g : graph node) (start : node) : state :=
  State (<[start := Fin 0]> ((λ _, Inf) <$> g)) ((λ _, None) <$> g) [(0, start)] ∅.

(** The loop runs at most once per entry ever pushed, and one entry is
    pushed per edge at most, after the first: the fuel never runs out. *)
Definition dijkstra (g : graph node) (start : node)
    : result (gmap node distance * gmap node (option node)) :=
  loop (2 + num_edges g) g (init g start).

Definition reconstruct_path := @reconstruct_path node _ _.

(** The edges that leave a node of [vis]. *)
Definition edges_from (g : graph node) (vis : gset node) (x v : node) (w : Z) : Prop :=
  x ∈ vis ∧ ∃ nbrs, g !! x = Some nbrs ∧ (v, w) ∈ nbrs.

(** The loop invariant; [E] holds the edges already relaxed. *)
Record inv (g : graph node) (start : node) (E : node → node → Z → Prop)
    (st : state) : Prop := Inv {
  inv_dom_dist : dom (dist st) = dom g;
  inv_dom_prev : dom (prev st) = dom g;
  inv_visited : visited st ⊆ dom g;
  inv_unset : ∀ v, dist st !! v = Some Inf → prev st !! v = Some None;
  inv_final : ∀ u, u ∈ visited st →
    ∃ du, dist st !! u = Some (Fin du) ∧ ∀ ns d, path g start ns u d → du ≤ d;
  inv_path : ∀ v d, dist st !! v = Some (Fin d) → ∃ ns, path g start ns v d;
  inv_queued : ∀ v d, v ∉ visited st → dist st !! v = Some (Fin d) → (d, v) ∈ heap st;
  inv_heap : ∀ d v, (d, v) ∈ heap st →
    v ∈ dom g ∧ ∃ d', dist st !! v = Some (Fin d') ∧ d' ≤ d;
  inv_relaxed : ∀ x v w dx, E x v w → dist st !! x = Some (Fin dx) →
    ∃ dv, dist st !! v = Some (Fin dv) ∧ dv ≤ dx + w;
  inv_start : ∃ ds, dist st !! start = Some (Fin ds) ∧ ds ≤ 0;
}.

(** While the edges of [u] are relaxed: those of the other visited nodes and
    those of [u] in [done]. *)
Definition relaxing (g : graph node) (vis : gset node) (u : node)
    (done : list (node * Z)) (x v : node) (w : Z) : Prop :=
  (x ≠ u ∧ edges_from g vis x v w) ∨ (x = u ∧ (v, w) ∈ done).

(** The predecessor table is a tree rooted at the source, over the visited
    nodes and the nodes they have reached. *)
Record tree (g : graph node) (start : node) (st : state) : Prop := Tree {
  tree_linked : linked g start (dist st) (prev st);
  tree_parent : ∀ v dv, dist st !! v = Some (Fin dv) → v ≠ start →
    ∃ u, prev st !! v = Some (Some u) ∧ u ∈ visited st;
  tree_first : start ∈ visited st ∨ heap st = [(0, start)];
  tree_chain : ∀ u, u ∈ visited st →
    ∃ ns, descends (prev st) start u ns ∧ NoDup ns ∧ ∀ x, x ∈ ns → x ∈ visited st;
}.

(** What the loop keeps on any graph, closed or not, as long as no lookup
    has failed; [E] holds the edges already relaxed. *)
Record sweep (g : graph node) (E : node → node → Z → Prop) (st : state) : Prop := Sweep {
  sweep_dom : dom (dist st) = dom g;
  sweep_visited : visited st ⊆ dom g;
  sweep_queued : ∀ y d, y ∉ visited st → dist st !! y = Some (Fin d) →
    ∃ d', (d', y) ∈ heap st;
  sweep_edges : ∀ x y w, E x y w →
    y ∈ dom g ∧ (y ∈ visited st ∨ ∃ d, dist st !! y = Some (Fin d));
}.

End with_node.
Arguments state node {_ _}.
End Dijkstra.

(** *** [prim] *)
Module Prim.
Section with_node.
Context {node : Type} `{Countable node}.
Variable node_ltb : node → node → bool.

(** Heap entries [(weight, current_node, parent_node)]. *)
Abbreviation entry := (Z * node * option node)%type.

(** The order on the third component.  Only the first entry has parent [None]
    and it is alone in the heap when it is popped, so [None] is never compared
    with a node. *)
Definition parent_ltb (a b : option node) : bool :=
  match a, b with
  | Some x, Some y => node_ltb x y
  | _, _ => false
  end.

Definition entry_ltb : entry → entry → bool :=
  pair_ltb (pair_ltb Z.ltb Z.eqb node_ltb)
           (λ a b, Z.eqb a.1 b.1 && bool_decide (a.2 = b.2)) parent_ltb.

Record state := State {
  in_mst : gset node;
  mst_edges : list (node * node * Z);
  heap : list entry;
}.

(** Step 4: push the edges of [u] that lead out of the tree. *)
Fixpoint push_edges (u : node) (in_mst : gset node) (nbrs : list (node * Z))
    (heap : list entry) : list entry :=
  match nbrs with
  | [] => heap
  | (v, w) :: nbrs =>
      if decide (v ∉ in_mst) then push_edges u in_mst nbrs (heappush heap (w, v, Some u))
      else push_edges u in_mst nbrs heap
  end.

(** [while heap and len(in_mst) < len(graph)]. *)
Fixpoint loop (fuel : nat) (g : graph node) (st : state) : result state :=
  match fuel with
  | O => Diverge
  | S fuel =>
      match heappop entry_ltb (heap st) with
      | None => Ok st
      | Some ((weight, u, parent), heap') =>
          if decide (size (in_mst st) < size g)%nat then
            if decide (u ∈ in_mst st) then
              loop fuel g (State (in_mst st) (mst_edges st) heap')
            else
              let in_mst' := {[u]} ∪ in_mst st in
              let mst_edges' :=
                match parent with
                | Some p => mst_edges st ++ [(p, u, weight)]
                | None => mst_edges st
                end in
              nbrs ← subscript g u;
              loop fuel g (State in_mst' mst_edges' (push_edges u in_mst' nbrs heap'))
          else Ok st
      end
  end.

Definition prim (g : graph node) (start : node)
    : result (list (node * node * Z) * Z) :=
  st ← loop (2 + num_edges g) g (State ∅ [] [(0, start, None)]);
  let total_weight := sum_weights (mst_edges st) in
  Ok (mst_edges st, total_weight).

(** The nodes an edge list mentions. *)
Definition mentions (edges : list (node * node * Z)) (v : node) : Prop :=
  ∃ a b w, (a, b, w) ∈ edges ∧ (v = a ∨ v = b).

Definition targets (edges : list (node * node * Z)) : list node :=
  (λ e, e.1.2) <$> edges.

(** The loop invariant. *)
Record inv (g : graph node) (start : node) (st : state) : Prop := Inv {
  inv_dom : in_mst st ⊆ dom g;
  inv_reach : ∀ v, v ∈ in_mst st → reachable g start v;
  inv_heap_edge : ∀ w v p, (w, v, Some p) ∈ heap st →
    p ∈ in_mst st ∧ ∃ nbrs, g !! p = Some nbrs ∧ (v, w) ∈ nbrs;
  inv_heap_first : ∀ w v, (w, v, None) ∈ heap st → in_mst st = ∅ ∧ v = start;
  inv_frontier : ∀ u nbrs v w, u ∈ in_mst st → g !! u = Some nbrs → (v, w) ∈ nbrs →
    v ∈ in_mst st ∨ ∃ w' p, (w', v, p) ∈ heap st;
  inv_start : start ∈ in_mst st ∨
    (in_mst st = ∅ ∧ mst_edges st = [] ∧ heap st = [(0, start, None)]);
  inv_nodup : NoDup (targets (mst_edges st));
  inv_targets : ∀ v, v ∈ targets (mst_edges st) ↔ v ∈ in_mst st ∧ v ≠ start;
  inv_edges : ∀ a b w, (a, b, w) ∈ mst_edges st →
    a ∈ in_mst st ∧ ∃ nbrs, g !! a = Some nbrs ∧ (b, w) ∈ nbrs;
}.

End with_node.
Arguments state node {_ _}.
End Prim.

(** *** [kruskal] *)
Module Kruskal.
Section with_node.
Context {node : Type} `{Countable node}.

Abbreviation edge := (node * node * Z)%type.

Definition weight (e : edge) : Z := e.2.

(** [sorted(edges, key=lambda e: e[2])]: a stable sort on the weights. *)
Fixpoint insert_edge (e : edge) (l : list edge) : list edge :=
  match l with
  | [] => [e]
  | x :: l' => if decide (weight e ≤ weight x) then e :: l else x :: insert_edge e l'
  end.

Definition sorted (edges : list edge) : list edge := foldr insert_edge [] edges.

(** Steps 3 to 5; [n] is [len(nodes)]. *)
Fixpoint loop (n : nat) (sorted_edges : list edge) (uf : UnionFind.state node)
    (mst_edges : list edge) : result (list edge) :=
  match sorted_edges with
  | [] => Ok mst_edges
  | (u, v, w) :: sorted_edges =>
      '(c, uf) ← UnionFind.connected uf u v;
      if c : bool then loop n sorted_edges uf mst_edges
      else
        '(_, uf) ← UnionFind.union uf u v;
        let mst_edges := mst_edges ++ [(u, v, w)] in
        if decide (Z.of_nat (length mst_edges) = Z.of_nat n - 1) then Ok mst_edges
        else loop n sorted_edges uf mst_edges
  end.

Definition kruskal (nodes : list node) (edges : list edge) : result (list edge * Z) :=
  let sorted_edges := sorted edges in
  let uf := UnionFind.init nodes in
  mst_edges ← loop (length nodes) sorted_edges uf [];
  let total_weight := sum_weights mst_edges in
  Ok (mst_edges, total_weight).

(** *** Undirected connectivity *)

Definition joined (es : list edge) (a b : node) : Prop := ∃ w, (a, b, w) ∈ es.

(** [a] and [b] are linked by edges of [es], taken in either direction. *)
Definition conn (es : list edge) : relation node := rtsc (joined es).

(** A label for every node, the same for two nodes exactly when they are
    connected: each edge renames the label of its target into the label of its
    source. *)
Fixpoint label (es : list edge) (x : node) : node :=
  match es with
  | [] => x
  | (u, v, _) :: es => if decide (label es x = label es v) then label es u else label es x
  end.

(** The number of connected components of the graph [(V, es)]. *)
Definition num_components (V : gset node) (es : list edge) : nat :=
  size (set_map (label es) V : gset node).

(** A spanning tree of the graph: [|V| - 1] of its edges that connect all
    its nodes. *)
Definition spanning_tree (nodes : list node) (edges T : list edge) : Prop :=
  T ⊆+ edges ∧
  S (length T) = size (list_to_set nodes : gset node) ∧
  ∀ a b, a ∈ nodes → b ∈ nodes → conn T a b.

(** Every edge joins two of the nodes. *)
Definition edges_in (nodes : list node) (edges : list edge) : bool :=
  forallb (λ '(u, v, w), bool_decide (u ∈ nodes) && bool_decide (v ∈ nodes)) edges.

Definition connectedb (nodes : list node) (edges : list edge) : bool :=
  forallb (λ a, forallb (λ b, bool_decide (label edges a = label edges b)) nodes) nodes.

(** Edges of weight at most [t]. *)
Definition upto (t : Z) (es : list edge) : list edge :=
  filter (λ e, weight e ≤ t) es.

(** [Σ_{i < n} |upto (lo + i) es|]. *)
Fixpoint layers (lo : Z) (n : nat) (es : list edge) : Z :=
  match n with
  | O => 0
  | S n => Z.of_nat (length (upto lo es)) + layers (lo + 1) n es
  end.

(** Every edge is at most as heavy as those after it. *)
Definition ascending (es : list edge) : Prop :=
  StronglySorted (λ e1 e2, weight e1 ≤ weight e2) es.

(** *** The loop invariant *)

(** The sets of the structure are the components of the accepted edges. *)
Definition sets_match (V : gset node) (uf : UnionFind.state node)
    (mst : list edge) : Prop :=
  UnionFind.wf uf ∧ dom (UnionFind.parent uf) = V ∧
  ∀ a b, a ∈ V → b ∈ V →
    (∃ r, UnionFind.root_of (UnionFind.parent uf) a r ∧
          UnionFind.root_of (UnionFind.parent uf) b r) ↔ conn mst a b.

(** The loop invariant: [seen] are the edges already examined, [rest] those
    still to come. *)
Record inv (V : gset node) (seen rest : list edge) (uf : UnionFind.state node)
    (mst : list edge) : Prop := Inv {
  inv_match : sets_match V uf mst;
  inv_count : ∀ t, (length (upto t mst) + num_components V (upto t mst))%nat = size V;
  inv_count_all : (length mst + num_components V mst)%nat = size V;
  inv_sub : mst ⊆+ seen;
  inv_light : ∀ e e', e ∈ mst → e' ∈ rest → weight e ≤ weight e';
  inv_seen : ∀ u v w, (u, v, w) ∈ seen → conn (upto w mst) u v;
}.

(** What the loop establishes, [all] being the sorted edges. *)
Record post (V : gset node) (all mst : list edge) : Prop := Post {
  post_sub : mst ⊆+ all;
  post_count : ∀ t, (length (upto t mst) + num_components V (upto t mst))%nat = size V;
  post_count_all : (length mst + num_components V mst)%nat = size V;
  post_all : ∀ u v w, (u, v, w) ∈ all → conn (upto w mst) u v;
}.

(** The edge joins two of the nodes. *)
Definition inside (nodes : list node) (e : node * node * Z) : bool :=
  bool_decide (e.1.1 ∈ nodes) && bool_decide (e.1.2 ∈ nodes).

(** A spanning forest of the graph: edges of the graph without a cycle (as
    many components are lost as there are edges) that connect whatever the
    graph connects. *)
Definition spanning_forest (nodes : list node) (edges T : list edge) : Prop :=
  T ⊆+ edges ∧
  (length T + num_components (list_to_set nodes) T)%nat
    = size (list_to_set nodes : gset node) ∧
  ∀ a b, a ∈ nodes → b ∈ nodes → conn edges a b → conn T a b.

End with_node.
End Kruskal.

(** *** Undirected graphs and cuts *)

Section cuts.
Context {node : Type} `{Countable node}.

(** Every edge is listed in both directions, as the examples build their
    undirected graphs. *)
Definition symmetricb (g : graph node) : bool :=
  forallb (λ '(u, v, w), bool_decide ((v, u, w) ∈ edge_list g)) (edge_list g).

(** The edge has one end in [tree] and the other outside. *)
Definition crossing (tree : gset node) (e : node * node * Z) : Prop :=
  (e.1.1 ∈ tree ∧ (e.1.2 ∉ tree)) ∨ ((e.1.1 ∉ tree) ∧ e.1.2 ∈ tree).

#[global] Instance crossing_dec tree e : Decision (crossing tree e).
Proof. unfold crossing. apply _. Defined.

(** What the loop of [prim] keeps besides [Prim.inv]: every edge that leaves
    the tree is in the heap, the accepted edges join nodes of the tree, and
    they can be completed into a spanning tree that is no heavier than any
    given one. *)
Record prim_grow (g : graph node) (st : Prim.state node) : Prop := PrimGrow {
  grow_frontier : ∀ a nbrs v w,
    a ∈ Prim.in_mst st → g !! a = Some nbrs → (v, w) ∈ nbrs → v ∉ Prim.in_mst st →
    (w, v, Some a) ∈ Prim.heap st;
  grow_inside : ∀ a b w,
    (a, b, w) ∈ Prim.mst_edges st → a ∈ Prim.in_mst st ∧ b ∈ Prim.in_mst st;
  grow_safe : ∀ T,
    Kruskal.spanning_tree (elements (dom g)) (edge_list g) T →
    ∃ T', Kruskal.spanning_tree (elements (dom g)) (edge_list g) T' ∧
          Prim.mst_edges st ⊆+ T' ∧ sum_weights T' ≤ sum_weights T;
}.

End cuts.

(** ** Example inputs *)

(** A predecessor table whose chain from [A] cycles. *)
Definition prev_cycle : gmap string (option string) :=
  <["A" := Some "B"]> (<["B" := Some "A"]> ∅).

(** Scenario 2: nodes [{A, B}], edges [(A,B,-1)] and [(B,A,-1)]. *)
Definition neg_cycle_graph : graph string :=
  <["A" := [("B", -1)]]> (<["B" := [("A", -1)]]> ∅).

Definition neg_cycle_edges : list (string * string * Z) :=
  [("A", "B", -1); ("B", "A", -1)].

(** Scenario 4: nodes [{A, B, C, D}], edges only between [A] and [B] and
    between [C] and [D]. *)
Definition two_islands : graph string :=
  <["A" := [("B", 1)]]> (<["B" := [("A", 1)]]>
  (<["C" := [("D", 2)]]> (<["D" := [("C", 2)]]> ∅))).

Definition two_islands_nodes : list string := ["A"; "B"; "C"; "D"].

Definition two_islands_edges : list (string * string * Z) :=
  [("A", "B", 1); ("C", "D", 2)].

(** A single node with an edge to itself. *)
Definition self_loop : graph string := <["A" := [("A", 1)]]> ∅.

(** Scenario 1: nodes [{A, B, C}], edges [(A,B,1)], [(B,C,2)], [(A,C,5)]. *)
Definition triangle : graph string :=
  <["A" := [("B", 1); ("C", 5)]]> (<["B" := [("C", 2)]]> (<["C" := []]> ∅)).

Definition triangle_edges : list (string * string * Z) :=
  [("A", "B", 1); ("B", "C", 2); ("A", "C", 5)].

(** A graph with a negative edge and no cycle: the way to [C] through [B] is
    the shorter one. *)
Definition neg_edge_graph : graph string :=
  <["A" := [("B", 4); ("C", 2)]]> (<["B" := [("C", -3)]]> (<["C" := []]> ∅)).

Definition neg_edge_edges : list (string * string * Z) :=
  [("A", "B", 4); ("A", "C", 2); ("B", "C", -3)].

(** Scenario 3 as an adjacency dictionary, every edge in both directions. *)
Definition triangle_undirected : graph string :=
  <["A" := [("B", 1); ("C", 5)]]>
  (<["B" := [("A", 1); ("C", 2)]]>
  (<["C" := [("B", 2); ("A", 5)]]> ∅)).


(** A graph whose node [C] is a neighbour but not a key. *)
Definition dangling : graph string :=
  <["A" := [("B", 1)]]> (<["B" := [("C", 2)]]> ∅).

(** * Properties *)

#[local] Set Warnings "-clear-no-such-hyp".

(** Closed decidable goals, by evaluation. *)
Ltac by_compute := apply (bool_decide_unpack _); vm_compute; exact I.

Section subscript_facts.
Context `{Countable K} {V : Type}.
Implicit Types (d : gmap K V).

Lemma subscript_Some d k v :
  d !! k = Some v → subscript d k = Ok v.
Proof. intros E. unfold subscript. by rewrite E. Qed.

Lemma subscript_None d k :
  d !! k = None → subscript d k = Raise KeyError.
Proof. intros E. unfold subscript. by rewrite E. Qed.

Lemma subscript_Ok d k v :
  subscript d k = Ok v → d !! k = Some v.
Proof. unfold subscript. destruct (d !! k); naive_solver. Qed.

End subscript_facts.

(** ** Disjoint sets *)

Section union_find_facts.
Context {node : Type} `{Countable node}.
Import UnionFind.
Implicit Types (p : gmap node node) (uf : state node) (x y r : node) (l : list node).

Lemma chain_end_root p x l r : chain p x l r → p !! r = Some r.
Proof. induction 1; auto. Qed.

Lemma chain_det p x l r l' r' :
  chain p x l r → chain p x l' r' → l = l' ∧ r = r'.
Proof.
  intros C; revert l' r'.
  induction C as [r Hr|x y l r Hx Hne C IH]; intros l' r' C';
    inversion C' as [? Hr'|? y' l2 ? Hx' Hne' C2]; subst; try congruence; auto.
  assert (y' = y) as -> by congruence.
  destruct (IH _ _ C2) as [-> ->]; auto.
Qed.

Lemma root_of_det p x r r' : root_of p x r → root_of p x r' → r = r'.
Proof. intros [l C] [l' C']. by destruct (chain_det _ _ _ _ _ _ C C'). Qed.

Lemma root_of_root p r : p !! r = Some r → root_of p r r.
Proof. exists []. by constructor. Qed.

Lemma root_of_end p x r : root_of p x r → p !! r = Some r.
Proof. intros [l C]. eapply chain_end_root; eauto. Qed.

Lemma root_of_dom p x r : root_of p x r → x ∈ dom p.
Proof. intros [l C]. apply elem_of_dom. destruct C; eauto. Qed.

(** Every node of a chain starts a shorter chain to the same root. *)
Lemma chain_suffix p x l r z :
  chain p x l r → z ∈ l →
  ∃ l', chain p z l' r ∧ (length l' ≤ length l)%nat ∧ p !! z ≠ Some z.
Proof.
  induction 1 as [r Hr|x y l r Hx Hne C IH]; intros Hz.
  - by apply elem_of_nil in Hz.
  - apply elem_of_cons in Hz as [->|Hz].
    + exists (x :: l). split; [by econstructor|]. split; [done|]. congruence.
    + destruct (IH Hz) as (l' & C' & Hl & Hnr). exists l'. simpl. split_and!; auto with lia.
Qed.

Lemma chain_NoDup p x l r : chain p x l r → NoDup l.
Proof.
  induction 1 as [r Hr|x y l r Hx Hne C IH]; constructor; auto.
  intros Hin. destruct (chain_suffix _ _ _ _ _ C Hin) as (l' & C' & Hl & _).
  assert (chain p x (x :: l) r) as C2 by (by econstructor).
  destruct (chain_det _ _ _ _ _ _ C' C2) as [-> _]. simpl in Hl. lia.
Qed.

Lemma chain_length p x l r : chain p x l r → (length l ≤ size p)%nat.
Proof.
  intros C. rewrite <- size_dom.
  change (size (dom p)) with (length (elements (dom p))).
  apply submseteq_length, NoDup_submseteq; [by eapply chain_NoDup|].
  intros z Hz. apply elem_of_elements, elem_of_dom.
  destruct (chain_suffix _ _ _ _ _ C Hz) as (l' & C' & _). destruct C'; eauto.
Qed.

Lemma find_rec_chain uf x l r depth :
  chain (parent uf) x l r → (length l < depth)%nat →
  find_rec depth uf x = Ok (r, compress r l uf).
Proof.
  intros C; revert depth.
  induction C as [r Hr|x y l r Hx Hne C IH]; intros [|depth] Hd; simpl in Hd; try lia.
  - simpl. rewrite (subscript_Some _ _ _ Hr). simpl.
    case_decide; [done|done].
  - simpl. rewrite (subscript_Some _ _ _ Hx). simpl.
    case_decide; [|done].
    rewrite IH by lia. simpl.
    unfold subscript. simpl. by rewrite lookup_insert_eq.
Qed.

Lemma find_chain uf x l r :
  chain (parent uf) x l r → find uf x = Ok (r, compress r l uf).
Proof.
  intros C. apply find_rec_chain; [done|].
  pose proof (chain_length _ _ _ _ C). lia.
Qed.

Lemma rank_compress r l uf : rank (compress r l uf) = rank uf.
Proof. induction l; simpl; auto. Qed.

Lemma parent_compress_cons r x l uf :
  parent (compress r (x :: l) uf) = <[x := r]> (parent (compress r l uf)).
Proof. done. Qed.

(** Re-pointing a node at its own root keeps every root. *)
Lemma root_of_insert_root p x r y ry :
  root_of p x r → root_of p y ry → root_of (<[x := r]> p) y ry.
Proof.
  intros Hx [ly C]. induction C as [ry Hry|y z l ry Hy Hne C IH].
  - apply root_of_root. destruct (decide (x = ry)) as [->|Hxr].
    + rewrite (root_of_det _ _ _ _ Hx (root_of_root _ _ Hry)). apply lookup_insert_eq.
    + by rewrite lookup_insert_ne.
  - destruct IH as [l' C']. destruct (decide (x = y)) as [->|Hxy].
    + assert (r = ry) as -> by (eapply root_of_det; [done|]; eexists; by econstructor).
      assert (ry ≠ y) as Hr.
      { intros ->. apply chain_end_root in C. congruence. }
      exists [y]. apply chain_step with ry; [apply lookup_insert_eq|done|].
      constructor. rewrite lookup_insert_ne by done. by eapply chain_end_root.
    + exists (y :: l'). apply chain_step with z; [by rewrite lookup_insert_ne|done..].
Qed.

Lemma root_of_compress uf r l y ry :
  (∀ z, z ∈ l → root_of (parent uf) z r) →
  root_of (parent uf) y ry → root_of (parent (compress r l uf)) y ry.
Proof.
  revert y ry. induction l as [|x l IH]; intros y ry Hl Hy; [done|].
  assert (∀ z, z ∈ l → root_of (parent uf) z r)
    by (intros; apply Hl, elem_of_cons; auto).
  rewrite parent_compress_cons.
  apply root_of_insert_root; apply IH; auto. apply Hl, elem_of_cons; auto.
Qed.

Lemma dom_parent_compress uf r l :
  (∀ z, z ∈ l → z ∈ dom (parent uf)) →
  dom (parent (compress r l uf)) = dom (parent uf).
Proof.
  induction l as [|x l IH]; intros Hl; [done|].
  rewrite parent_compress_cons, dom_insert_L, IH
    by (intros; apply Hl, elem_of_cons; auto).
  assert (x ∈ dom (parent uf)) by (apply Hl, elem_of_cons; auto). set_solver.
Qed.

Lemma chain_compress uf x l r :
  wf uf → chain (parent uf) x l r →
  wf (compress r l uf) ∧ same_sets uf (compress r l uf).
Proof.
  intros [Hdom Hroot] C.
  assert (∀ z, z ∈ l → root_of (parent uf) z r) as Hl.
  { intros z Hz. destruct (chain_suffix _ _ _ _ _ C Hz) as (l' & C' & _). by exists l'. }
  assert (dom (parent (compress r l uf)) = dom (parent uf)) as Hd.
  { apply dom_parent_compress. intros z Hz. eapply root_of_dom; eauto. }
  assert (∀ y ry, root_of (parent uf) y ry → root_of (parent (compress r l uf)) y ry) as Hfw.
  { intros y ry. by apply root_of_compress. }
  split; [split|split_and!]; rewrite ?rank_compress, ?Hd; auto.
  - intros y Hy. destruct (Hroot y Hy) as [ry Hry]. eauto.
  - intros y ry. split; [auto|]. intros Hy'.
    assert (y ∈ dom (parent uf)) as Hy by (rewrite <- Hd; by eapply root_of_dom).
    destruct (Hroot y Hy) as [ry0 Hry0].
    by rewrite (root_of_det _ _ _ _ Hy' (Hfw _ _ Hry0)).
Qed.

Lemma find_wf uf x :
  wf uf → x ∈ dom (parent uf) →
  ∃ r uf', find uf x = Ok (r, uf') ∧ root_of (parent uf) x r ∧
           wf uf' ∧ same_sets uf uf'.
Proof.
  intros Hwf Hx. destruct (proj2 Hwf x Hx) as (r & l & C).
  exists r, (compress r l uf). split; [by apply find_chain|].
  split; [by exists l|]. by apply (chain_compress uf x).
Qed.

(** Linking a root [a] under another root [b]. *)
Lemma chain_link_other p a b y l r :
  p !! a = Some a → chain p y l r → r ≠ a → chain (<[a := b]> p) y l r.
Proof.
  intros Ha C Hr. induction C as [r Hr'|y z l r Hy Hne C IH].
  - constructor. by rewrite lookup_insert_ne.
  - apply chain_step with z; auto. rewrite lookup_insert_ne; [done|congruence].
Qed.

Lemma chain_link_under p a b y l :
  p !! b = Some b → a ≠ b → chain p y l a → chain (<[a := b]> p) y (l ++ [a]) b.
Proof.
  intros Hb Hab C. remember a as r eqn:Er.
  induction C as [r Hr'|y z l r Hy Hne C IH]; subst; simpl.
  - apply chain_step with b; [apply lookup_insert_eq|done|].
    constructor. by rewrite lookup_insert_ne.
  - apply chain_step with z; auto. rewrite lookup_insert_ne; [done|].
    intros ->. apply chain_end_root in C. congruence.
Qed.

Lemma root_of_link p a b y r :
  p !! a = Some a → p !! b = Some b → a ≠ b → root_of p y r →
  root_of (<[a := b]> p) y (if decide (r = a) then b else r).
Proof.
  intros Ha Hb Hab [l C]. case_decide as E.
  - subst r. exists (l ++ [a]). by apply chain_link_under.
  - exists l. by apply chain_link_other.
Qed.

Lemma link_wf uf a b :
  wf uf → parent uf !! a = Some a → parent uf !! b = Some b → a ≠ b →
  wf (set_parent a b uf).
Proof.
  intros [Hdom Hroot] Ha Hb Hab. split; simpl.
  - rewrite dom_insert_L, <- Hdom. apply (elem_of_dom_2 (parent uf)) in Ha. set_solver.
  - intros y Hy. rewrite dom_insert_L in Hy.
    assert (y ∈ dom (parent uf)) as Hy'.
    { apply (elem_of_dom_2 (parent uf)) in Ha. set_solver. }
    destruct (Hroot y Hy') as [r Hr]. eexists. by apply root_of_link.
Qed.

Lemma set_rank_wf uf a k : wf uf → a ∈ dom (parent uf) → wf (set_rank a k uf).
Proof.
  intros [Hdom Hroot] Ha. split; simpl; [|done].
  rewrite dom_insert_L, <- Hdom. set_solver.
Qed.

(** The effect of [union] on a well-formed state: the two roots are those of
    the forest before the call; the loser is linked under the winner. *)
Lemma union_effect uf x y :
  wf uf → x ∈ dom (parent uf) → y ∈ dom (parent uf) →
  ∃ rx ry kx ky uf1 uf2,
    find uf x = Ok (rx, uf1) ∧ find uf1 y = Ok (ry, uf2) ∧
    root_of (parent uf) x rx ∧ root_of (parent uf) y ry ∧
    rank uf !! rx = Some kx ∧ rank uf !! ry = Some ky ∧
    wf uf2 ∧ same_sets uf uf2 ∧
    union uf x y = Ok
      (if decide (rx = ry) then (false, uf2)
       else if decide (kx < ky)%nat then (true, set_parent rx ry uf2)
       else if decide (ky < kx)%nat then (true, set_parent ry rx uf2)
       else (true, set_rank rx (kx + 1)%nat (set_parent ry rx uf2))).
Proof.
  intros Hwf Hx Hy.
  destruct (find_wf uf x Hwf Hx) as (rx & uf1 & Fx & Rx & Hwf1 & Hs1).
  destruct Hs1 as (Hr1 & Hd1 & Hroots1).
  assert (y ∈ dom (parent uf1)) as Hy1 by (by rewrite Hd1).
  destruct (find_wf uf1 y Hwf1 Hy1) as (ry & uf2 & Fy & Ry & Hwf2 & Hs2).
  destruct Hs2 as (Hr2 & Hd2 & Hroots2).
  apply Hroots1 in Ry.
  assert (is_Some (rank uf !! rx)) as [kx Hkx].
  { apply elem_of_dom. rewrite <- (proj1 Hwf). apply elem_of_dom.
    rewrite (root_of_end _ _ _ Rx); eauto. }
  assert (is_Some (rank uf !! ry)) as [ky Hky].
  { apply elem_of_dom. rewrite <- (proj1 Hwf). apply elem_of_dom.
    rewrite (root_of_end _ _ _ Ry); eauto. }
  exists rx, ry, kx, ky, uf1, uf2. split_and!; auto.
  - split_and!; [congruence|congruence|]. intros z r. rewrite Hroots1. apply Hroots2.
  - unfold union. rewrite Fx. simpl. rewrite Fy. simpl.
    case_decide; [done|].
    assert (rank uf2 !! rx = Some kx) as Hkx2 by congruence.
    assert (rank uf2 !! ry = Some ky) as Hky2 by congruence.
    change (rank (set_parent ry rx uf2)) with (rank uf2).
    rewrite (subscript_Some _ _ _ Hkx2), (subscript_Some _ _ _ Hky2). simpl.
    by repeat case_decide.
Qed.

Lemma root_rec_root_of depth p x r : root_rec depth p x = Some r → root_of p x r.
Proof.
  revert x. induction depth as [|depth IH]; intros x; simpl; [done|].
  destruct (p !! x) as [y|] eqn:E; [|done]. case_decide as Hy.
  - intros [= <-]. subst y. by apply root_of_root.
  - intros Hr. destruct (IH _ Hr) as [l C]. exists (x :: l). by apply chain_step with y.
Qed.

Lemma wfb_wf uf : wfb uf = true → wf uf.
Proof.
  unfold wfb. rewrite andb_true_iff, bool_decide_eq_true, forallb_forall.
  intros [Hdom Hall]. split; [done|]. intros x Hx.
  specialize (Hall x). rewrite <- list_elem_of_In, elem_of_elements in Hall.
  specialize (Hall Hx). apply bool_decide_eq_true in Hall as [r Hr].
  exists r. by eapply root_rec_root_of.
Qed.

Lemma lookup_init_parent (elements : list node) x :
  parent (init elements) !! x = if decide (x ∈ elements) then Some x else None.
Proof.
  unfold init; cbn [parent]. induction elements as [|e l IH].
  - rewrite decide_False by apply not_elem_of_nil. apply lookup_empty.
  - rewrite fmap_cons, list_to_map_cons. destruct (decide (e = x)) as [->|Hne].
    + rewrite lookup_insert_eq, decide_True; [done|by left].
    + rewrite lookup_insert_ne, IH by done.
      destruct (decide (x ∈ l)) as [Hl|Hl].
      * rewrite decide_True; [done|by right].
      * rewrite decide_False; [done|]. rewrite elem_of_cons. naive_solver.
Qed.

Lemma dom_init_parent (elements : list node) :
  dom (parent (init elements)) = list_to_set elements.
Proof.
  apply set_eq. intros x. rewrite elem_of_dom, lookup_init_parent, elem_of_list_to_set.
  case_decide; split; first [done | by intros [? ?] | eauto].
Qed.

Lemma dom_init_rank (elements : list node) :
  dom (rank (init elements)) = list_to_set elements.
Proof.
  unfold init; cbn [rank]. induction elements as [|e l IH].
  - apply dom_empty_L.
  - by rewrite fmap_cons, list_to_map_cons, dom_insert_L, IH.
Qed.

Lemma init_wf (elements : list node) : wf (init elements).
Proof.
  split; [by rewrite dom_init_parent, dom_init_rank|].
  intros x Hx. exists x. apply root_of_root.
  rewrite dom_init_parent, elem_of_list_to_set in Hx.
  rewrite lookup_init_parent. by rewrite decide_True.
Qed.

Lemma find_absent uf x : x ∉ dom (parent uf) → find uf x = Raise KeyError.
Proof.
  intros Hx. apply not_elem_of_dom in Hx. unfold find. simpl.
  by rewrite (subscript_None _ _ Hx).
Qed.

(** The sets after [union]: elements of the losing root move to the winner. *)
Lemma union_merge uf x y :
  wf uf → x ∈ dom (parent uf) → y ∈ dom (parent uf) →
  ∃ rx ry lose win uf',
    root_of (parent uf) x rx ∧ root_of (parent uf) y ry ∧
    union uf x y = Ok (bool_decide (rx ≠ ry), uf') ∧
    wf uf' ∧ dom (parent uf') = dom (parent uf) ∧
    (lose = rx ∧ win = ry ∨ lose = ry ∧ win = rx) ∧
    ∀ z r, root_of (parent uf) z r →
           root_of (parent uf') z (if decide (r = lose) then win else r).
Proof.
  intros Hwf Hx Hy.
  destruct (union_effect uf x y Hwf Hx Hy)
    as (rx & ry & kx & ky & uf1 & uf2 & _ & _ & Rx & Ry & Hkx & Hky & Hwf2 & Hs & U).
  destruct Hs as (Hr2 & Hd2 & Hroots).
  assert (parent uf2 !! rx = Some rx) as Px
    by (eapply root_of_end, Hroots; eauto).
  assert (parent uf2 !! ry = Some ry) as Py
    by (eapply root_of_end, Hroots; eauto).
  assert (rx ∈ dom (parent uf2)) as Dx by (by eapply elem_of_dom_2).
  assert (ry ∈ dom (parent uf2)) as Dy by (by eapply elem_of_dom_2).
  exists rx, ry. rewrite U. destruct (decide (rx = ry)) as [E|E].
  { exists rx, ry, uf2. rewrite bool_decide_eq_false_2 by auto.
    split_and!; auto. intros z r Hz. case_decide; subst; by apply Hroots. }
  rewrite bool_decide_eq_true_2 by auto.
  destruct (decide (kx < ky)%nat); [|destruct (decide (ky < kx)%nat)].
  - exists rx, ry, (set_parent rx ry uf2). split_and!; auto.
    + by apply link_wf.
    + simpl. rewrite dom_insert_L, <- Hd2. set_solver.
    + intros z r Hz. apply root_of_link; auto. by apply Hroots.
  - exists ry, rx, (set_parent ry rx uf2). split_and!; auto.
    + by apply link_wf.
    + simpl. rewrite dom_insert_L, <- Hd2. set_solver.
    + intros z r Hz. apply root_of_link; auto. by apply Hroots.
  - exists ry, rx, (set_rank rx (kx + 1)%nat (set_parent ry rx uf2)). split_and!; auto.
    + apply set_rank_wf; [by apply link_wf|]. simpl. rewrite dom_insert_L. set_solver.
    + simpl. rewrite dom_insert_L, <- Hd2. set_solver.
    + intros z r Hz. simpl. apply root_of_link; auto. by apply Hroots.
Qed.

Lemma union_wf uf x y b uf' :
  wf uf → union uf x y = Ok (b, uf') →
  wf uf' ∧ dom (parent uf') = dom (parent uf).
Proof.
  intros Hwf U.
  destruct (decide (x ∈ dom (parent uf))) as [Hx|Hx]; cycle 1.
  { unfold union in U. by rewrite (find_absent _ _ Hx) in U. }
  destruct (decide (y ∈ dom (parent uf))) as [Hy|Hy]; cycle 1.
  { unfold union in U. destruct (find_wf uf x Hwf Hx) as (r & uf1 & F & _ & _ & _ & Hd & _).
    rewrite F in U. simpl in U. rewrite find_absent in U by (by rewrite Hd). done. }
  destruct (union_merge uf x y Hwf Hx Hy) as (rx & ry & lose & win & uf0 & _ & _ & U' & ? & ? & _).
  rewrite U' in U. by injection U as _ <-.
Qed.

Lemma unions_wf uf ops uf' :
  wf uf → unions uf ops = Ok uf' → wf uf' ∧ dom (parent uf') = dom (parent uf).
Proof.
  revert uf. induction ops as [|[x y] ops IH]; intros uf Hwf; simpl.
  - by intros [= <-].
  - destruct (union uf x y) as [[b uf1]| |] eqn:U; try done. simpl. intros Hrun.
    destruct (union_wf _ _ _ _ _ Hwf U) as [Hwf1 Hd1].
    destruct (IH _ Hwf1 Hrun) as [? ?]. split; [done|congruence].
Qed.

(** C6.  [union(x, y)] on members of a well-formed structure: with
    [rx = find(x)] and [ry = find(y)] as the call computes them, it returns
    [False] when [rx = ry]; otherwise it returns [True], the root of lower rank
    has become a child of the other and the ranks are unchanged, except that
    on equal ranks [ry] has become a child of [rx] and the rank of [rx] has
    grown by exactly one. *)
Theorem union_by_rank uf x y :
  wf uf → x ∈ dom (parent uf) → y ∈ dom (parent uf) →
  ∃ rx ry uf1 uf2 kx ky b uf',
    find uf x = Ok (rx, uf1) ∧ find uf1 y = Ok (ry, uf2) ∧
    rank uf !! rx = Some kx ∧ rank uf !! ry = Some ky ∧
    union uf x y = Ok (b, uf') ∧
    (rx = ry → b = false) ∧
    (rx ≠ ry →
       b = true ∧
       ((kx < ky)%nat → parent uf' !! rx = Some ry ∧ rank uf' = rank uf) ∧
       ((ky < kx)%nat → parent uf' !! ry = Some rx ∧ rank uf' = rank uf) ∧
       (kx = ky → parent uf' !! ry = Some rx ∧
                  rank uf' = <[rx := S kx]> (rank uf))).
Proof.
  intros Hwf Hx Hy.
  destruct (union_effect uf x y Hwf Hx Hy)
    as (rx & ry & kx & ky & uf1 & uf2 & Fx & Fy & _ & _ & Hkx & Hky & _ & Hs & U).
  destruct Hs as (Hr2 & _ & _).
  exists rx, ry, uf1, uf2, kx, ky. rewrite U.
  destruct (decide (rx = ry)) as [E|E].
  { eexists _, _. split_and!; eauto. done. }
  destruct (decide (kx < ky)%nat); [|destruct (decide (ky < kx)%nat)];
    eexists _, _; (split_and!; eauto; [done|]); intros _; simpl;
    (split_and!; [done|intros; try lia..]).
  - by rewrite lookup_insert_eq.
  - by rewrite lookup_insert_eq.
  - rewrite lookup_insert_eq, Hr2. by replace (kx + 1)%nat with (S kx) by lia.
Qed.

(** The effect of [connected] on a well-formed state. *)
Lemma connected_effect uf x y :
  wf uf → x ∈ dom (parent uf) → y ∈ dom (parent uf) →
  ∃ rx ry uf1 uf',
    find uf x = Ok (rx, uf1) ∧ find uf1 y = Ok (ry, uf') ∧
    root_of (parent uf) x rx ∧ root_of (parent uf) y ry ∧
    connected uf x y = Ok (bool_decide (rx = ry), uf') ∧
    rank uf' = rank uf ∧ dom (parent uf') = dom (parent uf) ∧
    (∀ z r, root_of (parent uf) z r ↔ root_of (parent uf') z r) ∧
    wf uf'.
Proof.
  intros Hwf Hx Hy.
  destruct (find_wf uf x Hwf Hx) as (rx & uf1 & Fx & Rx & Hwf1 & Hr1 & Hd1 & Hroots1).
  assert (y ∈ dom (parent uf1)) as Hy1 by (by rewrite Hd1).
  destruct (find_wf uf1 y Hwf1 Hy1) as (ry & uf2 & Fy & Ry & Hwf2 & Hr2 & Hd2 & Hroots2).
  exists rx, ry, uf1, uf2. split_and!; auto; try congruence.
  - by apply Hroots1.
  - unfold connected. rewrite Fx. simpl. by rewrite Fy.
  - intros z r. rewrite Hroots1. apply Hroots2.
Qed.

(** C7, as the code has it.  [connected(x, y)] returns the truth of
    [find(x) == find(y)]; it keeps the ranks, the elements and the root of
    every element, but not the parent mapping, which [find] compresses. *)
Theorem connected_keeps_sets uf x y :
  wf uf → x ∈ dom (parent uf) → y ∈ dom (parent uf) →
  ∃ rx ry uf1 uf',
    find uf x = Ok (rx, uf1) ∧ find uf1 y = Ok (ry, uf') ∧
    root_of (parent uf) x rx ∧ root_of (parent uf) y ry ∧
    connected uf x y = Ok (bool_decide (rx = ry), uf') ∧
    rank uf' = rank uf ∧ dom (parent uf') = dom (parent uf) ∧
    (∀ z r, root_of (parent uf) z r ↔ root_of (parent uf') z r) ∧
    wf uf'.
Proof. apply connected_effect. Qed.

Lemma find_fixed_point uf x :
  wf uf → x ∈ dom (parent uf) →
  ∃ r uf1 uf2 uf3,
    find uf x = Ok (r, uf1) ∧ find uf1 r = Ok (r, uf2) ∧ find uf2 x = Ok (r, uf3).
Proof.
  intros Hwf Hx.
  destruct (find_wf uf x Hwf Hx) as (r & uf1 & Fx & Rx & Hwf1 & Hr1 & Hd1 & Hroots1).
  assert (r ∈ dom (parent uf1)) as Hr.
  { rewrite Hd1. eapply elem_of_dom_2, root_of_end; eauto. }
  destruct (find_wf uf1 r Hwf1 Hr) as (r' & uf2 & Fr & Rr & Hwf2 & Hr2 & Hd2 & Hroots2).
  assert (r' = r) as ->.
  { eapply root_of_det; [done|]. apply root_of_root, (root_of_end _ x), Hroots1, Rx. }
  assert (x ∈ dom (parent uf2)) as Hx2 by congruence.
  destruct (find_wf uf2 x Hwf2 Hx2) as (r' & uf3 & Fx3 & Rx3 & _).
  assert (r' = r) as ->.
  { eapply root_of_det; [done|]. by apply Hroots2, Hroots1. }
  by exists r, uf1, uf2, uf3.
Qed.

(** C9.  After any sequence of [union] calls on a fresh structure, [find] of
    an element returns a fixed point of [find]: evaluating
    [find(find(x)) == find(x)], the three calls return the same root. *)
Theorem find_idempotent (elements : list node) ops uf x :
  unions (init elements) ops = Ok uf → x ∈ elements →
  ∃ r uf1 uf2 uf3,
    find uf x = Ok (r, uf1) ∧ find uf1 r = Ok (r, uf2) ∧ find uf2 x = Ok (r, uf3).
Proof.
  intros Hrun Hx. destruct (unions_wf _ _ _ (init_wf elements) Hrun) as [Hwf Hd].
  apply find_fixed_point; [done|].
  by rewrite Hd, dom_init_parent, elem_of_list_to_set.
Qed.

End union_find_facts.

Lemma uf_chain_unions :
  UnionFind.unions (UnionFind.init ["A"; "B"; "C"; "D"]) [("A", "B"); ("C", "D"); ("A", "C")]
  = Ok uf_chain.
Proof. vm_compute. reflexivity. Qed.

Lemma connected_rewrites_parent :
  ∃ b uf', UnionFind.connected uf_chain "D" "A" = Ok (b, uf') ∧
           UnionFind.parent uf_chain !! "D" = Some "C" ∧
           UnionFind.parent uf' !! "D" = Some "A".
Proof. eexists _, _. split_and!; vm_compute; reflexivity. Qed.

Lemma union_by_rank_witness :
  UnionFind.wf uf_chain ∧ "D" ∈ dom (UnionFind.parent uf_chain) ∧
  "B" ∈ dom (UnionFind.parent uf_chain) ∧
  ∃ rx ry uf1 uf2 kx ky b uf',
    UnionFind.find uf_chain "D" = Ok (rx, uf1) ∧ UnionFind.find uf1 "B" = Ok (ry, uf2) ∧
    UnionFind.rank uf_chain !! rx = Some kx ∧ UnionFind.rank uf_chain !! ry = Some ky ∧
    UnionFind.union uf_chain "D" "B" = Ok (b, uf') ∧
    (rx = ry → b = false) ∧
    (rx ≠ ry →
       b = true ∧
       ((kx < ky)%nat → UnionFind.parent uf' !! rx = Some ry ∧ UnionFind.rank uf' = UnionFind.rank uf_chain) ∧
       ((ky < kx)%nat → UnionFind.parent uf' !! ry = Some rx ∧ UnionFind.rank uf' = UnionFind.rank uf_chain) ∧
       (kx = ky → UnionFind.parent uf' !! ry = Some rx ∧
                  UnionFind.rank uf' = <[rx := S kx]> (UnionFind.rank uf_chain))).
Proof.
  assert (UnionFind.wf uf_chain) as Hwf by (apply wfb_wf; vm_compute; reflexivity).
  assert ("D" ∈ dom (UnionFind.parent uf_chain)) as HD
    by (by_compute).
  assert ("B" ∈ dom (UnionFind.parent uf_chain)) as HB
    by (by_compute).
  split_and!; [done..|]. exact (union_by_rank uf_chain "D" "B" Hwf HD HB).
Defined.

Lemma find_idempotent_witness :
  UnionFind.unions (UnionFind.init ["A"; "B"; "C"; "D"])
                   [("A", "B"); ("C", "D"); ("A", "C")] = Ok uf_chain ∧
  "D" ∈ ["A"; "B"; "C"; "D"] ∧
  ∃ r uf1 uf2 uf3,
    UnionFind.find uf_chain "D" = Ok (r, uf1) ∧ UnionFind.find uf1 r = Ok (r, uf2) ∧
    UnionFind.find uf2 "D" = Ok (r, uf3).
Proof.
  assert (UnionFind.unions (UnionFind.init ["A"; "B"; "C"; "D"])
            [("A", "B"); ("C", "D"); ("A", "C")] = Ok uf_chain) as Hrun
    by (vm_compute; reflexivity).
  assert ("D" ∈ ["A"; "B"; "C"; "D"]) as HD
    by (by_compute).
  split_and!; [done..|]. exact (find_idempotent _ _ _ _ Hrun HD).
Defined.

Lemma connected_keeps_sets_witness :
  UnionFind.wf uf_chain ∧ "D" ∈ dom (UnionFind.parent uf_chain) ∧
  "A" ∈ dom (UnionFind.parent uf_chain) ∧
  ∃ rx ry uf1 uf',
    UnionFind.find uf_chain "D" = Ok (rx, uf1) ∧ UnionFind.find uf1 "A" = Ok (ry, uf') ∧
    UnionFind.root_of (UnionFind.parent uf_chain) "D" rx ∧
    UnionFind.root_of (UnionFind.parent uf_chain) "A" ry ∧
    UnionFind.connected uf_chain "D" "A" = Ok (bool_decide (rx = ry), uf') ∧
    UnionFind.rank uf' = UnionFind.rank uf_chain ∧
    dom (UnionFind.parent uf') = dom (UnionFind.parent uf_chain) ∧
    (∀ z r, UnionFind.root_of (UnionFind.parent uf_chain) z r ↔
            UnionFind.root_of (UnionFind.parent uf') z r) ∧
    UnionFind.wf uf'.
Proof.
  assert (UnionFind.wf uf_chain) as Hwf by (apply wfb_wf; vm_compute; reflexivity).
  assert ("D" ∈ dom (UnionFind.parent uf_chain)) as HD by by_compute.
  assert ("A" ∈ dom (UnionFind.parent uf_chain)) as HA by by_compute.
  split_and!; [done..|]. exact (connected_keeps_sets uf_chain "D" "A" Hwf HD HA).
Defined.

(** ** Path reconstruction *)

Section reconstruct_facts.
Context {node : Type} `{Countable node}.
Implicit Types (prev : gmap node (option node)) (x y target : node).

Lemma follows_next prev x j z k :
  follows prev x j z → follows prev z (S k) z →
  ∃ y j', prev !! x = Some (Some y) ∧ follows prev y j' z.
Proof.
  intros F C. destruct F as [x|x y j z Hx F].
  - inversion C as [|? y ? ? Hx F]; subst. eauto.
  - eauto.
Qed.

(** A chain that comes back to a node keeps the loop running whatever the
    number of iterations allowed. *)
Lemma reconstruct_loop_cycle prev z k fuel :
  follows prev z (S k) z →
  ∀ x j path, follows prev x j z →
    reconstruct_loop fuel prev path (Some x) = Diverge.
Proof.
  intros C. induction fuel as [|fuel IH]; intros x j path F; [done|].
  destruct (follows_next _ _ _ _ _ F C) as (y & j' & Hx & F').
  simpl. rewrite (subscript_Some _ _ _ Hx). simpl. by eapply IH.
Qed.

Lemma reconstruct_path_revisits prev target fuel :
  revisits prev target → reconstruct_path fuel prev target = Diverge.
Proof. intros (x & j & k & F & C). by eapply reconstruct_loop_cycle. Qed.

Lemma reconstruct_path_absent prev target fuel :
  target ∉ dom prev → reconstruct_path (S fuel) prev target = Raise KeyError.
Proof.
  intros Hx. apply not_elem_of_dom in Hx. unfold reconstruct_path. simpl.
  by rewrite (subscript_None _ _ Hx).
Qed.

(** C4, as the code has it.  When the target is absent from the table, the
    first subscript raises [KeyError].  When the chain from the target comes
    back to a node it has visited, no error is raised and nothing is
    returned: the loop runs for ever. *)
Theorem reconstruct_path_failures prev target :
  (target ∉ dom prev → ∀ fuel, reconstruct_path (S fuel) prev target = Raise KeyError) ∧
  (revisits prev target → ∀ fuel, reconstruct_path fuel prev target = Diverge).
Proof.
  split; intros Hyp fuel.
  - by apply reconstruct_path_absent.
  - by apply reconstruct_path_revisits.
Qed.

End reconstruct_facts.

Lemma prev_cycle_revisits : revisits prev_cycle "A".
Proof.
  exists "A", 0%nat, 1%nat. split; [constructor|].
  apply follows_S with "B"; [reflexivity|].
  apply follows_S with "A"; [reflexivity|]. constructor.
Qed.

Lemma reconstruct_path_failures_witness :
  (("C" ∉ dom prev_cycle) ∧ reconstruct_path 1 prev_cycle "C" = Raise KeyError) ∧
  (revisits prev_cycle "A" ∧ reconstruct_path 5 prev_cycle "A" = Diverge).
Proof.
  assert ("C" ∉ dom prev_cycle) as HC by by_compute.
  pose proof (reconstruct_path_failures prev_cycle "C") as [HK _].
  pose proof (reconstruct_path_failures prev_cycle "A") as [_ HD].
  split; split; [done|by apply HK|apply prev_cycle_revisits|apply HD, prev_cycle_revisits].
Defined.

(** On a cyclic table [reconstruct_path] raises no error, however long it
    runs. *)
Lemma reconstruct_path_cycle_no_error :
  ¬ ∃ fuel e, reconstruct_path fuel prev_cycle "A" = Raise e.
Proof.
  intros (fuel & e & Hr).
  by rewrite (reconstruct_path_revisits _ _ fuel prev_cycle_revisits) in Hr.
Qed.

(** ** Bellman-Ford: the relaxation loops *)

Section bellman_ford_loops.
Context {node : Type} `{Countable node}.
Import BellmanFord.
Implicit Types (g : graph node) (dist : gmap node distance)
  (prev : gmap node (option node)) (edges : list (node * node * Z)).

Lemma edges_in_endpoints g start edges :
  edges_in g start edges = true → endpoints_in ({[start]} ∪ dom g) edges.
Proof.
  unfold edges_in. rewrite forallb_forall. intros Hall u v w Hin.
  apply list_elem_of_In, Hall in Hin.
  by apply andb_true_iff in Hin as [?%bool_decide_eq_true ?%bool_decide_eq_true].
Qed.

Lemma endpoints_in_cons D e edges :
  endpoints_in D (e :: edges) → endpoints_in D edges.
Proof. intros Hin u v w He. apply (Hin u v w). by right. Qed.

Lemma relaxable_ok dist u v w :
  u ∈ dom dist → v ∈ dom dist →
  ∃ b, relaxable dist (u, v, w) = Ok b ∧ (b = true ↔ improves dist (u, v, w)).
Proof.
  intros [du Hu]%elem_of_dom [dv Hv]%elem_of_dom. unfold relaxable, improves. simpl.
  rewrite (subscript_Some _ _ _ Hu). simpl. destruct du as [du|].
  - rewrite (subscript_Some _ _ _ Hv). simpl. eexists; split; [done|]. split.
    + intros Hb. exists du, dv. by rewrite Hb.
    + intros (du' & dv' & E1 & E2 & Hlt). congruence.
  - exists false. split; [done|]. split; [done|].
    intros (du' & dv' & E1 & E2 & Hlt). congruence.
Qed.

Lemma relax_dom dist prev u v w :
  u ∈ dom dist → v ∈ dom dist →
  ∃ dist' prev', relax (dist, prev) (u, v, w) = Ok (dist', prev') ∧
                 dom dist' = dom dist.
Proof.
  intros Hu Hv. destruct (relaxable_ok dist u v w Hu Hv) as (b & Hb & Hiff).
  unfold relax. rewrite Hb. simpl. destruct b; [|by eauto].
  destruct (proj1 Hiff eq_refl) as (du & dv & E1 & E2 & Hlt). simpl in *.
  rewrite (subscript_Some _ _ _ E1). simpl. eexists _, _. split; [done|].
  rewrite dom_insert_L. set_solver.
Qed.

Lemma relax_all_cons e edges (t : gmap node distance * gmap node (option node)) :
  relax_all (e :: edges) t = relax t e ≫= relax_all edges.
Proof. done. Qed.

Lemma passes_S n edges (t : gmap node distance * gmap node (option node)) :
  passes (S n) edges t = relax_all edges t ≫= passes n edges.
Proof. done. Qed.

Lemma relax_all_dom edges dist prev :
  endpoints_in (dom dist) edges →
  ∃ dist' prev', relax_all edges (dist, prev) = Ok (dist', prev') ∧
                 dom dist' = dom dist.
Proof.
  revert dist prev. induction edges as [|[[u v] w] edges IH]; intros dist prev Hin.
  { simpl. eauto. }
  destruct (Hin u v w) as [Hu Hv]; [by left|].
  destruct (relax_dom dist prev u v w Hu Hv) as (d1 & p1 & R & Hd).
  rewrite relax_all_cons, R. simpl.
  destruct (IH d1 p1) as (d2 & p2 & R2 & Hd2).
  { rewrite Hd. by eapply endpoints_in_cons. }
  exists d2, p2. split; [done|congruence].
Qed.

Lemma passes_dom n edges dist prev :
  endpoints_in (dom dist) edges →
  ∃ dist' prev', passes n edges (dist, prev) = Ok (dist', prev') ∧
                 dom dist' = dom dist.
Proof.
  revert dist prev. induction n as [|n IH]; intros dist prev Hin.
  { simpl. eauto. }
  destruct (relax_all_dom edges dist prev Hin) as (d1 & p1 & R & Hd).
  rewrite passes_S, R. simpl.
  destruct (IH d1 p1) as (d2 & p2 & R2 & Hd2); [by rewrite Hd|].
  exists d2, p2. split; [done|congruence].
Qed.

Lemma detect_cons e edges dist :
  detect (e :: edges) dist =
  relaxable dist e ≫= λ b : bool, if b then Ok true else detect edges dist.
Proof. done. Qed.

Lemma detect_iff edges dist :
  endpoints_in (dom dist) edges →
  ∃ b, detect edges dist = Ok b ∧ (b = true ↔ ∃ e, e ∈ edges ∧ improves dist e).
Proof.
  induction edges as [|[[u v] w] edges IH]; intros Hin.
  { exists false. split; [done|]. split; [done|]. intros (e & []%elem_of_nil & _). }
  destruct (Hin u v w) as [Hu Hv]; [by left|].
  destruct (relaxable_ok dist u v w Hu Hv) as (b & Hb & Hiff).
  rewrite detect_cons, Hb. simpl. destruct b.
  - exists true. split; [done|]. split; [|done]. intros _.
    exists (u, v, w). split; [by left|]. by apply Hiff.
  - destruct IH as (b & Hd & Hiff'); [by eapply endpoints_in_cons|].
    exists b. split; [done|]. rewrite Hiff'. split.
    + intros (e & He & Himp). exists e. split; [by right|done].
    + intros (e & [->|He]%elem_of_cons & Himp); [|by eauto].
      by apply Hiff in Himp.
Qed.

Lemma dom_init g start : dom (init g start).1 = {[start]} ∪ dom g.
Proof. unfold init. simpl. by rewrite dom_insert_L, dom_fmap_L. Qed.

Lemma bellman_ford_flag_iff g edges start :
  edges_in g start edges = true →
  ∃ dist prev flag,
    passes (size g - 1) edges (init g start) = Ok (dist, prev) ∧
    bellman_ford g edges start = Ok (dist, prev, flag) ∧
    (flag = true ↔
       ∃ u v w du dv, (u, v, w) ∈ edges ∧ dist !! u = Some (Fin du) ∧
                      dist !! v = Some dv ∧ lt_distance (du + w) dv = true).
Proof.
  intros Hin%edges_in_endpoints. rewrite <- dom_init in Hin.
  destruct (passes_dom (size g - 1) edges _ (init g start).2 Hin) as (dist & prev & P & Hd).
  rewrite <- surjective_pairing in P.
  rewrite <- Hd in Hin. destruct (detect_iff edges dist Hin) as (b & D & Hiff).
  exists dist, prev, b. split; [done|]. split.
  - unfold bellman_ford. rewrite P. simpl. by rewrite D.
  - rewrite Hiff. split.
    + intros ([[u v] w] & He & du & dv & ?). by exists u, v, w, du, dv.
    + intros (u & v & w & du & dv & He & ?). exists (u, v, w). split; [done|].
      by exists du, dv.
Qed.

End bellman_ford_loops.

(** C2.  When every edge joins nodes of the distance table, [bellman_ford]
    returns, and its flag is true exactly when, after the [|V| - 1] passes,
    some edge [(u, v, w)] with [dist[u]] finite has [dist[u] + w < dist[v]].
    On scenario 2 the flag is true. *)
Theorem bellman_ford_flag :
  (∀ (node : Type) `{Countable node} (g : graph node) edges start,
     BellmanFord.edges_in g start edges = true →
     ∃ dist prev flag,
       BellmanFord.passes (size g - 1) edges (BellmanFord.init g start) = Ok (dist, prev) ∧
       BellmanFord.bellman_ford g edges start = Ok (dist, prev, flag) ∧
       (flag = true ↔
          ∃ u v w du dv, (u, v, w) ∈ edges ∧ dist !! u = Some (Fin du) ∧
                         dist !! v = Some dv ∧ lt_distance (du + w) dv = true)) ∧
  ∃ dist prev,
    BellmanFord.bellman_ford neg_cycle_graph neg_cycle_edges "A" = Ok (dist, prev, true).
Proof.
  split; [intros; by apply bellman_ford_flag_iff|].
  eexists _, _. vm_compute. reflexivity.
Qed.

Lemma bellman_ford_flag_witness :
  BellmanFord.edges_in neg_cycle_graph "A" neg_cycle_edges = true ∧
  ∃ dist prev flag,
    BellmanFord.passes (size neg_cycle_graph - 1) neg_cycle_edges
      (BellmanFord.init neg_cycle_graph "A") = Ok (dist, prev) ∧
    BellmanFord.bellman_ford neg_cycle_graph neg_cycle_edges "A" = Ok (dist, prev, flag) ∧
    (flag = true ↔
       ∃ u v w du dv, (u, v, w) ∈ neg_cycle_edges ∧ dist !! u = Some (Fin du) ∧
                      dist !! v = Some dv ∧ lt_distance (du + w) dv = true).
Proof.
  assert (BellmanFord.edges_in neg_cycle_graph "A" neg_cycle_edges = true) as Hin
    by (vm_compute; reflexivity).
  split; [done|].
  exact (proj1 bellman_ford_flag string _ _ neg_cycle_graph neg_cycle_edges "A" Hin).
Defined.

(** ** The priority queue *)

Section heapq_facts.
Context {E : Type} `{EqDecision E} (ltb : E → E → bool).
Implicit Types (h : list E) (x m : E).

Lemma least_elem x h : least ltb x h ∈ x :: h.
Proof.
  revert x. induction h as [|y h IH]; intros x; simpl; [by left|].
  specialize (IH (if ltb y x then y else x)).
  apply elem_of_cons in IH as [->|IH]; [|by do 2 right].
  destruct (ltb y x); [right|]; by left.
Qed.

(** A property of entries that survives each comparison holds of the least
    entry against all others. *)
Lemma least_bound (R : E → E → Prop) x h :
  (∀ a, R a a) → (∀ a b c, R a b → R b c → R a c) →
  (∀ a b, ltb a b = true → R a b) → (∀ a b, ltb a b = false → R b a) →
  ∀ y, y ∈ x :: h → R (least ltb x h) y.
Proof.
  intros Hrefl Htrans Hlt Hge. revert x.
  induction h as [|z h IH]; intros x y Hy; simpl.
  { apply list_elem_of_singleton in Hy as ->. apply Hrefl. }
  destruct (ltb z x) eqn:Hzx.
  - apply elem_of_cons in Hy as [->|Hy]; [|by apply IH].
    apply Htrans with z; [apply IH; by left|by apply Hlt].
  - apply elem_of_cons in Hy as [->|[->|Hy]%elem_of_cons].
    + apply IH. by left.
    + apply Htrans with x; [apply IH; by left|by apply Hge].
    + apply IH. by right.
Qed.

Lemma remove_first_perm x h : x ∈ h → h ≡ₚ x :: remove_first x h.
Proof.
  induction h as [|y h IH]; intros Hx; [by apply elem_of_nil in Hx|].
  simpl. case_decide as E1; [by subst|].
  apply elem_of_cons in Hx as [->|Hx]; [done|].
  rewrite (IH Hx) at 1. apply Permutation_swap.
Qed.

Lemma heappop_None h : heappop ltb h = None ↔ h = [].
Proof. by destruct h. Qed.

Lemma heappop_Some h m h' :
  heappop ltb h = Some (m, h') → m ∈ h ∧ h ≡ₚ m :: h'.
Proof.
  destruct h as [|x h]; [done|]. unfold heappop. intros [= <- <-].
  pose proof (least_elem x h). split; [done|]. by apply remove_first_perm.
Qed.

Lemma heappush_perm h x : heappush h x ≡ₚ x :: h.
Proof. unfold heappush. by rewrite Permutation_app_comm. Qed.

End heapq_facts.

(** The first component of the least pair is least. *)
Lemma pair_least_fst {B} `{EqDecision B} (ltb : B → B → bool) (h : list (Z * B)) m h' :
  heappop (pair_ltb Z.ltb Z.eqb ltb) h = Some (m, h') →
  ∀ y, y ∈ h → m.1 ≤ y.1.
Proof.
  destruct h as [|x h]; [done|]. unfold heappop. intros [= <- _] y Hy.
  apply (least_bound _ (λ a b, a.1 ≤ b.1)); try done.
  - intros. lia.
  - intros a b. unfold pair_ltb. rewrite orb_true_iff, andb_true_iff. lia.
  - intros a b. unfold pair_ltb. rewrite orb_false_iff. lia.
Qed.

(** ** Graphs *)

Section graph_facts.
Context {node : Type} `{Countable node}.
Implicit Types (g : graph node) (s u v x : node) (vis : gset node).

Lemma elem_of_edge_list g u v w :
  (u, v, w) ∈ edge_list g ↔ ∃ nbrs, g !! u = Some nbrs ∧ (v, w) ∈ nbrs.
Proof.
  unfold edge_list. rewrite list_elem_of_bind. split.
  - intros ([u' nbrs] & Hin & Hg). apply elem_of_map_to_list in Hg.
    apply list_elem_of_fmap in Hin as ([v' w'] & [= -> -> ->] & Hin). eauto.
  - intros (nbrs & Hg & Hin). exists (u, nbrs). split.
    + apply list_elem_of_fmap. by exists (v, w).
    + by apply elem_of_map_to_list.
Qed.

Lemma closedb_closed g u nbrs v w :
  closedb g = true → g !! u = Some nbrs → (v, w) ∈ nbrs → v ∈ dom g.
Proof.
  unfold closedb. rewrite forallb_forall. intros Hall Hg Hin.
  assert ((u, v, w) ∈ edge_list g) as He by (apply elem_of_edge_list; eauto).
  apply list_elem_of_In, Hall in He. by apply bool_decide_eq_true in He.
Qed.

Lemma nonnegb_nonneg g u nbrs v w :
  nonnegb g = true → g !! u = Some nbrs → (v, w) ∈ nbrs → 0 ≤ w.
Proof.
  unfold nonnegb. rewrite forallb_forall. intros Hall Hg Hin.
  assert ((u, v, w) ∈ edge_list g) as He by (apply elem_of_edge_list; eauto).
  apply list_elem_of_In, Hall in He. by apply bool_decide_eq_true in He.
Qed.

Lemma sum_list_with_le {A} (f f' : A → nat) (l : list A) :
  (∀ a, f a ≤ f' a)%nat → (sum_list_with f l ≤ sum_list_with f' l)%nat.
Proof. intros Hle. induction l as [|a l IH]; simpl; [done|]. specialize (Hle a). lia. Qed.

Lemma pending_empty g : pending g ∅ = num_edges g.
Proof.
  unfold pending, num_edges. induction (map_to_list g) as [|[u nbrs] l IH]; simpl; [done|].
  rewrite IH. rewrite decide_False; [done|]. apply not_elem_of_empty.
Qed.

(** Visiting [u] takes its edges out of the pending ones. *)
Lemma pending_visit g vis u nbrs :
  g !! u = Some nbrs → u ∉ vis →
  (pending g ({[u]} ∪ vis) + length nbrs ≤ pending g vis)%nat.
Proof.
  intros Hg Hu. unfold pending.
  apply elem_of_map_to_list, list_elem_of_split in Hg as (l1 & l2 & ->).
  rewrite !sum_list_with_app. simpl.
  rewrite decide_True by set_solver. rewrite (decide_False (P := u ∈ vis)) by done.
  set (f' := λ '(u0, nbrs0), if decide (u0 ∈ vis) then 0%nat else length (nbrs0 : list (node * Z))).
  set (f := λ '(u0, nbrs0), if decide (u0 ∈ {[u]} ∪ vis) then 0%nat else length (nbrs0 : list (node * Z))).
  assert (∀ a, f a ≤ f' a)%nat as Hle.
  { intros [u0 n0]. unfold f, f'. repeat case_decide; try lia. set_solver. }
  pose proof (sum_list_with_le f f' l1 Hle). pose proof (sum_list_with_le f f' l2 Hle). lia.
Qed.

Lemma path_reachable g s ns v d : path g s ns v d → reachable g s v.
Proof. intros P. by exists ns, d. Qed.

Lemma reachable_refl g s : reachable g s s.
Proof. exists [s], 0. constructor. Qed.

Lemma reachable_step g s x nbrs v w :
  reachable g s x → g !! x = Some nbrs → (v, w) ∈ nbrs → reachable g s v.
Proof. intros (ns & d & P) Hg Hin. exists (ns ++ [v]), (d + w). by econstructor. Qed.

(** A set that holds the source and is closed under the edges holds every
    reachable node. *)
Lemma reachable_closed g s (P : node → Prop) v :
  P s → (∀ x nbrs y w, P x → g !! x = Some nbrs → (y, w) ∈ nbrs → P y) →
  reachable g s v → P v.
Proof.
  intros Hs Hstep (ns & d & Hp). induction Hp; [done|]. by eapply Hstep.
Qed.

Lemma reachable_dom g s v :
  closedb g = true → s ∈ dom g → reachable g s v → v ∈ dom g.
Proof.
  intros Hc Hs. apply (reachable_closed g s (λ x, x ∈ dom g)); [done|].
  intros x nbrs y w _ Hg Hin. by eapply closedb_closed.
Qed.

End graph_facts.

(** ** Prim *)

Section prim_facts.
Context {node : Type} `{Countable node}.
Variable node_ltb : node → node → bool.
Import Prim.
Implicit Types (g : graph node) (start u v : node) (st : state node).

Lemma elem_of_push_edges u (tree : gset node) nbrs (h : list (Z * node * option node)) e :
  e ∈ push_edges u tree nbrs h ↔
  e ∈ h ∨ ∃ v w, e = (w, v, Some u) ∧ (v, w) ∈ nbrs ∧ v ∉ tree.
Proof.
  revert h. induction nbrs as [|[v w] nbrs IH]; intros h; simpl.
  { split; [by left|]. intros [?|(v & w & _ & Hin & _)]; [done|].
    by apply elem_of_nil in Hin. }
  case_decide as Hv; rewrite IH.
  - unfold heappush. rewrite elem_of_app, list_elem_of_singleton. split.
    + intros [[?| ->]|(v' & w' & ? & ? & ?)]; [by left|right..].
      * exists v, w. split_and!; [done|by left|done].
      * exists v', w'. split_and!; [done|by right|done].
    + intros [?|(v' & w' & -> & Hin & ?)]; [by do 2 left|].
      apply elem_of_cons in Hin as [Heq|?].
      * injection Heq as -> ->. left. by right.
      * right. by exists v', w'.
  - split.
    + intros [?|(v' & w' & ? & ? & ?)]; [by left|right].
      exists v', w'. split_and!; [done|by right|done].
    + intros [?|(v' & w' & -> & Hin & ?)]; [by left|].
      apply elem_of_cons in Hin as [Heq|?].
      * injection Heq as -> ->. done.
      * right. by exists v', w'.
Qed.

Lemma length_push_edges u (tree : gset node) nbrs (h : list (Z * node * option node)) :
  (length (push_edges u tree nbrs h) ≤ length h + length nbrs)%nat.
Proof.
  revert h. induction nbrs as [|[v w] nbrs IH]; intros h; simpl; [lia|].
  case_decide; [|specialize (IH h); lia].
  specialize (IH (heappush h (w, v, Some u))).
  assert (length (heappush h (w, v, Some u)) = S (length h)) as Hl
    by (unfold heappush; rewrite length_app; simpl; lia).
  rewrite Hl in IH. lia.
Qed.

Lemma prim_inv_init g start : inv g start (State ∅ [] [(0, start, None)]).
Proof.
  split; simpl.
  - apply empty_subseteq.
  - intros v Hv. by apply not_elem_of_empty in Hv.
  - intros w v p Hin. apply list_elem_of_singleton in Hin. done.
  - intros w v Hin. apply list_elem_of_singleton in Hin. by injection Hin as _ ->.
  - intros u nbrs v w Hu. by apply not_elem_of_empty in Hu.
  - right. done.
  - constructor.
  - intros v. split; [intros Hv; by apply elem_of_nil in Hv|].
    intros [Hv _]. by apply not_elem_of_empty in Hv.
  - intros a b w Hin. by apply elem_of_nil in Hin.
Qed.

Lemma prim_popped_node g start st weight u parent :
  closedb g = true → start ∈ dom g → inv g start st →
  (weight, u, parent) ∈ heap st →
  u ∈ dom g ∧ reachable g start u.
Proof.
  intros Hc Hs I Hin. destruct parent as [p|].
  - destruct (inv_heap_edge _ _ _ I _ _ _ Hin) as (Hp & nbrs & Hg & Hnb). split.
    + by eapply closedb_closed.
    + eapply reachable_step; [by apply (inv_reach _ _ _ I)|done..].
  - destruct (inv_heap_first _ _ _ I _ _ Hin) as [_ ->]. split; [done|apply reachable_refl].
Qed.

Lemma prim_inv_stale g start st weight u parent heap' :
  inv g start st → heap st ≡ₚ (weight, u, parent) :: heap' → u ∈ in_mst st →
  inv g start (State (in_mst st) (mst_edges st) heap').
Proof.
  intros I Hperm Hu.
  assert (∀ e, e ∈ heap' → e ∈ heap st) as Hsub.
  { intros e He. rewrite Hperm. by right. }
  split; simpl; try by destruct I.
  - intros w v p Hin. by apply (inv_heap_edge _ _ _ I), Hsub.
  - intros w v Hin. by apply (inv_heap_first _ _ _ I w), Hsub.
  - intros x nbrs v w Hx Hg Hnb.
    destruct (inv_frontier _ _ _ I x nbrs v w Hx Hg Hnb) as [?|(w' & p & Hin)]; [by left|].
    rewrite Hperm in Hin. apply elem_of_cons in Hin as [Heq|Hin].
    + injection Heq as -> -> ->. by left.
    + right. eauto.
  - destruct (inv_start _ _ _ I) as [?|(He & _)]; [by left|].
    rewrite He in Hu. by apply not_elem_of_empty in Hu.
Qed.

Lemma prim_inv_visit g start st weight u parent heap' nbrs :
  inv g start st → closedb g = true → start ∈ dom g →
  heap st ≡ₚ (weight, u, parent) :: heap' → u ∉ in_mst st → g !! u = Some nbrs →
  inv g start
    (State ({[u]} ∪ in_mst st)
           (match parent with
            | Some p => mst_edges st ++ [(p, u, weight)]
            | None => mst_edges st
            end)
           (push_edges u ({[u]} ∪ in_mst st) nbrs heap')).
Proof.
  intros I Hc Hs Hperm Hu Hg.
  assert ((weight, u, parent) ∈ heap st) as Hpop by (rewrite Hperm; by left).
  destruct (prim_popped_node _ _ _ _ _ _ Hc Hs I Hpop) as [Hud Hur].
  assert (∀ e, e ∈ heap' → e ∈ heap st) as Hsub.
  { intros e He. rewrite Hperm. by right. }
  assert (in_mst st = ∅ → heap' = []) as Hfirst.
  { intros He. destruct (inv_start _ _ _ I) as [Hin|(_ & _ & Hh)].
    - rewrite He in Hin. by apply not_elem_of_empty in Hin.
    - rewrite Hh in Hperm. symmetry in Hperm.
      apply Permutation_length in Hperm as Hlen. simpl in Hlen.
      destruct heap'; [done|simpl in Hlen; lia]. }
  assert (parent = None → u = start ∧ in_mst st = ∅ ∧ mst_edges st = []) as HNone.
  { intros ->. destruct (inv_heap_first _ _ _ I _ _ Hpop) as [He ->].
    split; [done|]. split; [done|].
    destruct (inv_start _ _ _ I) as [Hin|(_ & ? & _)]; [|done].
    rewrite He in Hin. by apply not_elem_of_empty in Hin. }
  assert (∀ p, parent = Some p → u ≠ start ∧ p ∈ in_mst st ∧
            ∃ nb, g !! p = Some nb ∧ (u, weight) ∈ nb) as HSome.
  { intros p ->. destruct (inv_heap_edge _ _ _ I _ _ _ Hpop) as (Hp & HE).
    split_and!; [|done..]. intros ->.
    destruct (inv_start _ _ _ I) as [?|(He & _)]; [done|].
    rewrite He in Hp. by apply not_elem_of_empty in Hp. }
  split; simpl.
  - pose proof (inv_dom _ _ _ I). set_solver.
  - intros v [->%elem_of_singleton|Hv]%elem_of_union; [done|]. by apply (inv_reach _ _ _ I).
  - intros w v p Hin. apply elem_of_push_edges in Hin as [Hin|(v' & w' & Heq & Hnb & Hv)].
    + destruct (inv_heap_edge _ _ _ I _ _ _ (Hsub _ Hin)) as (Hp & HE).
      split; [set_solver|done].
    + injection Heq as -> -> ->. split; [set_solver|eauto].
  - intros w v Hin. apply elem_of_push_edges in Hin as [Hin|(v' & w' & Heq & _)]; [|done].
    destruct (inv_heap_first _ _ _ I _ _ (Hsub _ Hin)) as [He _].
    rewrite (Hfirst He) in Hin. by apply elem_of_nil in Hin.
  - intros x nb v w Hx Hgx Hnb.
    destruct (decide (v ∈ {[u]} ∪ in_mst st)) as [?|Hv]; [by left|right].
    apply elem_of_union in Hx as [->%elem_of_singleton|Hx].
    + exists w, (Some u). apply elem_of_push_edges. right. exists v, w.
      assert (nb = nbrs) as -> by congruence. done.
    + destruct (inv_frontier _ _ _ I x nb v w Hx Hgx Hnb) as [?|(w' & p & Hin)]; [set_solver|].
      rewrite Hperm in Hin. apply elem_of_cons in Hin as [Heq|Hin].
      * injection Heq as -> -> ->. set_solver.
      * exists w', p. apply elem_of_push_edges. by left.
  - left. destruct (inv_start _ _ _ I) as [?|(_ & _ & Hh)]; [set_solver|].
    rewrite Hh in Hpop. apply list_elem_of_singleton in Hpop. injection Hpop as _ -> _.
    set_solver.
  - destruct parent as [p|]; [|by destruct I].
    unfold targets. rewrite fmap_app. simpl. apply NoDup_app. split; [by destruct I|].
    split; [|apply NoDup_singleton].
    intros x Hx ->%list_elem_of_singleton. apply (inv_targets _ _ _ I) in Hx as [? _]. done.
  - intros v. destruct parent as [p|].
    + destruct (HSome p eq_refl) as (Hne & _).
      unfold targets. rewrite fmap_app, elem_of_app. simpl.
      rewrite list_elem_of_singleton. fold (targets (mst_edges st)).
      rewrite (inv_targets _ _ _ I). set_solver.
    + destruct (HNone eq_refl) as (-> & He & Hm). rewrite Hm, He. simpl.
      split; [intros Hv; by apply elem_of_nil in Hv|]. set_solver.
  - intros a b w Hin. destruct parent as [p|].
    + apply elem_of_app in Hin as [Hin|Hin].
      * destruct (inv_edges _ _ _ I _ _ _ Hin) as [? ?]. split; [set_solver|done].
      * apply list_elem_of_singleton in Hin. injection Hin as -> -> ->.
        destruct (HSome p eq_refl) as (_ & ? & ?). split; [set_solver|done].
    + destruct (inv_edges _ _ _ I _ _ _ Hin) as [? ?]. split; [set_solver|done].
Qed.

(** The loop returns, with every reachable node in the tree. *)
Lemma prim_loop_returns g start fuel st :
  closedb g = true → start ∈ dom g → inv g start st →
  (length (heap st) + pending g (in_mst st) < fuel)%nat →
  ∃ st', loop node_ltb fuel g st = Ok st' ∧ inv g start st' ∧
         ∀ v, reachable g start v → v ∈ in_mst st'.
Proof.
  intros Hc Hs. revert st. induction fuel as [|fuel IH]; intros st I Hm; [lia|].
  simpl. destruct (heappop (entry_ltb node_ltb) (heap st))
    as [[[[weight u] parent] heap']|] eqn:Hpop; cycle 1.
  { apply heappop_None in Hpop. exists st. split; [done|]. split; [done|].
    assert (start ∈ in_mst st) as Hin.
    { destruct (inv_start _ _ _ I) as [?|(_ & _ & Hh)]; [done|congruence]. }
    intros v. apply (reachable_closed g start (λ x, x ∈ in_mst st)); [done|].
    intros x nbrs y w Hx Hg Hnb.
    destruct (inv_frontier _ _ _ I x nbrs y w Hx Hg Hnb) as [?|(w' & p & He)]; [done|].
    rewrite Hpop in He. by apply elem_of_nil in He. }
  apply heappop_Some in Hpop as [Hpop Hperm].
  apply Permutation_length in Hperm as Hlen. simpl in Hlen.
  case_decide as Hsize; cycle 1.
  { exists st. split; [done|]. split; [done|].
    assert (in_mst st = dom g) as ->.
    { apply set_subseteq_size_eq; [by destruct I|]. rewrite size_dom. lia. }
    intros v. by apply reachable_dom. }
  case_decide as Hu.
  - apply IH; [by eapply prim_inv_stale|]. simpl. lia.
  - destruct (prim_popped_node _ _ _ _ _ _ Hc Hs I Hpop) as [[nbrs Hg]%elem_of_dom _].
    rewrite (subscript_Some _ _ _ Hg). simpl.
    apply IH; [by eapply prim_inv_visit|]. simpl.
    pose proof (length_push_edges u ({[u]} ∪ in_mst st) nbrs heap').
    pose proof (pending_visit g (in_mst st) u nbrs Hg Hu). lia.
Qed.

Lemma prim_returns g start :
  closedb g = true → start ∈ dom g →
  ∃ st, prim node_ltb g start = Ok (mst_edges st, sum_weights (mst_edges st)) ∧
        inv g start st ∧ ∀ v, v ∈ in_mst st ↔ reachable g start v.
Proof.
  intros Hc Hs.
  destruct (prim_loop_returns g start (2 + num_edges g) (State ∅ [] [(0, start, None)]) Hc Hs)
    as (st & L & I & Hall).
  { apply prim_inv_init. }
  { simpl. rewrite pending_empty. lia. }
  exists st. split; [|split; [done|]].
  - unfold prim. by rewrite L.
  - intros v. split; [apply (inv_reach _ _ _ I)|apply Hall].
Qed.

Lemma mentions_targets (edges : list (node * node * Z)) v :
  v ∈ targets edges → mentions edges v.
Proof.
  unfold targets. intros ([[a b] w] & -> & Hin)%list_elem_of_fmap.
  exists a, b, w. by auto.
Qed.

(** What [prim] returns on a closed graph, from a start node of the graph. *)
Lemma prim_tree g start :
  closedb g = true → start ∈ dom g →
  ∃ edges (R : gset node),
    prim node_ltb g start = Ok (edges, sum_weights edges) ∧
    (∀ v, v ∈ R ↔ reachable g start v) ∧
    (∀ v, mentions edges v → v ∈ R) ∧
    (∀ v, v ∈ R → v = start ∨ mentions edges v) ∧
    NoDup (targets edges) ∧
    (∀ v, v ∈ targets edges ↔ v ∈ R ∧ v ≠ start) ∧
    S (length edges) = size R ∧
    (∀ a b w, (a, b, w) ∈ edges → ∃ nbrs, g !! a = Some nbrs ∧ (b, w) ∈ nbrs).
Proof.
  intros Hc Hs. destruct (prim_returns g start Hc Hs) as (st & P & I & HR).
  exists (mst_edges st), (in_mst st). split_and!; try done; try by destruct I.
  - intros v (a & b & w & Hin & [->| ->]).
    + by apply (inv_edges _ _ _ I) in Hin as [? _].
    + apply (inv_targets _ _ _ I b). apply list_elem_of_fmap. by exists (a, b, w).
  - intros v Hv. destruct (decide (v = start)) as [?|Hne]; [by left|right].
    by apply mentions_targets, (inv_targets _ _ _ I).
  - assert (start ∈ in_mst st) as Hin by (apply HR, reachable_refl).
    assert (in_mst st = {[start]} ∪ list_to_set (targets (mst_edges st))) as ->.
    { apply set_eq. intros v. rewrite elem_of_union, elem_of_singleton, elem_of_list_to_set.
      rewrite (inv_targets _ _ _ I). destruct (decide (v = start)); naive_solver. }
    rewrite size_union, size_singleton, size_list_to_set by
      (first [by destruct I | intros v ->%elem_of_singleton [_ ?]%elem_of_list_to_set%(inv_targets _ _ _ I); done]).
    unfold targets. by rewrite length_fmap.
  - intros a b w Hin. by apply (inv_edges _ _ _ I) in Hin as [_ ?].
Qed.

(** C10.  The targets of the edges [prim] returns are the reached nodes other
    than the start, each exactly once; there is one edge less than there are
    reachable nodes, and every edge is an edge of the graph that leaves a
    reached node. *)
Theorem prim_tree_shape g start :
  closedb g = true → start ∈ dom g →
  ∃ edges total (R : gset node),
    prim node_ltb g start = Ok (edges, total) ∧
    (∀ v, v ∈ R ↔ reachable g start v) ∧
    NoDup (targets edges) ∧
    (∀ v, v ∈ targets edges ↔ v ∈ R ∧ v ≠ start) ∧
    (start ∉ targets edges) ∧
    S (length edges) = size R ∧
    (∀ a b w, (a, b, w) ∈ edges →
       a ∈ R ∧ ∃ nbrs, g !! a = Some nbrs ∧ (b, w) ∈ nbrs).
Proof.
  intros Hc Hs.
  destruct (prim_tree g start Hc Hs) as (edges & R & P & HR & Hm & _ & Hnd & Ht & Hl & He).
  exists edges, (sum_weights edges), R. split_and!; try done.
  - intros [_ ?]%Ht. done.
  - intros a b w Hin. split; [|by eapply He]. apply Hm. exists a, b, w. by auto.
Qed.

End prim_facts.

(** C8, as the code has it.  On a closed graph and from a start node of the
    graph, [prim] returns; every node its edges mention is reachable from the
    start, and every reachable node other than the start is mentioned.  On
    scenario 4 the only edge joins [A] and [B]. *)
Theorem prim_reaches :
  (∀ (node : Type) `{Countable node} (node_ltb : node → node → bool)
     (g : graph node) (start : node),
     closedb g = true → start ∈ dom g →
     ∃ edges total,
       Prim.prim node_ltb g start = Ok (edges, total) ∧
       (∀ v, Prim.mentions edges v → reachable g start v) ∧
       (∀ v, reachable g start v → v = start ∨ Prim.mentions edges v)) ∧
  Prim.prim String.ltb two_islands "A" = Ok ([("A", "B", 1)], 1).
Proof.
  split; [|vm_compute; reflexivity].
  intros node ? ? node_ltb g start Hc Hs.
  destruct (prim_tree node_ltb g start Hc Hs) as (edges & R & P & HR & Hm & Hall & _).
  exists edges, (sum_weights edges). split_and!; [done|..].
  - intros v Hv. by apply HR, Hm.
  - intros v Hv. by apply Hall, HR.
Qed.

Lemma prim_reaches_witness :
  closedb two_islands = true ∧ "A" ∈ dom two_islands ∧
  ∃ edges total,
    Prim.prim String.ltb two_islands "A" = Ok (edges, total) ∧
    (∀ v, Prim.mentions edges v → reachable two_islands "A" v) ∧
    (∀ v, reachable two_islands "A" v → v = "A" ∨ Prim.mentions edges v).
Proof.
  assert (closedb two_islands = true) as Hc by (vm_compute; reflexivity).
  assert ("A" ∈ dom two_islands) as Hs by by_compute.
  split_and!; [done..|].
  exact (proj1 prim_reaches string _ _ String.ltb two_islands "A" Hc Hs).
Defined.

Lemma prim_tree_shape_witness :
  closedb two_islands = true ∧ "A" ∈ dom two_islands ∧
  ∃ edges total (R : gset string),
    Prim.prim String.ltb two_islands "A" = Ok (edges, total) ∧
    (∀ v, v ∈ R ↔ reachable two_islands "A" v) ∧
    NoDup (Prim.targets edges) ∧
    (∀ v, v ∈ Prim.targets edges ↔ v ∈ R ∧ v ≠ "A") ∧
    ("A" ∉ Prim.targets edges) ∧
    S (length edges) = size R ∧
    (∀ a b w, (a, b, w) ∈ edges →
       a ∈ R ∧ ∃ nbrs, two_islands !! a = Some nbrs ∧ (b, w) ∈ nbrs).
Proof.
  assert (closedb two_islands = true) as Hc by (vm_compute; reflexivity).
  assert ("A" ∈ dom two_islands) as Hs by by_compute.
  split_and!; [done..|].
  exact (prim_tree_shape String.ltb two_islands "A" Hc Hs).
Defined.

(** From a node whose only edge is a loop, [prim] returns no edge: the start
    is reachable, even along an edge, and is not mentioned. *)
Lemma prim_start_not_mentioned :
  ∃ edges total,
    Prim.prim String.ltb self_loop "A" = Ok (edges, total) ∧
    path self_loop "A" ["A"; "A"] "A" 1 ∧
    reachable self_loop "A" "A" ∧
    ¬ Prim.mentions edges "A".
Proof.
  exists [], 0. split_and!.
  - vm_compute. reflexivity.
  - apply (path_step self_loop "A" ["A"] "A" 0 [("A", 1)] "A" 1);
      [constructor|reflexivity|by left].
  - apply reachable_refl.
  - intros (a & b & w & Hin & _). by apply elem_of_nil in Hin.
Qed.

(** ** Paths *)

Section path_facts.
Context {node : Type} `{Countable node}.
Implicit Types (g : graph node) (s u v x : node) (ns : list node).

Lemma path_nonneg g s ns v d : nonnegb g = true → path g s ns v d → 0 ≤ d.
Proof.
  intros Hn P. induction P as [|ns x d nbrs v w P IH Hg Hin]; [done|].
  pose proof (nonnegb_nonneg _ _ _ _ _ Hn Hg Hin). lia.
Qed.

(** Every node of a path is the end of a prefix of it, which on non-negative
    weights is not heavier. *)
Lemma path_prefix g s ns v d x :
  nonnegb g = true → path g s ns v d → x ∈ ns →
  ∃ ns' d', path g s ns' x d' ∧ ns' `prefix_of` ns ∧ d' ≤ d.
Proof.
  intros Hn P. induction P as [|ns y d nbrs v w P IH Hg Hin]; intros Hx.
  - apply list_elem_of_singleton in Hx as ->. exists [s], 0. split; [constructor|done].
  - pose proof (nonnegb_nonneg _ _ _ _ _ Hn Hg Hin).
    apply elem_of_app in Hx as [Hx|Hx].
    + destruct (IH Hx) as (ns' & d' & P' & Hpre & Hle). exists ns', d'.
      split; [done|]. split; [by apply prefix_app_r|lia].
    + apply list_elem_of_singleton in Hx as ->. exists (ns ++ [v]), (d + w).
      split; [by econstructor|done].
Qed.

(** On non-negative weights a path can be cut down to a simple one. *)
Lemma path_simple g s ns v d :
  nonnegb g = true → path g s ns v d →
  ∃ ns' d', path g s ns' v d' ∧ NoDup ns' ∧ d' ≤ d.
Proof.
  intros Hn P. induction P as [|ns y d nbrs v w P IH Hg Hin].
  - exists [s], 0. split; [constructor|]. split; [apply NoDup_singleton|done].
  - destruct IH as (ns' & d' & P' & Hnd & Hle).
    pose proof (nonnegb_nonneg _ _ _ _ _ Hn Hg Hin).
    destruct (decide (v ∈ ns')) as [Hv|Hv].
    + destruct (path_prefix _ _ _ _ _ _ Hn P' Hv) as (ns2 & d2 & P2 & [k ->] & Hle2).
      exists ns2, d2. split; [done|]. split; [by apply NoDup_app in Hnd as [? _]|lia].
    + exists (ns' ++ [v]), (d' + w). split; [by econstructor|]. split; [|lia].
      apply NoDup_app. split; [done|]. split; [|apply NoDup_singleton].
      intros z Hz ->%list_elem_of_singleton. done.
Qed.

Lemma path_nodes_dom g s ns v d x :
  closedb g = true → s ∈ dom g → path g s ns v d → x ∈ ns → x ∈ dom g.
Proof.
  intros Hc Hs P. induction P as [|ns y d nbrs v w P IH Hg Hin]; intros Hx.
  - by apply list_elem_of_singleton in Hx as ->.
  - apply elem_of_app in Hx as [Hx|Hx]; [by apply IH|].
    apply list_elem_of_singleton in Hx as ->. by eapply closedb_closed.
Qed.

(** A bound that holds of every path holds of the simple ones, and
    conversely on non-negative weights: the least weight of a path is that of
    a simple path. *)
Lemma shortest_intro g s v d ns :
  nonnegb g = true → path g s ns v d →
  (∀ ns' d', path g s ns' v d' → d ≤ d') → shortest g s v d.
Proof.
  intros Hn P Hlow. destruct (path_simple _ _ _ _ _ Hn P) as (ns' & d' & P' & Hnd & Hle).
  assert (d' = d) as -> by (specialize (Hlow _ _ P'); lia).
  split; [by exists ns'|]. intros ns2 d2 P2 _. by eapply Hlow.
Qed.

Lemma shortest_lower g s v d ns' d' :
  nonnegb g = true → shortest g s v d → path g s ns' v d' → d ≤ d'.
Proof.
  intros Hn [_ Hlow] P. destruct (path_simple _ _ _ _ _ Hn P) as (ns2 & d2 & P2 & Hnd & Hle).
  specialize (Hlow _ _ P2 Hnd). lia.
Qed.

Lemma shortest_unique g s v d d' : shortest g s v d → shortest g s v d' → d = d'.
Proof.
  intros [(ns & P & Hnd) Hlow] [(ns' & P' & Hnd') Hlow'].
  specialize (Hlow _ _ P' Hnd'). specialize (Hlow' _ _ P Hnd). lia.
Qed.

End path_facts.

(** ** Dijkstra *)

Section dijkstra_facts.
Context {node : Type} `{Countable node}.
Variable node_ltb : node → node → bool.
Import Dijkstra.
Implicit Types (g : graph node) (start u v x y : node) (st : state node)
  (E : node → node → Z → Prop).

Lemma dijkstra_inv_weaken g start E E' st :
  (∀ x v w, E' x v w → E x v w) → inv g start E st → inv g start E' st.
Proof. intros HE I. destruct I. split; eauto. Qed.

Lemma dijkstra_inv_init g start :
  start ∈ dom g → inv g start (edges_from g ∅) (init g start).
Proof.
  intros Hs. split; simpl.
  - rewrite dom_insert_L, dom_fmap_L. set_solver.
  - by rewrite dom_fmap_L.
  - apply empty_subseteq.
  - intros v Hv. destruct (decide (v = start)) as [->|Hne].
    + by rewrite lookup_insert_eq in Hv.
    + rewrite lookup_insert_ne, lookup_fmap in Hv by done. rewrite lookup_fmap.
      destruct (g !! v); by simplify_eq/=.
  - intros u Hu. by apply not_elem_of_empty in Hu.
  - intros v d Hv. destruct (decide (v = start)) as [->|Hne].
    + rewrite lookup_insert_eq in Hv. injection Hv as <-. exists [start]. constructor.
    + rewrite lookup_insert_ne, lookup_fmap in Hv by done.
      destruct (g !! v); by simplify_eq/=.
  - intros v d _ Hv. destruct (decide (v = start)) as [->|Hne].
    + rewrite lookup_insert_eq in Hv. injection Hv as <-. by left.
    + rewrite lookup_insert_ne, lookup_fmap in Hv by done.
      destruct (g !! v); by simplify_eq/=.
  - intros d v Hin. apply list_elem_of_singleton in Hin. injection Hin as -> ->.
    split; [done|]. exists 0. by rewrite lookup_insert_eq.
  - intros x v w dx [Hx _]. by apply not_elem_of_empty in Hx.
  - exists 0. by rewrite lookup_insert_eq.
Qed.

(** Every path meets the frontier unless it ends at a visited node. *)
Lemma path_frontier g start st ns v d :
  nonnegb g = true → inv g start (edges_from g (visited st)) st →
  path g start ns v d →
  v ∈ visited st ∨
  ∃ y dy, (y ∉ visited st) ∧ dist st !! y = Some (Fin dy) ∧ dy ≤ d.
Proof.
  intros Hn I P. induction P as [|ns x d nbrs v w P IH Hg Hin].
  - destruct (decide (start ∈ visited st)) as [?|Hs]; [by left|right].
    destruct (inv_start _ _ _ _ I) as (ds & ? & ?). by exists start, ds.
  - pose proof (nonnegb_nonneg _ _ _ _ _ Hn Hg Hin).
    destruct (decide (v ∈ visited st)) as [?|Hv]; [by left|right].
    destruct IH as [Hx|(y & dy & Hy & Hdy & Hle)].
    + destruct (inv_final _ _ _ _ I x Hx) as (dx & Hdx & Hlow).
      destruct (inv_relaxed _ _ _ _ I x v w dx) as (dv & Hdv & Hle); [by split; eauto|done|].
      exists v, dv. split_and!; [done..|]. specialize (Hlow _ _ P). lia.
    + exists y, dy. split_and!; [done..|]. lia.
Qed.

(** An edge whose target is already within reach of its source. *)
Lemma dijkstra_inv_keep g start E st u du v w :
  inv g start E st → dist st !! u = Some (Fin du) →
  (∃ dv, dist st !! v = Some (Fin dv) ∧ dv ≤ du + w) →
  inv g start (λ x y w', E x y w' ∨ (x = u ∧ y = v ∧ w' = w)) st.
Proof.
  intros I Hu Hv. destruct I. split; try done.
  intros x y w' dx [HE|(-> & -> & ->)] Hx; [by eauto|].
  assert (dx = du) as -> by congruence. done.
Qed.

(** The three assignments of a successful relaxation. *)
Lemma dijkstra_inv_update g start E st u du v w nbrs dv :
  inv g start E st → (∀ x y w', E x y w' → x ∈ visited st) →
  u ∈ visited st → v ∉ visited st → dist st !! u = Some (Fin du) →
  g !! u = Some nbrs → (v, w) ∈ nbrs → v ∈ dom g →
  dist st !! v = Some dv → lt_distance (du + w) dv = true →
  inv g start (λ x y w', E x y w' ∨ (x = u ∧ y = v ∧ w' = w))
    (State (<[v := Fin (du + w)]> (dist st)) (<[v := Some u]> (prev st))
           (heappush (heap st) (du + w, v)) (visited st)).
Proof.
  intros I HE Hu Hv Hdu Hg Hin Hvd Hdv Hlt.
  assert (u ≠ v) as Huv by (intros ->; done).
  assert (∀ d, dv = Fin d → du + w < d) as Hless.
  { intros d ->. simpl in Hlt. by apply bool_decide_eq_true in Hlt. }
  assert (∀ y d, dist st !! y = Some (Fin d) →
            ∃ d', <[v := Fin (du + w)]> (dist st) !! y = Some (Fin d') ∧ d' ≤ d) as Hdec.
  { intros y d Hy. destruct (decide (y = v)) as [->|Hne].
    - rewrite lookup_insert_eq. eexists; split; [done|].
      assert (dv = Fin d) as Hd by congruence. specialize (Hless _ Hd). lia.
    - rewrite lookup_insert_ne by done. eauto with lia. }
  split; simpl.
  - rewrite dom_insert_L, (inv_dom_dist _ _ _ _ I). set_solver.
  - rewrite dom_insert_L, (inv_dom_prev _ _ _ _ I). set_solver.
  - by destruct I.
  - intros y Hy. destruct (decide (y = v)) as [->|Hne].
    + by rewrite lookup_insert_eq in Hy.
    + rewrite lookup_insert_ne in Hy by done. rewrite lookup_insert_ne by done.
      by apply (inv_unset _ _ _ _ I).
  - intros y Hy. assert (y ≠ v) by (intros ->; done).
    rewrite lookup_insert_ne by done. by apply (inv_final _ _ _ _ I).
  - intros y d Hy. destruct (decide (y = v)) as [->|Hne].
    + rewrite lookup_insert_eq in Hy. injection Hy as <-.
      destruct (inv_path _ _ _ _ I u du Hdu) as [ns P].
      exists (ns ++ [v]). by econstructor.
    + rewrite lookup_insert_ne in Hy by done. by apply (inv_path _ _ _ _ I).
  - intros y d Hy Hyd. unfold heappush. apply elem_of_app.
    destruct (decide (y = v)) as [->|Hne].
    + rewrite lookup_insert_eq in Hyd. injection Hyd as <-. right. by left.
    + rewrite lookup_insert_ne in Hyd by done. left. by apply (inv_queued _ _ _ _ I).
  - intros d y Hy. unfold heappush in Hy. apply elem_of_app in Hy as [Hy|Hy].
    + destruct (inv_heap _ _ _ _ I d y Hy) as (? & d' & Hd' & ?). split; [done|].
      destruct (Hdec y d' Hd') as (d2 & ? & ?). exists d2. split; [done|lia].
    + apply list_elem_of_singleton in Hy. injection Hy as -> ->. split; [done|].
      exists (du + w). by rewrite lookup_insert_eq.
  - intros x y w' dx HE' Hx.
    assert (x ≠ v) as Hxv.
    { intros ->. destruct HE' as [HE'|(-> & _)]; [|done]. by apply HE in HE'. }
    rewrite lookup_insert_ne in Hx by done.
    destruct HE' as [HE'|(-> & -> & ->)].
    + destruct (inv_relaxed _ _ _ _ I x y w' dx HE' Hx) as (dy & Hdy & ?).
      destruct (Hdec y dy Hdy) as (d2 & ? & ?). exists d2. split; [done|lia].
    + assert (dx = du) as -> by congruence. exists (du + w).
      by rewrite lookup_insert_eq.
  - destruct (inv_start _ _ _ _ I) as (ds & Hds & ?).
    destruct (Hdec start ds Hds) as (d2 & ? & ?). exists d2. split; [done|lia].
Qed.

Lemma relaxing_sources g vis u done x v w :
  u ∈ vis → relaxing g vis u done x v w → x ∈ vis.
Proof. intros Hu [[_ [? _]]|[-> _]]; done. Qed.

Lemma relaxing_snoc g vis u done v w x y w' :
  relaxing g vis u (done ++ [(v, w)]) x y w' →
  relaxing g vis u done x y w' ∨ (x = u ∧ y = v ∧ w' = w).
Proof.
  intros [?|[-> Hin]]; [left; by left|].
  apply elem_of_app in Hin as [?|Hin]; [left; by right|].
  apply list_elem_of_singleton in Hin. injection Hin as -> ->. by right.
Qed.

(** Step 4 keeps the invariant and relaxes every edge of [u]. *)
Lemma relax_edges_inv g start u du todo :
  ∀ done st,
    closedb g = true → g !! u = Some (done ++ todo) →
    u ∈ visited st → dist st !! u = Some (Fin du) →
    inv g start (relaxing g (visited st) u done) st →
    ∃ st', relax_edges du u todo st = Ok st' ∧
           inv g start (relaxing g (visited st) u (done ++ todo)) st' ∧
           visited st' = visited st ∧
           (length (heap st') ≤ length (heap st) + length todo)%nat.
Proof.
  induction todo as [|[v w] todo IH]; intros done st Hc Hg Hu Hdu I.
  { exists st. rewrite app_nil_r. simpl. split_and!; [done..|lia]. }
  assert (g !! u = Some ((done ++ [(v, w)]) ++ todo)) as Hg'.
  { by rewrite <- app_assoc. }
  assert ((v, w) ∈ done ++ (v, w) :: todo) as Hin.
  { apply elem_of_app. right. by left. }
  assert (v ∈ dom g) as Hvd by exact (closedb_closed _ _ _ _ _ Hc Hg Hin).
  assert (is_Some (dist st !! v)) as [dv Hdv].
  { apply elem_of_dom. by rewrite (inv_dom_dist _ _ _ _ I). }
  assert (∀ st1, dist st1 !! u = Some (Fin du) → visited st1 = visited st →
            (length (heap st1) ≤ S (length (heap st)))%nat →
            inv g start (λ x y w', relaxing g (visited st) u done x y w' ∨
                                    (x = u ∧ y = v ∧ w' = w)) st1 →
            ∃ st', relax_edges du u todo st1 = Ok st' ∧
                   inv g start (relaxing g (visited st) u (done ++ (v, w) :: todo)) st' ∧
                   visited st' = visited st ∧
                   (length (heap st') ≤ length (heap st) + S (length todo))%nat) as Hnext.
  { intros st1 Hdu1 Hvis1 Hlen1 I1.
    destruct (IH (done ++ [(v, w)]) st1) as (st' & R & I' & Hvis' & Hlen'); try done.
    - by rewrite Hvis1.
    - rewrite Hvis1. eapply dijkstra_inv_weaken; [|done]. intros x y w'. apply relaxing_snoc.
    - exists st'. rewrite <- app_assoc in I'. rewrite Hvis1 in I'.
      split_and!; [done..|congruence|lia]. }
  simpl. case_decide as Hv.
  - apply Hnext; [done..|lia|]. apply dijkstra_inv_keep with du; [done..|].
    destruct (inv_final _ _ _ _ I v Hv) as (dv' & Hdv' & Hlow).
    destruct (inv_path _ _ _ _ I u du Hdu) as [ns P].
    exists dv'. split; [done|]. apply (Hlow (ns ++ [v])).
    exact (path_step _ _ _ _ _ _ _ _ P Hg Hin).
  - rewrite (subscript_Some _ _ _ Hdv). simpl.
    destruct (lt_distance (du + w) dv) eqn:Hlt.
    + apply Hnext; simpl.
      * rewrite lookup_insert_ne; [done|]. intros ->. done.
      * done.
      * unfold heappush. rewrite length_app. simpl. lia.
      * apply (dijkstra_inv_update g start _ st u du v w (done ++ (v, w) :: todo) dv); try done.
        intros x y w'. by apply relaxing_sources.
    + apply Hnext; [done..|lia|]. apply dijkstra_inv_keep with du; [done..|].
      destruct dv as [dv|]; [|done]. exists dv. split; [done|].
      simpl in Hlt. apply bool_decide_eq_false in Hlt. lia.
Qed.

Lemma dijkstra_inv_pop_stale g start st d u heap' :
  inv g start (edges_from g (visited st)) st →
  heap st ≡ₚ (d, u) :: heap' → u ∈ visited st →
  inv g start (edges_from g (visited st)) (State (dist st) (prev st) heap' (visited st)).
Proof.
  intros I Hperm Hu. destruct I. split; simpl; try done.
  - intros v dv Hv Hdv. specialize (inv_queued0 v dv Hv Hdv).
    rewrite Hperm in inv_queued0. apply elem_of_cons in inv_queued0 as [Heq|?]; [|done].
    injection Heq as -> ->. done.
  - intros d' v Hin. apply inv_heap0. rewrite Hperm. by right.
Qed.

(** Extracting the least entry, for a node not yet visited, finalises it. *)
Lemma dijkstra_inv_pop_visit g start st d u heap' :
  nonnegb g = true → inv g start (edges_from g (visited st)) st →
  heappop (entry_ltb node_ltb) (heap st) = Some ((d, u), heap') → u ∉ visited st →
  u ∈ dom g ∧ dist st !! u = Some (Fin d) ∧
  inv g start (relaxing g ({[u]} ∪ visited st) u [])
      (State (dist st) (prev st) heap' ({[u]} ∪ visited st)).
Proof.
  intros Hn I Hpop Hu.
  pose proof (pair_least_fst _ _ _ _ Hpop) as Hmin.
  apply heappop_Some in Hpop as [Hin Hperm].
  destruct (inv_heap _ _ _ _ I d u Hin) as (Hud & d' & Hd' & Hle).
  pose proof (Hmin _ (inv_queued _ _ _ _ I u d' Hu Hd')) as Hge. simpl in Hge.
  assert (d' = d) as -> by lia.
  split; [done|]. split; [done|]. split; simpl; try by destruct I.
  - pose proof (inv_visited _ _ _ _ I). set_solver.
  - intros x [->%elem_of_singleton|Hx]%elem_of_union; [|by apply (inv_final _ _ _ _ I)].
    exists d. split; [done|]. intros ns dp P.
    destruct (path_frontier g start st ns u dp Hn I P) as [?|(y & dy & Hy & Hdy & Hle')];
      [done|].
    pose proof (Hmin _ (inv_queued _ _ _ _ I y dy Hy Hdy)) as Hge'. simpl in Hge'. lia.
  - intros v dv Hv Hdv.
    assert (v ≠ u) by set_solver. assert (v ∉ visited st) as Hv' by set_solver.
    pose proof (inv_queued _ _ _ _ I v dv Hv' Hdv) as Hq.
    rewrite Hperm in Hq. apply elem_of_cons in Hq as [Heq|?]; [|done].
    by injection Heq as -> ->.
  - intros d' v Hq. apply (inv_heap _ _ _ _ I). rewrite Hperm. by right.
  - intros x v w dx [[Hne [Hx HE]]|[_ Hnil]] Hdx; [|by apply elem_of_nil in Hnil].
    apply (inv_relaxed _ _ _ _ I x v w dx); [|done]. split; [set_solver|done].
Qed.

(** The loop returns; its tables hold the least path weights. *)
Lemma dijkstra_loop_returns g start fuel st :
  closedb g = true → nonnegb g = true →
  inv g start (edges_from g (visited st)) st →
  (length (heap st) + pending g (visited st) < fuel)%nat →
  ∃ dist prev,
    loop node_ltb fuel g st = Ok (dist, prev) ∧
    dom dist = dom g ∧
    (∀ v, dist !! v = Some Inf → prev !! v = Some None) ∧
    (∀ v d, dist !! v = Some (Fin d) → ∃ ns, path g start ns v d) ∧
    (∀ v ns d, path g start ns v d → ∃ dv, dist !! v = Some (Fin dv) ∧ dv ≤ d).
Proof.
  intros Hc Hn. revert st. induction fuel as [|fuel IH]; intros st I Hm; [lia|].
  simpl. destruct (heappop (entry_ltb node_ltb) (heap st)) as [[[d u] heap']|] eqn:Hpop;
    cycle 1.
  { apply heappop_None in Hpop. exists (dist st), (prev st).
    split_and!; [done|by destruct I..|].
    intros v ns d P.
    destruct (path_frontier g start st ns v d Hn I P) as [Hv|(y & dy & Hy & Hdy & Hle)].
    - destruct (inv_final _ _ _ _ I v Hv) as (dv & Hdv & Hlow). exists dv. eauto.
    - pose proof (inv_queued _ _ _ _ I y dy Hy Hdy) as Hq. rewrite Hpop in Hq.
      by apply elem_of_nil in Hq. }
  case_decide as Hu.
  - apply heappop_Some in Hpop as [Hin Hperm].
    apply Permutation_length in Hperm as Hlen. simpl in Hlen.
    apply (IH (State (dist st) (prev st) heap' (visited st))).
    + exact (dijkstra_inv_pop_stale g start st d u heap' I Hperm Hu).
    + simpl. lia.
  - destruct (dijkstra_inv_pop_visit g start st d u heap' Hn I Hpop Hu) as ([nbrs Hg]%elem_of_dom & Hd & I1).
    apply heappop_Some in Hpop as [Hin Hperm].
    apply Permutation_length in Hperm as Hlen. simpl in Hlen.
    rewrite (subscript_Some _ _ _ Hg). simpl.
    destruct (relax_edges_inv g start u d nbrs []
                (State (dist st) (prev st) heap' ({[u]} ∪ visited st)))
      as (st' & R & I' & Hvis & Hlen'); simpl; try done.
    { set_solver. }
    rewrite R. simpl. simpl in *. apply IH.
    + rewrite Hvis. eapply dijkstra_inv_weaken; [|exact I'].
      intros x v w [Hx (nb & Hgx & Hnb)]. destruct (decide (x = u)) as [->|Hne].
      * right. split; [done|]. congruence.
      * left. split; [done|]. split; eauto.
    + rewrite Hvis. pose proof (pending_visit g (visited st) u nbrs Hg Hu). lia.
Qed.

(** What [dijkstra] returns on a closed graph with non-negative weights. *)
Lemma dijkstra_tables g start :
  closedb g = true → nonnegb g = true → start ∈ dom g →
  ∃ dist prev,
    dijkstra node_ltb g start = Ok (dist, prev) ∧
    dom dist = dom g ∧
    (∀ v, reachable g start v → ∃ d, dist !! v = Some (Fin d) ∧ shortest g start v d) ∧
    (∀ v, v ∈ dom g → ¬ reachable g start v →
          dist !! v = Some Inf ∧ prev !! v = Some None).
Proof.
  intros Hc Hn Hs.
  destruct (dijkstra_loop_returns g start (2 + num_edges g) (init g start) Hc Hn)
    as (dist & prev & L & Hdom & Hunset & Hpath & Hlow).
  { by apply dijkstra_inv_init. }
  { simpl. rewrite pending_empty. lia. }
  exists dist, prev. split_and!; [done..| |].
  - intros v (ns & d & P). destruct (Hlow v ns d P) as (dv & Hdv & _).
    exists dv. split; [done|]. destruct (Hpath v dv Hdv) as [ns0 P0].
    apply (shortest_intro g start v dv ns0 Hn P0).
    intros ns' d' P'. destruct (Hlow v ns' d' P') as (dv' & Hdv' & ?).
    assert (dv' = dv) as -> by congruence. done.
  - intros v Hv Hnr.
    assert (is_Some (dist !! v)) as [[d|] Hd] by (apply elem_of_dom; by rewrite Hdom).
    + destruct Hnr. destruct (Hpath v d Hd) as [ns P]. by exists ns, d.
    + split; [done|]. by apply Hunset.
Qed.

(** C1.  On a graph with non-negative weights, [dijkstra] maps every node
    reachable from the source to the least weight of a simple path from the
    source to it, and every other node of the graph to the infinity sentinel,
    with [None] as its predecessor. *)
Theorem dijkstra_shortest g start :
  closedb g = true → nonnegb g = true → start ∈ dom g →
  ∃ dist prev,
    dijkstra node_ltb g start = Ok (dist, prev) ∧
    (∀ v, reachable g start v → ∃ d, dist !! v = Some (Fin d) ∧ shortest g start v d) ∧
    (∀ v, v ∈ dom g → ¬ reachable g start v →
          dist !! v = Some Inf ∧ prev !! v = Some None).
Proof.
  intros Hc Hn Hs.
  destruct (dijkstra_tables g start Hc Hn Hs) as (dist & prev & D & _ & Hr & Hu).
  by exists dist, prev.
Qed.

End dijkstra_facts.

Lemma dijkstra_shortest_witness :
  closedb triangle = true ∧ nonnegb triangle = true ∧ "A" ∈ dom triangle ∧
  ∃ dist prev,
    Dijkstra.dijkstra String.ltb triangle "A" = Ok (dist, prev) ∧
    (∀ v, reachable triangle "A" v →
          ∃ d, dist !! v = Some (Fin d) ∧ shortest triangle "A" v d) ∧
    (∀ v, v ∈ dom triangle → ¬ reachable triangle "A" v →
          dist !! v = Some Inf ∧ prev !! v = Some None).
Proof.
  assert (closedb triangle = true) as Hc by (vm_compute; reflexivity).
  assert (nonnegb triangle = true) as Hn by (vm_compute; reflexivity).
  assert ("A" ∈ dom triangle) as Hs by by_compute.
  split_and!; [done..|].
  exact (dijkstra_shortest String.ltb triangle "A" Hc Hn Hs).
Defined.

(** Scenario 1: distances 0, 1 and 3. *)
Example dijkstra_triangle :
  ∃ prev, Dijkstra.dijkstra String.ltb triangle "A"
          = Ok (<["A" := Fin 0]> (<["B" := Fin 1]> (<["C" := Fin 3]> ∅)), prev).
Proof. eexists. vm_compute. reflexivity. Qed.

(** ** Bellman-Ford on non-negative weights *)

Section bellman_ford_facts.
Context {node : Type} `{Countable node}.
Variable node_ltb : node → node → bool.
Import BellmanFord.
Implicit Types (g : graph node) (start u v x y : node)
  (dist : gmap node distance) (prev : gmap node (option node))
  (edges : list (node * node * Z)).

Lemma below_refl dist : below dist dist.
Proof. intros y d Hy. exists d. split; [done|lia]. Qed.

Lemma below_trans dist1 dist2 dist3 :
  below dist1 dist2 → below dist2 dist3 → below dist1 dist3.
Proof.
  intros H12 H23 y d Hy. destruct (H12 y d Hy) as (d2 & Hy2 & ?).
  destruct (H23 y d2 Hy2) as (d3 & Hy3 & ?). exists d3. split; [done|lia].
Qed.

Lemma relax_step g start dist prev u v w nbrs :
  closedb g = true → dom dist = dom g → achieved g start dist →
  g !! u = Some nbrs → (v, w) ∈ nbrs →
  ∃ dist' prev',
    relax (dist, prev) (u, v, w) = Ok (dist', prev') ∧
    dom dist' = dom g ∧ achieved g start dist' ∧ below dist dist' ∧
    settled [(u, v, w)] dist dist'.
Proof.
  intros Hc Hdom Hach Hg Hin.
  assert (u ∈ dom dist) as Hu by (rewrite Hdom; by eapply elem_of_dom_2).
  assert (v ∈ dom dist) as Hv by (rewrite Hdom; exact (closedb_closed _ _ _ _ _ Hc Hg Hin)).
  destruct (relaxable_ok dist u v w Hu Hv) as (b & Hb & Hiff).
  unfold relax. rewrite Hb. simpl. destruct b.
  - destruct (proj1 Hiff eq_refl) as (du & dv & Hdu & Hdv & Hlt). simpl in *.
    rewrite (subscript_Some _ _ _ Hdu). simpl. eexists _, _. split; [done|].
    assert (below dist (<[v := Fin (du + w)]> dist)) as Hbelow.
    { intros y d Hy. destruct (decide (y = v)) as [->|Hne].
      - rewrite lookup_insert_eq. eexists; split; [done|].
        assert (dv = Fin d) as -> by congruence. simpl in Hlt.
        apply bool_decide_eq_true in Hlt. lia.
      - rewrite lookup_insert_ne by done. exists d. split; [done|lia]. }
    split_and!; [|  |done|].
    + rewrite dom_insert_L. set_solver.
    + intros y d Hy. destruct (decide (y = v)) as [->|Hne].
      * rewrite lookup_insert_eq in Hy. injection Hy as <-.
        destruct (Hach u du Hdu) as [ns P]. exists (ns ++ [v]).
        exact (path_step _ _ _ _ _ _ _ _ P Hg Hin).
      * rewrite lookup_insert_ne in Hy by done. by apply Hach.
    + intros u' v' w' du' Hin' Hdu'. apply list_elem_of_singleton in Hin'.
      injection Hin' as -> -> ->. assert (du' = du) as -> by congruence.
      exists (du + w). rewrite lookup_insert_eq. split; [done|lia].
  - exists dist, prev. split_and!; [done..|apply below_refl|].
    intros u' v' w' du' Hin' Hdu'. apply list_elem_of_singleton in Hin'.
    injection Hin' as -> -> ->.
    apply elem_of_dom in Hv as [dv Hdv]. destruct dv as [dv|].
    + exists dv. split; [done|].
      destruct (decide (du' + w < dv)) as [Hlt|?]; [|lia].
      assert (false = true); [|done]. apply Hiff. exists du', (Fin dv).
      simpl. split_and!; [done..|]. by apply bool_decide_eq_true.
    + assert (false = true); [|done]. apply Hiff. by exists du', Inf.
Qed.

(** One pass relaxes every edge, from the table it started with. *)
Lemma relax_all_pass g start edges :
  ∀ dist prev,
    closedb g = true → graph_edges g edges →
    dom dist = dom g → achieved g start dist →
    ∃ dist' prev',
      relax_all edges (dist, prev) = Ok (dist', prev') ∧
      dom dist' = dom g ∧ achieved g start dist' ∧ below dist dist' ∧
      settled edges dist dist'.
Proof.
  induction edges as [|[[u v] w] edges IH]; intros dist prev Hc Hge Hdom Hach.
  { exists dist, prev. split_and!; [done..|apply below_refl|].
    intros u v w du Hin. by apply elem_of_nil in Hin. }
  destruct (Hge u v w) as (nbrs & Hg & Hin); [by left|].
  destruct (relax_step g start dist prev u v w nbrs Hc Hdom Hach Hg Hin)
    as (dist1 & prev1 & R1 & Hdom1 & Hach1 & Hb1 & Hs1).
  destruct (IH dist1 prev1 Hc) as (dist2 & prev2 & R2 & Hdom2 & Hach2 & Hb2 & Hs2);
    [|done..|].
  { intros u' v' w' Hin'. apply Hge. by right. }
  exists dist2, prev2. rewrite relax_all_cons, R1. simpl. split_and!; [done..| |].
  - by eapply below_trans.
  - intros u' v' w' du' Hin' Hdu'. apply elem_of_cons in Hin' as [Heq|Hin'].
    + injection Heq as -> -> ->.
      destruct (Hs1 u v w du') as (dv & Hdv & ?); [by left|done|].
      destruct (Hb2 v dv Hdv) as (dv' & ? & ?). exists dv'. split; [done|lia].
    + destruct (Hb1 u' du' Hdu') as (du1 & Hdu1 & ?).
      destruct (Hs2 u' v' w' du1 Hin' Hdu1) as (dv & ? & ?). exists dv. split; [done|lia].
Qed.

Lemma path_short g start ns v d :
  path g start ns v d → (length ns ≤ 1)%nat → v = start ∧ d = 0.
Proof.
  intros P Hl. destruct P as [|ns x d nbrs v w P Hg Hin]; [done|].
  rewrite length_app in Hl. simpl in Hl. destruct P; simpl in Hl; [lia|].
  rewrite length_app in Hl. simpl in Hl. lia.
Qed.

Lemma within_init g start : within g start 0 (init g start).1.
Proof.
  intros v ns d P Hl. destruct (path_short _ _ _ _ _ P Hl) as [-> ->].
  exists 0. simpl. by rewrite lookup_insert_eq.
Qed.

Lemma achieved_init g start : achieved g start (init g start).1.
Proof.
  intros v d. simpl. destruct (decide (v = start)) as [->|Hne].
  - rewrite lookup_insert_eq. intros [= <-]. exists [start]. constructor.
  - rewrite lookup_insert_ne, lookup_fmap by done. destruct (g !! v); by simplify_eq/=.
Qed.

(** A pass accounts for paths one edge longer. *)
Lemma within_pass g start k edges dist dist' :
  (∀ e, e ∈ edge_list g → e ∈ edges) →
  within g start k dist → below dist dist' → settled edges dist dist' →
  within g start (S k) dist'.
Proof.
  intros Hall Hw Hb Hs v ns d P Hl.
  destruct P as [|ns x d nbrs v w P Hg Hin].
  - destruct (Hw start [start] 0) as (ds & Hds & ?); [constructor|simpl; lia|].
    destruct (Hb start ds Hds) as (ds' & ? & ?). exists ds'. split; [done|lia].
  - rewrite length_app in Hl. simpl in Hl.
    destruct (Hw x ns d P) as (dx & Hdx & ?); [lia|].
    destruct (Hs x v w dx) as (dv & ? & ?); [|done|].
    { apply Hall, elem_of_edge_list. eauto. }
    exists dv. split; [done|lia].
Qed.

Lemma passes_within g start edges n :
  ∀ k dist prev,
    closedb g = true → graph_edges g edges → (∀ e, e ∈ edge_list g → e ∈ edges) →
    dom dist = dom g → achieved g start dist → within g start k dist →
    ∃ dist' prev',
      passes n edges (dist, prev) = Ok (dist', prev') ∧
      dom dist' = dom g ∧ achieved g start dist' ∧ within g start (n + k) dist'.
Proof.
  induction n as [|n IH]; intros k dist prev Hc Hge Hall Hdom Hach Hw.
  { exists dist, prev. split_and!.
    - reflexivity.
    - exact Hdom.
    - exact Hach.
    - exact Hw. }
  destruct (relax_all_pass g start edges dist prev Hc Hge Hdom Hach)
    as (dist1 & prev1 & R1 & Hdom1 & Hach1 & Hb1 & Hs1).
  destruct (IH (S k) dist1 prev1 Hc Hge Hall Hdom1 Hach1)
    as (dist2 & prev2 & R2 & Hdom2 & Hach2 & Hw2).
  { by eapply within_pass. }
  exists dist2, prev2. rewrite passes_S, R1. split_and!; [done..|].
  replace (S n + k)%nat with (n + S k)%nat by lia. exact Hw2.
Qed.

(** A simple path visits at most as many nodes as the graph has. *)
Lemma simple_path_length g start ns v d :
  closedb g = true → start ∈ dom g → path g start ns v d → NoDup ns →
  (length ns ≤ size g)%nat.
Proof.
  intros Hc Hs P Hnd. rewrite <- size_dom.
  change (size (dom g)) with (length (elements (dom g))).
  apply submseteq_length, NoDup_submseteq; [done|].
  intros x Hx. apply elem_of_elements. by eapply path_nodes_dom.
Qed.

(** What [bellman_ford] returns on a closed graph with non-negative weights,
    given all its edges. *)
Lemma bellman_ford_tables g edges start :
  closedb g = true → nonnegb g = true → start ∈ dom g →
  (∀ e, e ∈ edges ↔ e ∈ edge_list g) →
  ∃ dist prev,
    bellman_ford g edges start = Ok (dist, prev, false) ∧
    dom dist = dom g ∧
    (∀ v d, dist !! v = Some (Fin d) → ∃ ns, path g start ns v d) ∧
    (∀ v ns d, path g start ns v d → ∃ dv, dist !! v = Some (Fin dv) ∧ dv ≤ d).
Proof.
  intros Hc Hn Hs Hedges.
  assert (graph_edges g edges) as Hge.
  { intros u v w Hin. by apply elem_of_edge_list, Hedges. }
  assert (dom (init g start).1 = dom g) as Hdom0.
  { rewrite dom_init. set_solver. }
  destruct (passes_within g start edges (size g - 1) 0 (init g start).1 (init g start).2)
    as (dist & prev & P & Hdom & Hach & Hw); try done.
  { intros e. apply Hedges. }
  { apply achieved_init. }
  { apply within_init. }
  rewrite <- surjective_pairing in P.
  assert (∀ v ns d, path g start ns v d → ∃ dv, dist !! v = Some (Fin dv) ∧ dv ≤ d) as Hlow.
  { intros v ns d Pv.
    destruct (path_simple _ _ _ _ _ Hn Pv) as (ns' & d' & P' & Hnd & Hle).
    pose proof (simple_path_length _ _ _ _ _ Hc Hs P' Hnd) as Hlen.
    destruct (Hw v ns' d' P') as (dv & ? & ?); [lia|]. exists dv. split; [done|lia]. }
  exists dist, prev. split_and!; [|done..].
  assert (edges_in g start edges = true) as Hin.
  { unfold edges_in. apply forallb_forall. intros [[u v] w] He.
    apply list_elem_of_In, Hge in He as (nbrs & Hg & Hnb).
    apply andb_true_iff. split; apply bool_decide_eq_true, elem_of_union; right.
    - by eapply elem_of_dom_2.
    - exact (closedb_closed _ _ _ _ _ Hc Hg Hnb). }
  destruct (bellman_ford_flag_iff g edges start Hin) as (dist' & prev' & flag & P' & B & Hiff).
  assert (dist' = dist ∧ prev' = prev) as [-> ->] by (split; congruence).
  destruct flag; [|done]. exfalso.
  destruct (proj1 Hiff eq_refl) as (u & v & w & du & dv & He & Hdu & Hdv & Hlt).
  destruct (Hge u v w He) as (nbrs & Hg & Hnb).
  destruct (Hach u du Hdu) as [ns Pu].
  destruct (Hlow v (ns ++ [v]) (du + w)) as (dv' & Hdv' & ?).
  { exact (path_step _ _ _ _ _ _ _ _ Pu Hg Hnb). }
  assert (dv = Fin dv') as -> by congruence. simpl in Hlt.
  apply bool_decide_eq_true in Hlt. lia.
Qed.

(** C3.  On a graph with non-negative weights, and given its flat edge list
    in any order, [bellman_ford] returns the distance table of [dijkstra] and
    reports no negative cycle. *)
Theorem bellman_ford_agrees g edges start :
  closedb g = true → nonnegb g = true → start ∈ dom g →
  (list_to_set edges : gset (node * node * Z)) = list_to_set (edge_list g) →
  ∃ dist prev prev',
    bellman_ford g edges start = Ok (dist, prev, false) ∧
    Dijkstra.dijkstra node_ltb g start = Ok (dist, prev').
Proof.
  intros Hc Hn Hs Hset.
  assert (∀ e, e ∈ edges ↔ e ∈ edge_list g) as Hedges.
  { intros e. by rewrite <- !(elem_of_list_to_set (C := gset (node * node * Z))), Hset. }
  destruct (bellman_ford_tables g edges start Hc Hn Hs Hedges)
    as (dist & prev & B & Hdom & Hach & Hlow).
  destruct (dijkstra_tables node_ltb g start Hc Hn Hs)
    as (dist' & prev' & D & Hdom' & Hreach & Hunreach).
  exists dist, prev, prev'. split; [done|]. rewrite D. do 2 f_equal.
  apply map_eq. intros v. destruct (dist !! v) as [[d|]|] eqn:Hv.
  - destruct (Hach v d Hv) as [ns P].
    destruct (Hreach v) as (d' & Hd' & Hshort); [by exists ns, d|].
    rewrite Hd'. do 2 f_equal. destruct Hshort as [(ns' & P' & _) _].
    destruct (Hlow v ns' d' P') as (d2 & Hd2 & ?).
    assert (d2 = d) as -> by congruence.
    pose proof (shortest_lower g start v d' ns d Hn) as Hle.
    destruct (Hreach v) as (d3 & Hd3 & Hshort3); [by exists ns, d|].
    assert (d3 = d') as -> by congruence. specialize (Hle Hshort3 P). lia.
  - assert (v ∈ dom g) as Hvd by (rewrite <- Hdom; by eapply elem_of_dom_2).
    apply Hunreach; [done|]. intros (ns & d & P).
    destruct (Hlow v ns d P) as (dv & ? & _). congruence.
  - apply not_elem_of_dom. rewrite Hdom', <- Hdom. by apply not_elem_of_dom.
Qed.

End bellman_ford_facts.

Lemma bellman_ford_agrees_witness :
  closedb triangle = true ∧ nonnegb triangle = true ∧ "A" ∈ dom triangle ∧
  (list_to_set triangle_edges : gset (string * string * Z))
    = list_to_set (edge_list triangle) ∧
  ∃ dist prev prev',
    BellmanFord.bellman_ford triangle triangle_edges "A" = Ok (dist, prev, false) ∧
    Dijkstra.dijkstra String.ltb triangle "A" = Ok (dist, prev').
Proof.
  assert (closedb triangle = true) as Hc by (vm_compute; reflexivity).
  assert (nonnegb triangle = true) as Hn by (vm_compute; reflexivity).
  assert ("A" ∈ dom triangle) as Hs by by_compute.
  assert ((list_to_set triangle_edges : gset (string * string * Z))
          = list_to_set (edge_list triangle)) as He by by_compute.
  split_and!; [done..|].
  exact (bellman_ford_agrees String.ltb triangle triangle_edges "A" Hc Hn Hs He).
Defined.

(** ** Kruskal: sorting, connectivity and counting *)

Section kruskal_lists.
Context {node : Type} `{Countable node}.
Import Kruskal.
Implicit Types (e : node * node * Z) (es : list (node * node * Z))
  (a b u v x y : node) (V : gset node).

(** *** The sort *)

Lemma insert_edge_perm e es : insert_edge e es ≡ₚ e :: es.
Proof.
  induction es as [|x es IH]; simpl; [done|].
  case_decide; [done|]. rewrite IH. apply Permutation_swap.
Qed.

Lemma sorted_perm es : sorted es ≡ₚ es.
Proof.
  induction es as [|e es IH]; simpl; [done|].
  unfold sorted in *. simpl. by rewrite insert_edge_perm, IH.
Qed.

Lemma insert_edge_ascending e es : ascending es → ascending (insert_edge e es).
Proof.
  unfold ascending. induction es as [|x es IH]; intros Hs; simpl.
  { repeat constructor. }
  apply StronglySorted_inv in Hs as [Hs Hx]. case_decide as Hle.
  - constructor; [by constructor|]. constructor; [done|].
    eapply Forall_impl; [exact Hx|]. simpl. intros; lia.
  - constructor; [by apply IH|]. rewrite insert_edge_perm.
    constructor; [lia|done].
Qed.

Lemma sorted_ascending es : ascending (sorted es).
Proof.
  induction es as [|e es IH]; [constructor|]. by apply insert_edge_ascending.
Qed.

(** *** Connectivity and labels *)

Lemma conn_mono es es' a b :
  (∀ e, e ∈ es → e ∈ es') → conn es a b → conn es' a b.
Proof.
  intros Hsub Hc. induction Hc as [|x y z Hxy _ IH]; [done|].
  etrans; [|exact IH]. destruct Hxy as [[w Hw]|[w Hw]].
  - apply rtsc_lr. exists w. by apply Hsub.
  - apply rtsc_rl. exists w. by apply Hsub.
Qed.

Lemma conn_edge es u v w : (u, v, w) ∈ es → conn es u v.
Proof. intros Hin. apply rtsc_lr. by exists w. Qed.

(** The label of a node after one more edge. *)
Lemma label_cons u v w es x :
  label ((u, v, w) :: es) x =
  if decide (label es x = label es v) then label es u else label es x.
Proof. done. Qed.

Lemma label_conn es a b : label es a = label es b ↔ conn es a b.
Proof.
  revert a b. induction es as [|[[u v] w] es IH]; intros a b.
  { simpl. split; [by intros ->|]. intros Hc.
    induction Hc as [|x y z [[w Hw]|[w Hw]] _ _]; [done|by apply elem_of_nil in Hw..]. }
  split.
  - assert (∀ x y, conn es x y → conn ((u, v, w) :: es) x y) as Hup.
    { intros x y. apply conn_mono. intros e He. by right. }
    assert (conn ((u, v, w) :: es) u v) as Huv by (apply (conn_edge _ u v w); by left).
    rewrite !label_cons. repeat case_decide; intros Heq.
    + apply Hup, IH. congruence.
    + etrans; [apply Hup, IH; eassumption|]. etrans; [symmetry; exact Huv|].
      apply Hup, IH. congruence.
    + etrans; [apply Hup, IH; exact Heq|]. etrans; [exact Huv|].
      apply Hup, IH. congruence.
    + by apply Hup, IH.
  - intros Hc. induction Hc as [|x y z Hxy _ IHc]; [done|].
    rewrite <- IHc. clear IHc z.
    assert (∀ x y w', (x, y, w') ∈ (u, v, w) :: es →
              label ((u, v, w) :: es) x = label ((u, v, w) :: es) y) as Hedge.
    { intros x' y' w' Hin. rewrite !label_cons.
      apply elem_of_cons in Hin as [Heq|Hin].
      - injection Heq as -> -> ->. by repeat case_decide.
      - apply (conn_edge es), IH in Hin. rewrite Hin. by repeat case_decide. }
    destruct Hxy as [[w' Hw]|[w' Hw]]; [|symmetry]; by eapply Hedge.
Qed.

(** Connectivity after one more edge. *)
Lemma conn_cons u v w es a b :
  conn ((u, v, w) :: es) a b ↔
  conn es a b ∨ (conn es a u ∧ conn es v b) ∨ (conn es a v ∧ conn es u b).
Proof.
  rewrite <- !label_conn, !label_cons. repeat case_decide; split; intros; 
    repeat match goal with H : _ ∨ _ |- _ => destruct H | H : _ ∧ _ |- _ => destruct H end;
    first [ congruence
          | left; congruence
          | right; left; split; congruence
          | right; right; split; congruence ].
Qed.

Lemma conn_perm es es' a b : es ≡ₚ es' → conn es a b ↔ conn es' a b.
Proof.
  intros Hp. split; apply conn_mono; intros e He.
  - by apply (elem_of_Permutation_proper _ _ _ Hp).
  - by apply (elem_of_Permutation_proper _ _ _ Hp).
Qed.

Lemma conn_snoc u v w es a b :
  conn (es ++ [(u, v, w)]) a b ↔
  conn es a b ∨ (conn es a u ∧ conn es v b) ∨ (conn es a v ∧ conn es u b).
Proof.
  rewrite <- conn_cons. apply conn_perm. exact (Permutation_app_comm es [(u, v, w)]).
Qed.

(** *** Counting components *)

(** A map that identifies no more than another has the larger image. *)
Lemma size_set_map_factor (f f' : node → node) V :
  (∀ a b, a ∈ V → b ∈ V → f a = f b → f' a = f' b) →
  (size (set_map f' V : gset node) ≤ size (set_map f V : gset node))%nat.
Proof.
  induction V as [|x V Hx IH] using set_ind_L; intros Hf.
  { by rewrite !set_map_empty. }
  rewrite !set_map_union_L, !set_map_singleton_L.
  assert (size (set_map f' V : gset node) ≤ size (set_map f V : gset node))%nat as IH'.
  { apply IH. intros a b Ha Hb. apply Hf; set_solver. }
  destruct (decide (f x ∈ (set_map f V : gset node))) as [Hin|Hin].
  - apply elem_of_map in Hin as (y & Hxy & Hy).
    assert (f' x = f' y) as Hxy' by (apply Hf; set_solver).
    assert (f' x ∈ (set_map f' V : gset node)) by (apply elem_of_map; eauto).
    assert (f x ∈ (set_map f V : gset node)) by (apply elem_of_map; eauto).
    rewrite !subseteq_union_1_L by set_solver. done.
  - rewrite (size_union {[f x]}) by set_solver.
    rewrite size_union_alt, !size_singleton.
    assert (size ((set_map f' V : gset node) ∖ {[f' x]}) ≤ size (set_map f' V : gset node))%nat
      by (apply subseteq_size; set_solver).
    lia.
Qed.

Lemma size_elem_of_pos V x : x ∈ V → (0 < size V)%nat.
Proof.
  intros Hx.
  assert (size ({[x]} : gset node) ≤ size V)%nat as Hle
    by (by apply subseteq_size, singleton_subseteq_l).
  rewrite size_singleton in Hle. lia.
Qed.

Lemma num_components_nil V : num_components V [] = size V.
Proof.
  unfold num_components. f_equal. apply set_eq. intros x.
  rewrite elem_of_map. simpl. naive_solver.
Qed.

Lemma num_components_mono V es es' :
  (∀ a b, a ∈ V → b ∈ V → conn es a b → conn es' a b) →
  (num_components V es' ≤ num_components V es)%nat.
Proof.
  intros Hc. apply size_set_map_factor. intros a b Ha Hb Hl.
  by apply label_conn, Hc, label_conn.
Qed.

Lemma num_components_perm V es es' :
  es ≡ₚ es' → num_components V es = num_components V es'.
Proof.
  intros Hp. apply Nat.le_antisymm; apply num_components_mono; intros a b _ _;
    by apply conn_perm.
Qed.

Lemma label_image_cons V u v w es :
  (set_map (label es) V : gset node) ∖ {[label es v]}
    ⊆ set_map (label ((u, v, w) :: es)) V.
Proof.
  intros l [Hl Hne]%elem_of_difference. apply elem_of_map in Hl as (x & -> & Hx).
  apply elem_of_map. exists x. split; [|done]. rewrite label_cons.
  rewrite decide_False; [done|]. set_solver.
Qed.

(** An edge removes at most one component. *)
Lemma num_components_cons_le V e es :
  (num_components V es ≤ S (num_components V (e :: es)))%nat.
Proof.
  destruct e as [[u v] w]. unfold num_components.
  pose proof (subseteq_size _ _ (label_image_cons V u v w es)) as Hle.
  rewrite size_difference_alt in Hle.
  assert (size ((set_map (label es) V : gset node) ∩ {[label es v]}) ≤ 1)%nat.
  { rewrite <- (size_singleton (C := gset node) (label es v)).
    apply subseteq_size. set_solver. }
  lia.
Qed.

(** An edge between two components removes exactly one. *)
Lemma num_components_cons_merge V u v w es :
  u ∈ V → v ∈ V → ¬ conn es u v →
  S (num_components V ((u, v, w) :: es)) = num_components V es.
Proof.
  intros Hu Hv Hc. rewrite <- label_conn in Hc. unfold num_components.
  assert ((set_map (label ((u, v, w) :: es)) V : gset node)
          = set_map (label es) V ∖ {[label es v]}) as ->.
  { apply set_eq. intros l. split; [|apply label_image_cons].
    intros (x & -> & Hx)%elem_of_map. rewrite label_cons. apply elem_of_difference.
    case_decide.
    - split; [apply elem_of_map; eauto|]. set_solver.
    - split; [apply elem_of_map; eauto|]. set_solver. }
  rewrite size_difference, size_singleton.
  - assert (0 < size (set_map (label es) V : gset node))%nat; [|lia].
    apply (size_elem_of_pos _ (label es v)), elem_of_map. eauto.
  - apply singleton_subseteq_l, elem_of_map. eauto.
Qed.

Lemma num_components_app_le V l1 l2 :
  (num_components V l2 ≤ num_components V (l1 ++ l2) + length l1)%nat.
Proof.
  induction l1 as [|e l1 IH]; simpl; [lia|].
  pose proof (num_components_cons_le V e (l1 ++ l2)). lia.
Qed.

Lemma num_components_connected V es :
  (∀ a b, a ∈ V → b ∈ V → conn es a b) → (num_components V es ≤ 1)%nat.
Proof.
  intros Hc. unfold num_components.
  destruct (set_choose_or_empty V) as [[a Ha]|He].
  - rewrite <- (size_singleton (C := gset node) (label es a)).
    apply subseteq_size. intros l (x & -> & Hx)%elem_of_map.
    apply elem_of_singleton, label_conn, Hc; done.
  - apply leibniz_equiv in He. subst V. rewrite set_map_empty, size_empty. lia.
Qed.

Lemma num_components_one V es a b :
  num_components V es = 1%nat → a ∈ V → b ∈ V → conn es a b.
Proof.
  intros Hn Ha Hb. apply label_conn.
  apply (size_singleton_inv (set_map (label es) V : gset node)); [done|..];
    apply elem_of_map; eauto.
Qed.

Lemma num_components_pos V es a : a ∈ V → (1 ≤ num_components V es)%nat.
Proof.
  intros Ha. unfold num_components.
  assert (0 < size (set_map (label es) V : gset node))%nat; [|lia].
  apply (size_elem_of_pos _ (label es a)), elem_of_map. eauto.
Qed.

End kruskal_lists.

(** ** Kruskal: weights by layers *)

Section kruskal_layers.
Context {node : Type} `{Countable node}.
Import Kruskal.
Implicit Types (e : node * node * Z) (es F T : list (node * node * Z)).

Lemma upto_cons t e es :
  upto t (e :: es) = if decide (weight e ≤ t) then e :: upto t es else upto t es.
Proof. unfold upto. rewrite filter_cons. by case_decide. Qed.

Lemma upto_nil t : upto (node := node) t [] = [].
Proof. done. Qed.

Lemma sum_weights_cons e es : sum_weights (e :: es) = weight e + sum_weights es.
Proof. by destruct e as [[u v] w]. Qed.

Lemma layers_cons lo n e es : layers lo n (e :: es) = layers lo n [e] + layers lo n es.
Proof.
  revert lo. induction n as [|n IH]; intros lo; simpl; [done|].
  rewrite IH, !upto_cons, upto_nil. case_decide; simpl; lia.
Qed.

Lemma layers_single_low lo n e : weight e ≤ lo → layers lo n [e] = Z.of_nat n.
Proof.
  revert lo. induction n as [|n IH]; intros lo Hle; simpl; [done|].
  rewrite IH by lia. rewrite upto_cons, decide_True by done. simpl. lia.
Qed.

Lemma layers_single lo n e :
  lo ≤ weight e ≤ lo + Z.of_nat n → layers lo n [e] = lo + Z.of_nat n - weight e.
Proof.
  revert lo. induction n as [|n IH]; intros lo Hle; simpl; [lia|].
  rewrite upto_cons. case_decide.
  - rewrite layers_single_low by lia. simpl. lia.
  - rewrite IH by lia. rewrite upto_nil. simpl. lia.
Qed.

Lemma layers_nil lo n : layers (node := node) lo n [] = 0.
Proof.
  revert lo. induction n as [|n IH]; intros lo; [done|].
  change (layers lo (S n) []) with
    (Z.of_nat (length (upto (node := node) lo [])) + layers (node := node) (lo + 1) n []).
  by rewrite IH, upto_nil.
Qed.

(** The total weight, counted threshold by threshold. *)
Lemma sum_weights_layers lo n es :
  (∀ e, e ∈ es → lo ≤ weight e ≤ lo + Z.of_nat n) →
  sum_weights es = (lo + Z.of_nat n) * Z.of_nat (length es) - layers lo n es.
Proof.
  induction es as [|e es IH]; intros Hb.
  { rewrite layers_nil. simpl. lia. }
  rewrite sum_weights_cons, layers_cons, IH by (intros; apply Hb; by right).
  rewrite layers_single by (apply Hb; by left). simpl length. lia.
Qed.

Lemma layers_mono lo n es es' :
  (∀ t, (length (upto t es) ≤ length (upto t es'))%nat) →
  layers lo n es ≤ layers lo n es'.
Proof.
  intros Hle. revert lo. induction n as [|n IH]; intros lo; simpl; [done|].
  specialize (IH (lo + 1)). specialize (Hle lo). lia.
Qed.

Lemma weights_bounded es : ∃ lo hi, lo ≤ hi ∧ ∀ e, e ∈ es → lo ≤ weight e ≤ hi.
Proof.
  induction es as [|e es (lo & hi & Hle & Hb)].
  { exists 0, 0. split; [done|]. intros e He. by apply elem_of_nil in He. }
  exists (Z.min lo (weight e)), (Z.max hi (weight e)). split; [lia|].
  intros e' [->|He]%elem_of_cons; [lia|]. specialize (Hb e' He). lia.
Qed.

(** Of two edge lists of the same length, the one with more edges under
    every threshold is the lighter. *)
Lemma layer_cake F T :
  length F = length T →
  (∀ t, (length (upto t T) ≤ length (upto t F))%nat) →
  sum_weights F ≤ sum_weights T.
Proof.
  intros Hlen Hle. destruct (weights_bounded (F ++ T)) as (lo & hi & Hlh & Hb).
  set (n := Z.to_nat (hi - lo)).
  assert (∀ e, e ∈ F ++ T → lo ≤ weight e ≤ lo + Z.of_nat n) as Hb'.
  { intros e He. specialize (Hb e He). lia. }
  rewrite (sum_weights_layers lo n F), (sum_weights_layers lo n T)
    by (intros; apply Hb', elem_of_app; auto).
  pose proof (layers_mono lo n T F Hle). rewrite Hlen. lia.
Qed.

End kruskal_layers.

(** ** Kruskal: the loop and the minimum spanning tree *)

Section kruskal_facts.
Context {node : Type} `{Countable node}.
Import Kruskal.
Implicit Types (e : node * node * Z) (es seen rest mst T : list (node * node * Z))
  (a b u v x y : node) (V : gset node) (uf : UnionFind.state node).

Lemma elem_of_upto t e es : e ∈ upto t es ↔ weight e ≤ t ∧ e ∈ es.
Proof. unfold upto. by rewrite list_elem_of_filter. Qed.

Lemma upto_all t es : (∀ e, e ∈ es → weight e ≤ t) → upto t es = es.
Proof.
  intros Hall. induction es as [|e es IH]; [done|].
  rewrite upto_cons, decide_True by (apply Hall; by left).
  rewrite IH; [done|]. intros e' He'. apply Hall. by right.
Qed.

Lemma upto_app t es es' : upto t (es ++ es') = upto t es ++ upto t es'.
Proof. unfold upto. apply filter_app. Qed.

Lemma conn_upto_le t t' es a b : t ≤ t' → conn (upto t es) a b → conn (upto t' es) a b.
Proof.
  intros Hle. apply conn_mono. intros e [? ?]%elem_of_upto. apply elem_of_upto.
  split; [lia|done].
Qed.

Lemma conn_upto es t a b : conn (upto t es) a b → conn es a b.
Proof. apply conn_mono. by intros e [_ ?]%elem_of_upto. Qed.

(** Edges that are joined in [es'] connect nothing new. *)
Lemma conn_sub es es' a b :
  (∀ u v w, (u, v, w) ∈ es → conn es' u v) → conn es a b → conn es' a b.
Proof.
  intros Hsub Hc. induction Hc as [|x y z Hxy _ IH]; [done|].
  etrans; [|exact IH]. destruct Hxy as [[w Hw]|[w Hw]].
  - by eapply Hsub.
  - symmetry. by eapply Hsub.
Qed.

(** A spanning tree has at most [|V| - c] edges below a threshold, [c] being
    the number of components that the edges below the threshold leave. *)
Lemma tree_upto_bound (nodes : list node) edges T t :
  spanning_tree nodes edges T →
  (length (upto t T) + num_components (list_to_set nodes) (upto t edges)
   ≤ size (list_to_set nodes : gset node))%nat.
Proof.
  intros (Hsub & Hlen & Hconn). set (V := list_to_set nodes : gset node) in *.
  pose proof (filter_app_complement (λ e, weight e ≤ t) T) as Hperm.
  fold (upto t T) in Hperm. set (heavy := filter (λ e, ¬ weight e ≤ t) T) in *.
  assert (length T = length (upto t T) + length heavy)%nat as Hl.
  { rewrite <- Hperm at 1. by rewrite length_app. }
  pose proof (num_components_app_le V heavy (upto t T)) as Hle.
  assert (num_components V (heavy ++ upto t T) ≤ 1)%nat as Hone.
  { rewrite (num_components_perm V _ T) by (by rewrite Permutation_app_comm).
    apply num_components_connected. intros a b Ha Hb.
    apply Hconn; by apply (elem_of_list_to_set (C := gset node)). }
  assert (num_components V (upto t edges) ≤ num_components V (upto t T))%nat as Hmono.
  { apply num_components_mono. intros a b _ _. apply conn_mono.
    intros e [? He]%elem_of_upto. apply elem_of_upto. split; [done|].
    by eapply elem_of_submseteq. }
  lia.
Qed.

Lemma same_root_iff (p : gmap node node) a b ra rb :
  UnionFind.root_of p a ra → UnionFind.root_of p b rb →
  (∃ r, UnionFind.root_of p a r ∧ UnionFind.root_of p b r) ↔ ra = rb.
Proof.
  intros Ha Hb. split.
  - intros (r & Ha' & Hb').
    rewrite (root_of_det _ _ _ _ Ha Ha'). by rewrite (root_of_det _ _ _ _ Hb Hb').
  - intros <-. by exists ra.
Qed.

Lemma sets_match_root V uf mst a :
  sets_match V uf mst → a ∈ V → ∃ r, UnionFind.root_of (UnionFind.parent uf) a r.
Proof. intros ([_ Hroot] & Hdom & _) Ha. apply Hroot. by rewrite Hdom. Qed.

Lemma sets_match_connected V uf mst u v :
  sets_match V uf mst → u ∈ V → v ∈ V →
  ∃ c uf1, UnionFind.connected uf u v = Ok (c, uf1) ∧
           (c = true ↔ conn mst u v) ∧ sets_match V uf1 mst.
Proof.
  intros (Hwf & Hdom & Hsets) Hu Hv.
  destruct (connected_effect uf u v Hwf) as
    (ru & rv & uf0 & uf1 & _ & _ & Ru & Rv & C & _ & Hdom1 & Hroots & Hwf1);
    [by rewrite Hdom..|].
  exists (bool_decide (ru = rv)), uf1. split; [done|]. split.
  - rewrite bool_decide_eq_true, <- (Hsets u v Hu Hv). symmetry. by apply same_root_iff.
  - split; [done|]. split; [congruence|]. intros a b Ha Hb.
    rewrite <- (Hsets a b Ha Hb). split; intros (r & ? & ?); exists r; split; by apply Hroots.
Qed.

Lemma sets_match_union V uf mst u v w :
  sets_match V uf mst → u ∈ V → v ∈ V →
  ∃ c uf2, UnionFind.union uf u v = Ok (c, uf2) ∧
           sets_match V uf2 (mst ++ [(u, v, w)]).
Proof.
  intros M Hu Hv. pose proof M as (Hwf & Hdom & Hsets).
  destruct (union_merge uf u v Hwf) as
    (ru & rv & lose & win & uf2 & Ru & Rv & U & Hwf2 & Hdom2 & Hlw & Hroots);
    [by rewrite Hdom..|].
  eexists _, uf2. split; [exact U|]. split; [done|]. split; [congruence|].
  intros a b Ha Hb.
  destruct (sets_match_root V uf mst a M Ha) as [ra Ra].
  destruct (sets_match_root V uf mst b M Hb) as [rb Rb].
  rewrite (same_root_iff _ a b _ _ (Hroots a ra Ra) (Hroots b rb Rb)).
  rewrite conn_snoc, <- !Hsets by done.
  rewrite (same_root_iff _ a b _ _ Ra Rb), (same_root_iff _ a u _ _ Ra Ru),
    (same_root_iff _ v b _ _ Rv Rb), (same_root_iff _ a v _ _ Ra Rv),
    (same_root_iff _ u b _ _ Ru Rb).
  destruct Hlw as [[-> ->]|[-> ->]]; repeat case_decide; split; intros;
    repeat match goal with H : _ ∨ _ |- _ => destruct H | H : _ ∧ _ |- _ => destruct H end;
    first [ congruence
          | left; congruence
          | right; left; split; congruence
          | right; right; split; congruence ].
Qed.

(** Accepting an edge between two components. *)
Lemma kruskal_inv_accept V seen rest uf uf2 mst u v w :
  inv V seen ((u, v, w) :: rest) uf mst → ascending ((u, v, w) :: rest) →
  u ∈ V → v ∈ V → ¬ conn mst u v → sets_match V uf2 (mst ++ [(u, v, w)]) →
  inv V (seen ++ [(u, v, w)]) rest uf2 (mst ++ [(u, v, w)]).
Proof.
  intros I Hasc Hu Hv Hnc M2.
  assert (∀ e, e ∈ mst → weight e ≤ w) as Hlight.
  { intros e He. apply (inv_light _ _ _ _ _ I e (u, v, w) He). by left. }
  assert (length (mst ++ [(u, v, w)]) + num_components V (mst ++ [(u, v, w)])
          = size V)%nat as Hall.
  { rewrite (num_components_perm V _ ((u, v, w) :: mst))
      by exact (Permutation_app_comm mst [(u, v, w)]).
    pose proof (num_components_cons_merge V u v w mst Hu Hv Hnc).
    pose proof (inv_count_all _ _ _ _ _ I). rewrite length_app. simpl. lia. }
  split; [done| |done|..].
  - intros t. rewrite upto_app, upto_cons, upto_nil. case_decide as Hw.
    + rewrite (upto_all t mst); [done|]. intros e He. specialize (Hlight e He).
      unfold weight in Hw. simpl in Hw. lia.
    + rewrite app_nil_r. apply (inv_count _ _ _ _ _ I).
  - apply submseteq_app; [apply (inv_sub _ _ _ _ _ I)|done].
  - intros e e' He He'. apply elem_of_app in He as [He|He].
    + apply (inv_light _ _ _ _ _ I e e' He). by right.
    + apply list_elem_of_singleton in He as ->.
      apply StronglySorted_inv in Hasc as [_ Hfa].
      rewrite Forall_forall in Hfa. by apply Hfa.
  - intros u' v' w' Hin. apply elem_of_app in Hin as [Hin|Hin].
    + eapply conn_mono; [|apply (inv_seen _ _ _ _ _ I u' v' w' Hin)].
      intros e He. rewrite upto_app. apply elem_of_app. by left.
    + apply list_elem_of_singleton in Hin. injection Hin as -> -> ->.
      apply (conn_edge _ u v w), elem_of_upto. split; [done|].
      apply elem_of_app. right. by left.
Qed.

(** Rejecting an edge inside a component. *)
Lemma kruskal_inv_reject V seen rest uf uf1 mst u v w :
  inv V seen ((u, v, w) :: rest) uf mst → conn mst u v → sets_match V uf1 mst →
  inv V (seen ++ [(u, v, w)]) rest uf1 mst.
Proof.
  intros I Hc M1. split; try by destruct I.
  - apply submseteq_inserts_r, (inv_sub _ _ _ _ _ I).
  - intros e e' He He'. apply (inv_light _ _ _ _ _ I e e' He). by right.
  - intros u' v' w' Hin. apply elem_of_app in Hin as [Hin|Hin].
    + by apply (inv_seen _ _ _ _ _ I).
    + apply list_elem_of_singleton in Hin. injection Hin as -> -> ->.
      rewrite upto_all; [done|]. intros e He.
      apply (inv_light _ _ _ _ _ I e (u, v, w) He). by left.
Qed.

(** The loop returns, having examined every edge or connected every node. *)
Lemma kruskal_loop_post V n rest :
  ∀ seen uf mst,
    (size V ≤ n)%nat → ascending rest →
    (∀ u v w, (u, v, w) ∈ rest → u ∈ V ∧ v ∈ V) →
    inv V seen rest uf mst →
    ∃ mst', loop n rest uf mst = Ok mst' ∧ post V (seen ++ rest) mst'.
Proof.
  induction rest as [|[[u v] w] rest IH]; intros seen uf mst Hn Hasc Hin I.
  { exists mst. split; [done|]. rewrite app_nil_r. destruct I. by split. }
  destruct (Hin u v w) as [Hu Hv]; [by left|].
  assert (ascending rest) as Hasc' by (by apply StronglySorted_inv in Hasc as [? _]).
  assert (∀ u v w, (u, v, w) ∈ rest → u ∈ V ∧ v ∈ V) as Hin'.
  { intros u' v' w' He. apply (Hin u' v' w'). by right. }
  assert (seen ++ (u, v, w) :: rest = (seen ++ [(u, v, w)]) ++ rest) as Eapp
    by (by rewrite <- app_assoc).
  destruct (sets_match_connected V uf mst u v (inv_match _ _ _ _ _ I) Hu Hv)
    as (c & uf1 & C & Hc & M1).
  simpl. rewrite C. simpl. destruct c.
  - rewrite Eapp. apply IH; try done. apply (kruskal_inv_reject V seen rest uf); [done| |done].
    by apply Hc.
  - assert (¬ conn mst u v) as Hnc by (intros ?%Hc; done).
    destruct (sets_match_union V uf1 mst u v w M1 Hu Hv) as (c2 & uf2 & U & M2).
    rewrite U. simpl.
    pose proof (kruskal_inv_accept V seen rest uf uf2 mst u v w I Hasc Hu Hv Hnc M2) as I2.
    case_decide as Hbreak; [|rewrite Eapp; by apply IH].
    exists (mst ++ [(u, v, w)]). split; [done|]. rewrite Eapp. split.
    + apply submseteq_inserts_r, (inv_sub _ _ _ _ _ I2).
    + apply (inv_count _ _ _ _ _ I2).
    + apply (inv_count_all _ _ _ _ _ I2).
    + intros u' v' w' He. apply elem_of_app in He as [He|He];
        [by apply (inv_seen _ _ _ _ _ I2)|].
      rewrite upto_all by (intros e He'; by apply (inv_light _ _ _ _ _ I2 e (u', v', w'))).
      destruct (Hin' u' v' w' He) as [Hu' Hv'].
      apply (num_components_one V); [|done..].
      pose proof (inv_count_all _ _ _ _ _ I2).
      pose proof (num_components_pos V (mst ++ [(u, v, w)]) u Hu). lia.
Qed.

(** Before the loop every node is a set and a component of its own. *)
Lemma kruskal_inv_init (nodes : list node) rest :
  inv (list_to_set nodes) [] rest (UnionFind.init nodes) [].
Proof.
  split.
  - split; [apply init_wf|]. split; [apply dom_init_parent|].
    intros a b Ha Hb. rewrite <- label_conn. simpl.
    assert (∀ x, x ∈ (list_to_set nodes : gset node) →
              UnionFind.root_of (UnionFind.parent (UnionFind.init nodes)) x x) as Hroot.
    { intros x Hx. apply root_of_root. rewrite lookup_init_parent.
      rewrite decide_True; [done|]. by apply (elem_of_list_to_set (C := gset node)). }
    rewrite (same_root_iff _ a b a b) by (by apply Hroot). done.
  - intros t. rewrite upto_nil. simpl. apply num_components_nil.
  - simpl. apply num_components_nil.
  - done.
  - intros e e' He. by apply elem_of_nil in He.
  - intros u v w He. by apply elem_of_nil in He.
Qed.

Lemma size_list_to_set_le (l : list node) :
  (size (list_to_set l : gset node) ≤ length l)%nat.
Proof.
  induction l as [|x l IH]; [done|]. cbn [list_to_set length].
  pose proof (size_union_alt ({[x]} : gset node) (list_to_set l)) as Hs.
  pose proof (subseteq_size (list_to_set l ∖ {[x]}) (list_to_set l : gset node)) as Hd.
  rewrite size_singleton in Hs. rewrite Hs.
  assert (list_to_set l ∖ {[x]} ⊆ (list_to_set l : gset node)) as Hsub by set_solver.
  specialize (Hd Hsub). lia.
Qed.

Lemma kruskal_edges_in_elem (nodes : list node) edges u v w :
  edges_in nodes edges = true → (u, v, w) ∈ edges → u ∈ nodes ∧ v ∈ nodes.
Proof.
  unfold edges_in. rewrite forallb_forall. intros Hall Hin.
  apply list_elem_of_In, Hall in Hin. simpl in Hin.
  apply andb_true_iff in Hin as [Hu Hv].
  apply bool_decide_eq_true in Hu, Hv. done.
Qed.

(** [kruskal] returns, and its edges satisfy the postcondition of the loop. *)
Lemma kruskal_post (nodes : list node) edges :
  edges_in nodes edges = true →
  ∃ mst, kruskal nodes edges = Ok (mst, sum_weights mst) ∧
         post (list_to_set nodes) edges mst.
Proof.
  intros Hin. unfold kruskal.
  destruct (kruskal_loop_post (list_to_set nodes) (length nodes) (sorted edges) []
              (UnionFind.init nodes) []) as (mst & L & P).
  - apply size_list_to_set_le.
  - apply sorted_ascending.
  - intros u v w He. rewrite (sorted_perm edges) in He.
    destruct (kruskal_edges_in_elem nodes edges u v w Hin He).
    split; by apply (elem_of_list_to_set (C := gset node)).
  - apply kruskal_inv_init.
  - exists mst. simpl in L, P. rewrite L. split; [done|]. destruct P as [P1 P2 P3 P4].
    split; [by rewrite <- (sorted_perm edges)|done..|].
    intros u v w He. apply P4. by rewrite (sorted_perm edges).
Qed.

(** The accepted edges leave the components of the graph as they are. *)
Lemma kruskal_post_components V edges mst :
  post V edges mst → num_components V mst = num_components V edges.
Proof.
  intros [P1 P2 P3 P4]. apply Nat.le_antisymm; apply num_components_mono; intros a b _ _.
  - apply conn_sub. intros u v w He. eapply conn_upto, P4, He.
  - apply conn_mono. intros e He. by eapply elem_of_submseteq.
Qed.

Lemma kruskal_post_upto_components V edges mst t :
  post V edges mst →
  (num_components V (upto t mst) ≤ num_components V (upto t edges))%nat.
Proof.
  intros [P1 P2 P3 P4]. apply num_components_mono; intros a b _ _.
  apply conn_sub. intros u v w [Hw He]%elem_of_upto.
  apply (conn_upto_le w t); [done|]. by apply P4.
Qed.

(** C5. On every graph whose edges join nodes of the node list, [kruskal]
    returns a list of edges of the graph and the sum of their weights, without
    raising; the number of accepted edges plus the number of connected
    components of the graph is the number of distinct nodes, connected or not;
    when the graph is connected (and has a node) the accepted edges form a
    spanning tree; and the total returned is at most the total weight of
    every spanning tree of the graph. *)
Theorem kruskal_minimum (nodes : list node) (edges : list (node * node * Z)) :
  edges_in nodes edges = true →
  ∃ mst total,
    kruskal nodes edges = Ok (mst, total) ∧
    total = sum_weights mst ∧
    mst ⊆+ edges ∧
    (length mst + num_components (list_to_set nodes) edges)%nat
      = size (list_to_set nodes : gset node) ∧
    (nodes ≠ [] → (∀ a b, a ∈ nodes → b ∈ nodes → conn edges a b) →
       spanning_tree nodes edges mst) ∧
    (∀ T, spanning_tree nodes edges T → total ≤ sum_weights T).
Proof.
  intros Hin. destruct (kruskal_post nodes edges Hin) as (mst & K & P).
  set (V := list_to_set nodes : gset node) in *.
  pose proof (kruskal_post_components V edges mst P) as Hcomp.
  pose proof (post_count_all _ _ _ P) as Hcount.
  exists mst, (sum_weights mst). split; [done|]. split; [done|].
  split; [apply (post_sub _ _ _ P)|]. split; [by rewrite <- Hcomp|]. split.
  - intros Hne Hconn. destruct nodes as [|x0 nodes']; [done|].
    assert (x0 ∈ V) as Hx0 by (apply (elem_of_list_to_set (C := gset node)); by left).
    assert (num_components V mst = 1%nat) as Hone.
    { rewrite Hcomp. pose proof (num_components_pos V edges x0 Hx0).
      assert (num_components V edges ≤ 1)%nat; [|lia].
      apply num_components_connected. intros a b Ha Hb.
      apply Hconn; by apply (elem_of_list_to_set (C := gset node)). }
    split; [apply (post_sub _ _ _ P)|]. split; [fold V; lia|].
    intros a b Ha Hb.
    apply (num_components_one V); [done|by apply (elem_of_list_to_set (C := gset node))..].
  - intros T HT. pose proof HT as (Hsub & Hlen & Hconn). fold V in Hlen.
    assert (num_components V edges = 1%nat) as Hone.
    { assert (∃ x, x ∈ V) as [x Hx] by (apply size_pos_elem_of; lia).
      pose proof (num_components_pos V edges x Hx).
      assert (num_components V edges ≤ 1)%nat; [|lia].
      apply num_components_connected. intros a b Ha Hb.
      apply (conn_mono T); [intros e He; by eapply elem_of_submseteq|].
      apply Hconn; by apply (elem_of_list_to_set (C := gset node)). }
    apply layer_cake; [lia|]. intros t.
    pose proof (tree_upto_bound nodes edges T t HT) as Hb. fold V in Hb.
    pose proof (post_count _ _ _ P t).
    pose proof (kruskal_post_upto_components V edges mst t P). lia.
Qed.

End kruskal_facts.

Lemma kruskal_minimum_witness :
  Kruskal.edges_in two_islands_nodes two_islands_edges = true ∧
  ∃ mst total,
    Kruskal.kruskal two_islands_nodes two_islands_edges = Ok (mst, total) ∧
    total = sum_weights mst ∧
    mst ⊆+ two_islands_edges ∧
    (length mst + Kruskal.num_components (list_to_set two_islands_nodes)
                    two_islands_edges)%nat
      = size (list_to_set two_islands_nodes : gset string) ∧
    (two_islands_nodes ≠ [] →
     (∀ a b, a ∈ two_islands_nodes → b ∈ two_islands_nodes →
        Kruskal.conn two_islands_edges a b) →
     Kruskal.spanning_tree two_islands_nodes two_islands_edges mst) ∧
    (∀ T, Kruskal.spanning_tree two_islands_nodes two_islands_edges T →
       total ≤ sum_weights T).
Proof.
  assert (Kruskal.edges_in two_islands_nodes two_islands_edges = true) as Hin
    by (vm_compute; reflexivity).
  split; [done|].
  exact (kruskal_minimum two_islands_nodes two_islands_edges Hin).
Defined.

(** Scenario 3: the lightest two edges of the triangle are accepted. *)
Example kruskal_triangle :
  Kruskal.kruskal ["A"; "B"; "C"] triangle_edges
  = Ok ([("A", "B", 1); ("B", "C", 2)], 3).
Proof. vm_compute. reflexivity. Qed.

(** Scenario 4: two components, two accepted edges, no error. *)
Example kruskal_two_islands :
  Kruskal.kruskal two_islands_nodes two_islands_edges
  = Ok ([("A", "B", 1); ("C", "D", 2)], 3) ∧
  Kruskal.num_components (list_to_set two_islands_nodes) two_islands_edges = 2%nat.
Proof. split; vm_compute; reflexivity. Qed.

(** ** Disjoint sets: more properties *)

Section union_find_more.
Context {node : Type} `{Countable node}.
Import UnionFind.
Implicit Types (p : gmap node node) (uf : state node) (x y r : node) (l : list node).



Lemma same_set_roots uf x y rx ry :
  root_of (parent uf) x rx → root_of (parent uf) y ry →
  same_set uf x y ↔ rx = ry.
Proof.
  intros Hx Hy. split.
  - intros (r & Hx' & Hy').
    rewrite (root_of_det _ _ _ _ Hx Hx'). by rewrite (root_of_det _ _ _ _ Hy Hy').
  - intros <-. by exists rx.
Qed.

Lemma lookup_compress r l uf z :
  parent (compress r l uf) !! z = if decide (z ∈ l) then Some r else parent uf !! z.
Proof.
  induction l as [|a l IH].
  { rewrite decide_False by apply not_elem_of_nil. done. }
  rewrite parent_compress_cons. destruct (decide (z = a)) as [->|Hne].
  - rewrite lookup_insert_eq, decide_True; [done|by left].
  - rewrite lookup_insert_ne by done. rewrite IH.
    repeat case_decide; try done; set_solver.
Qed.

(** X1. On a fresh structure every element is the representative of its own
    set: [find] returns the element itself and changes nothing, it raises
    [KeyError] for anything else, and [connected] on two elements tells
    whether they are equal. *)
Theorem fresh_singletons (elements : list node) x y :
  find (init elements) x =
    (if decide (x ∈ elements) then Ok (x, init elements) else Raise KeyError) ∧
  connected (init elements) x y =
    (if decide (x ∈ elements ∧ y ∈ elements)
     then Ok (bool_decide (x = y), init elements) else Raise KeyError).
Proof.
  assert (∀ z, find (init elements) z =
    (if decide (z ∈ elements) then Ok (z, init elements) else Raise KeyError)) as Hfind.
  { intros z. unfold find. cbn [find_rec]. unfold subscript.
    rewrite lookup_init_parent. case_decide; [|done]. simpl.
    by rewrite decide_False by (intros ?; done). }
  split; [apply Hfind|]. unfold connected. rewrite Hfind.
  destruct (decide (x ∈ elements)) as [Hx|Hx].
  - simpl. rewrite Hfind. destruct (decide (y ∈ elements)) as [Hy|Hy].
    + by rewrite decide_True.
    + rewrite decide_False by tauto. done.
  - rewrite decide_False by tauto. done.
Qed.

(** X2. [union(x, y)] on members of a well-formed structure returns [False]
    exactly when [x] and [y] were in the same set, and afterwards two members
    are in the same set exactly when they were before or one was with [x] and
    the other with [y]. *)
Theorem union_merges uf x y :
  wf uf → x ∈ dom (parent uf) → y ∈ dom (parent uf) →
  ∃ b uf',
    union uf x y = Ok (b, uf') ∧
    wf uf' ∧ dom (parent uf') = dom (parent uf) ∧
    (b = false ↔ same_set uf x y) ∧
    ∀ a c, a ∈ dom (parent uf) → c ∈ dom (parent uf) →
      same_set uf' a c ↔
      same_set uf a c ∨ (same_set uf a x ∧ same_set uf y c) ∨
      (same_set uf a y ∧ same_set uf x c).
Proof.
  intros Hwf Hx Hy.
  destruct (union_merge uf x y Hwf Hx Hy) as
    (rx & ry & lose & win & uf' & Rx & Ry & U & Hwf' & Hdom & Hlw & Hroots).
  exists (bool_decide (rx ≠ ry)), uf'. split; [done|]. split; [done|]. split; [done|].
  split.
  - rewrite (same_set_roots uf x y rx ry Rx Ry), bool_decide_eq_false. split.
    + intros Hn. by destruct (decide (rx = ry)).
    + intros -> Hn. done.
  - intros a c Ha Hc. destruct Hwf as [Hd Hroot].
    destruct (Hroot a Ha) as [ra Ra]. destruct (Hroot c Hc) as [rc Rc].
    rewrite (same_set_roots uf' a c _ _ (Hroots a ra Ra) (Hroots c rc Rc)).
    rewrite (same_set_roots uf a c _ _ Ra Rc), (same_set_roots uf a x _ _ Ra Rx),
      (same_set_roots uf y c _ _ Ry Rc), (same_set_roots uf a y _ _ Ra Ry),
      (same_set_roots uf x c _ _ Rx Rc).
    destruct Hlw as [[-> ->]|[-> ->]]; repeat case_decide; split; intros;
      repeat match goal with H : _ ∨ _ |- _ => destruct H | H : _ ∧ _ |- _ => destruct H end;
      first [ congruence
            | left; congruence
            | right; left; split; congruence
            | right; right; split; congruence ].
Qed.

(** X3. After [union(x, y)] has returned, on members of a well-formed
    structure, [connected(x, y)] returns [True]. *)
Theorem union_then_connected uf x y :
  wf uf → x ∈ dom (parent uf) → y ∈ dom (parent uf) →
  ∃ b uf1 uf2, union uf x y = Ok (b, uf1) ∧ connected uf1 x y = Ok (true, uf2).
Proof.
  intros Hwf Hx Hy.
  destruct (union_merge uf x y Hwf Hx Hy) as
    (rx & ry & lose & win & uf1 & Rx & Ry & U & Hwf' & Hdom & Hlw & Hroots).
  destruct (connected_effect uf1 x y Hwf') as
    (rx' & ry' & uf0 & uf2 & _ & _ & Rx' & Ry' & C & _); [by rewrite Hdom..|].
  exists (bool_decide (rx ≠ ry)), uf1, uf2. split; [done|].
  rewrite C. do 2 f_equal. apply bool_decide_eq_true.
  rewrite (root_of_det _ _ _ _ Rx' (Hroots x rx Rx)).
  rewrite (root_of_det _ _ _ _ Ry' (Hroots y ry Ry)).
  destruct Hlw as [[-> ->]|[-> ->]]; repeat case_decide; congruence.
Qed.

Lemma non_member_KeyError_aux uf x y :
  wf uf → x ∉ dom (parent uf) ∨ y ∉ dom (parent uf) →
  union uf x y = Raise KeyError ∧ connected uf x y = Raise KeyError.
Proof.
  intros Hwf Hxy. split.
  - unfold union. destruct (decide (x ∈ dom (parent uf))) as [Hx|Hx].
    + destruct (find_wf uf x Hwf Hx) as (r & uf' & F & _ & _ & _ & Hdom & _).
      rewrite F. simpl. rewrite find_absent; [done|]. rewrite Hdom. tauto.
    + by rewrite find_absent.
  - unfold connected. destruct (decide (x ∈ dom (parent uf))) as [Hx|Hx].
    + destruct (find_wf uf x Hwf Hx) as (r & uf' & F & _ & _ & _ & Hdom & _).
      rewrite F. simpl. rewrite find_absent; [done|]. rewrite Hdom. tauto.
    + by rewrite find_absent.
Qed.

(** X4. [union] and [connected] raise [KeyError] when one of their arguments
    is not an element of the structure, and so does [find]. *)
Theorem non_member_KeyError uf x y :
  wf uf → x ∉ dom (parent uf) ∨ y ∉ dom (parent uf) →
  union uf x y = Raise KeyError ∧ connected uf x y = Raise KeyError ∧
  (x ∉ dom (parent uf) → find uf x = Raise KeyError).
Proof.
  intros Hwf Hxy. destruct (non_member_KeyError_aux uf x y Hwf Hxy).
  split_and!; [done..|apply find_absent].
Qed.

(** X5. Path compression: after [find(x)], [x] and every node that was on its
    way to the root point at the root; no other parent and no rank changes. *)
Theorem find_compresses uf x :
  wf uf → x ∈ dom (parent uf) →
  ∃ r l uf',
    find uf x = Ok (r, uf') ∧ chain (parent uf) x l r ∧
    parent uf' !! x = Some r ∧
    (∀ z, z ∈ l → parent uf' !! z = Some r) ∧
    (∀ z, z ∉ l → parent uf' !! z = parent uf !! z) ∧
    rank uf' = rank uf.
Proof.
  intros [_ Hroot] Hx. destruct (Hroot x Hx) as (r & l & C).
  exists r, l, (compress r l uf). split; [by apply find_chain|]. split; [done|].
  split_and!.
  - rewrite lookup_compress. destruct C as [r Hr|x y l r Hxy Hne C].
    + by rewrite decide_False by apply not_elem_of_nil.
    + rewrite decide_True; [done|by left].
  - intros z Hz. by rewrite lookup_compress, decide_True.
  - intros z Hz. by rewrite lookup_compress, decide_False.
  - apply rank_compress.
Qed.

(** *** Ranks *)

Lemma ranked_init (elements : list node) : ranked (init elements).
Proof.
  intros x y Hxy Hne. rewrite lookup_init_parent in Hxy. case_decide; congruence.
Qed.

(** Along a chain the ranks grow up to the rank of the root. *)
Lemma chain_rank uf x l r :
  ranked uf → chain (parent uf) x l r →
  ∀ z, z ∈ l → ∃ kz kr, rank uf !! z = Some kz ∧ rank uf !! r = Some kr ∧ (kz < kr)%nat.
Proof.
  intros Hr C. induction C as [r Hroot|x y l r Hxy Hne C IH]; intros z Hz.
  { by apply elem_of_nil in Hz. }
  apply elem_of_cons in Hz as [->|Hz]; [|by apply IH].
  destruct (Hr x y Hxy Hne) as (kx & ky & Kx & Ky & Hlt).
  inversion C as [? Hroot|? y' l' ? Hy Hne' C']; subst.
  - by exists kx, ky.
  - destruct (IH y) as (ky' & kr & Ky' & Kr & Hlt'); [by left|].
    exists kx, kr. split; [done|]. split; [done|].
    assert (ky' = ky) by congruence. lia.
Qed.

Lemma chain_rank_sum uf x l r kx k :
  ranked uf → chain (parent uf) x l r →
  rank uf !! x = Some kx → rank uf !! r = Some k → (kx + length l ≤ k)%nat.
Proof.
  intros Hr C. revert kx. induction C as [r Hroot|x y l r Hxy Hne C IH]; intros kx Kx Kr.
  { simpl. assert (kx = k) by congruence. lia. }
  destruct (Hr x y Hxy Hne) as (kx' & ky & Kx' & Ky & Hlt).
  specialize (IH ky Ky Kr). assert (kx' = kx) by congruence. simpl. lia.
Qed.

(** The links from an element to its root are at most the rank of the root. *)
Lemma chain_length_rank uf x l r k :
  ranked uf → chain (parent uf) x l r → rank uf !! r = Some k → (length l ≤ k)%nat.
Proof.
  intros Hr C Kr. destruct C as [r Hroot|x y l r Hxy Hne C]; [simpl; lia|].
  destruct (Hr x y Hxy Hne) as (kx & ky & Kx & Ky & Hlt).
  pose proof (chain_rank_sum uf y l r ky k Hr C Ky Kr). simpl. lia.
Qed.

Lemma ranked_compress uf x l r :
  ranked uf → chain (parent uf) x l r → ranked (compress r l uf).
Proof.
  intros Hr C a b Hab Hne. rewrite rank_compress. rewrite lookup_compress in Hab.
  case_decide as Ha.
  - assert (b = r) as -> by congruence. by apply (chain_rank uf x l r Hr C).
  - by apply Hr.
Qed.

Lemma find_ranked uf x r uf' :
  wf uf → ranked uf → find uf x = Ok (r, uf') → ranked uf'.
Proof.
  intros Hwf Hr F. destruct (decide (x ∈ dom (parent uf))) as [Hx|Hx];
    [|by rewrite find_absent in F].
  destruct Hwf as [_ Hroot]. destruct (Hroot x Hx) as (r' & l & C).
  rewrite (find_chain uf x l r' C) in F. injection F as <- <-.
  by apply (ranked_compress uf x l r').
Qed.

Lemma union_ranked uf x y b uf' :
  wf uf → ranked uf → union uf x y = Ok (b, uf') → ranked uf'.
Proof.
  intros Hwf Hr U.
  destruct (decide (x ∈ dom (parent uf))) as [Hx|Hx];
    [|unfold union in U; by rewrite find_absent in U].
  destruct (find_wf uf x Hwf Hx) as (rx0 & uf0 & F0 & _ & Hwf0 & _ & Hdom0 & _).
  destruct (decide (y ∈ dom (parent uf))) as [Hy|Hy]; cycle 1.
  { unfold union in U. rewrite F0 in U. simpl in U.
    rewrite find_absent in U by (by rewrite Hdom0). done. }
  destruct (union_effect uf x y Hwf Hx Hy) as
    (rx & ry & kx & ky & uf1 & uf2 & F1 & F2 & Rx & Ry & Kx & Ky & Hwf2 & Hsame & U').
  assert (uf0 = uf1) as -> by congruence.
  pose proof (find_ranked _ _ _ _ Hwf0 (find_ranked _ _ _ _ Hwf Hr F1) F2) as Hr2.
  destruct Hsame as (Hrank & Hdom & Hroots). rewrite <- Hrank in Kx, Ky.
  assert (parent uf2 !! rx = Some rx) as Prx by (by eapply root_of_end, Hroots).
  assert (parent uf2 !! ry = Some ry) as Pry by (by eapply root_of_end, Hroots).
  rewrite U in U'. repeat case_decide; injection U' as -> ->; try done.
  - intros a c Hac Hne. cbn [set_parent parent rank] in *.
    destruct (decide (a = rx)) as [->|Ha].
    + rewrite lookup_insert_eq in Hac. injection Hac as <-. by exists kx, ky.
    + rewrite lookup_insert_ne in Hac by done. by apply Hr2.
  - intros a c Hac Hne. cbn [set_parent parent rank] in *.
    destruct (decide (a = ry)) as [->|Ha].
    + rewrite lookup_insert_eq in Hac. injection Hac as <-. by exists ky, kx.
    + rewrite lookup_insert_ne in Hac by done. by apply Hr2.
  - assert (ky = kx) as -> by lia.
    intros a c Hac Hne. cbn [set_rank set_parent parent rank] in *.
    destruct (decide (a = ry)) as [->|Ha].
    + rewrite lookup_insert_eq in Hac. injection Hac as <-.
      exists kx, (kx + 1)%nat. rewrite lookup_insert_ne by done.
      rewrite lookup_insert_eq. split_and!; [done..|lia].
    + rewrite lookup_insert_ne in Hac by done.
      destruct (Hr2 a c Hac Hne) as (ka & kc & Ka & Kc & Hlt).
      assert (a ≠ rx) as Harx by (intros ->; congruence).
      rewrite lookup_insert_ne by done. destruct (decide (c = rx)) as [->|Hc].
      * rewrite lookup_insert_eq. exists ka, (kx + 1)%nat.
        split_and!; [done..|]. assert (kc = kx) by congruence. lia.
      * rewrite lookup_insert_ne by done. by exists ka, kc.
Qed.

Lemma connected_ranked uf x y b uf' :
  wf uf → ranked uf → connected uf x y = Ok (b, uf') → ranked uf'.
Proof.
  intros Hwf Hr C0. unfold connected in C0.
  destruct (find uf x) as [[rx uf1]| |] eqn:F1; try done. simpl in C0.
  destruct (find uf1 y) as [[ry uf2]| |] eqn:F2; try done. simpl in C0.
  injection C0 as _ <-.
  assert (x ∈ dom (parent uf)) as Hx.
  { destruct (decide (x ∈ dom (parent uf))); [done|]. by rewrite find_absent in F1. }
  destruct (find_wf uf x Hwf Hx) as (rx0 & uf0 & F0 & _ & Hwf0 & _).
  assert (uf0 = uf1) as -> by congruence.
  exact (find_ranked _ _ _ _ Hwf0 (find_ranked _ _ _ _ Hwf Hr F1) F2).
Qed.

Lemma heavy_init (elements : list node) : heavy (init elements).
Proof.
  intros r k Hr Hk. exists {[r]}. split.
  - intros x. rewrite elem_of_singleton. split.
    + intros ->. by apply root_of_root.
    + intros [l C]. destruct C as [r Hroot|x y l r Hxy Hne C]; [done|].
      rewrite lookup_init_parent in Hxy. case_decide; congruence.
  - rewrite size_singleton.
    assert (k = 0%nat) as ->; [|simpl; lia].
    unfold init in Hk. cbn [rank] in Hk. apply elem_of_list_to_map_2 in Hk.
    apply list_elem_of_fmap in Hk as (z & Hz & _). congruence.
Qed.

Lemma heavy_same_sets uf uf' : heavy uf → same_sets uf uf' → heavy uf'.
Proof.
  intros Hh (Hrank & Hdom & Hroots) r k Hr Hk.
  assert (parent uf !! r = Some r) as Hr0.
  { eapply root_of_end, Hroots. by apply root_of_root. }
  rewrite Hrank in Hk. destruct (Hh r k Hr0 Hk) as (M & HM & Hsize).
  exists M. split; [|done]. intros x. by rewrite HM, Hroots.
Qed.

(** Hanging the root [a] under the root [b]. *)
Lemma heavy_link uf a b ka kb kb' rank' :
  wf uf → heavy uf →
  parent uf !! a = Some a → parent uf !! b = Some b → a ≠ b →
  rank uf !! a = Some ka → rank uf !! b = Some kb →
  (2 ^ kb' ≤ 2 ^ ka + 2 ^ kb)%nat →
  rank' !! b = Some kb' → (∀ z, z ≠ b → rank' !! z = rank uf !! z) →
  heavy (State (<[a := b]> (parent uf)) rank').
Proof.
  intros [Hd Hroot] Hh Pa Pb Hab Ka Kb Hpow Kb' Hother r k Hr Hk.
  cbn [parent rank] in *.
  assert (r ≠ a) as Hra by (intros ->; rewrite lookup_insert_eq in Hr; congruence).
  rewrite lookup_insert_ne in Hr by done.
  assert (∀ x r', root_of (<[a := b]> (parent uf)) x r' →
            ∃ r0, root_of (parent uf) x r0 ∧ r' = if decide (r0 = a) then b else r0) as Hback.
  { intros x r' Hx. assert (x ∈ dom (parent uf)) as Hdx.
    { apply root_of_dom in Hx. rewrite dom_insert_L in Hx.
      apply elem_of_union in Hx as [->%elem_of_singleton|]; [|done]. by eapply elem_of_dom_2. }
    destruct (Hroot x Hdx) as [r0 R0]. exists r0. split; [done|].
    eapply root_of_det; [exact Hx|]. by apply root_of_link. }
  destruct (decide (r = b)) as [->|Hrb].
  - assert (k = kb') as -> by congruence.
    destruct (Hh a ka Pa Ka) as (Ma & HMa & Hsa).
    destruct (Hh b kb Pb Kb) as (Mb & HMb & Hsb).
    exists (Ma ∪ Mb). split.
    + intros x. rewrite elem_of_union, HMa, HMb. split.
      * intros [Hx|Hx].
        -- pose proof (root_of_link _ a b x a Pa Pb Hab Hx) as Hl.
           by rewrite decide_True in Hl.
        -- pose proof (root_of_link _ a b x b Pa Pb Hab Hx) as Hl.
           by rewrite decide_False in Hl.
      * intros Hx. destruct (Hback x b Hx) as (r0 & R0 & E).
        case_decide; subst; [by left|by right].
    + rewrite size_union; [lia|]. intros x Hxa Hxb.
      apply HMa in Hxa. apply HMb in Hxb. apply Hab. by eapply root_of_det.
  - rewrite Hother in Hk by done. destruct (Hh r k Hr Hk) as (M & HM & Hs).
    exists M. split; [|done]. intros x. rewrite HM. split.
    + intros Hx. pose proof (root_of_link _ a b x r Pa Pb Hab Hx) as Hl.
      by rewrite decide_False in Hl.
    + intros Hx. destruct (Hback x r Hx) as (r0 & R0 & E).
      case_decide; subst; [done|done].
Qed.

Lemma union_heavy uf x y b uf' :
  wf uf → heavy uf → union uf x y = Ok (b, uf') → heavy uf'.
Proof.
  intros Hwf Hh U.
  destruct (decide (x ∈ dom (parent uf))) as [Hx|Hx];
    [|unfold union in U; by rewrite find_absent in U].
  destruct (find_wf uf x Hwf Hx) as (rx0 & uf0 & F0 & _ & Hwf0 & _ & Hdom0 & _).
  destruct (decide (y ∈ dom (parent uf))) as [Hy|Hy]; cycle 1.
  { unfold union in U. rewrite F0 in U. simpl in U.
    rewrite find_absent in U by (by rewrite Hdom0). done. }
  destruct (union_effect uf x y Hwf Hx Hy) as
    (rx & ry & kx & ky & uf1 & uf2 & F1 & F2 & Rx & Ry & Kx & Ky & Hwf2 & Hsame & U').
  pose proof (heavy_same_sets _ _ Hh Hsame) as Hh2.
  destruct Hsame as (Hrank & Hdom & Hroots). rewrite <- Hrank in Kx, Ky.
  assert (parent uf2 !! rx = Some rx) as Prx by (by eapply root_of_end, Hroots).
  assert (parent uf2 !! ry = Some ry) as Pry by (by eapply root_of_end, Hroots).
  rewrite U in U'. repeat case_decide; injection U' as -> ->; try done.
  - apply (heavy_link uf2 rx ry kx ky ky); try done. lia.
  - apply (heavy_link uf2 ry rx ky kx kx); try done. lia.
  - assert (ky = kx) as -> by lia.
    apply (heavy_link uf2 ry rx kx kx (kx + 1)); try done.
    + rewrite Nat.pow_add_r. simpl. lia.
    + simpl. apply lookup_insert_eq.
    + intros z Hz. simpl. by rewrite lookup_insert_ne.
Qed.

(** Every structure reached from a fresh one is well formed, ranked and
    heavy. *)
Lemma run_call_inv uf c uf' :
  wf uf → ranked uf → heavy uf → run_call uf c = Ok uf' →
  wf uf' ∧ ranked uf' ∧ heavy uf' ∧ dom (parent uf') = dom (parent uf).
Proof.
  intros Hwf Hr Hh R. destruct c as [x|x y|x y]; simpl in R.
  - destruct (find uf x) as [[r uf1]| |] eqn:F; try done. injection R as <-.
    assert (x ∈ dom (parent uf)) as Hx.
    { destruct (decide (x ∈ dom (parent uf))); [done|]. by rewrite find_absent in F. }
    destruct (find_wf uf x Hwf Hx) as (r0 & uf0 & F0 & _ & Hwf0 & Hsame).
    assert (uf0 = uf1) as -> by congruence. split; [done|].
    split; [exact (find_ranked _ _ _ _ Hwf Hr F)|]. split; [exact (heavy_same_sets _ _ Hh Hsame)|].
    by destruct Hsame as (_ & ? & _).
  - destruct (union uf x y) as [[b uf1]| |] eqn:U; try done. injection R as <-.
    destruct (union_wf _ _ _ _ _ Hwf U) as [Hwf1 Hdom1]. split; [done|].
    split; [exact (union_ranked _ _ _ _ _ Hwf Hr U)|]. split; [exact (union_heavy _ _ _ _ _ Hwf Hh U)|]. done.
  - destruct (connected uf x y) as [[b uf1]| |] eqn:C; try done. injection R as <-.
    assert (x ∈ dom (parent uf) ∧ y ∈ dom (parent uf)) as [Hx Hy].
    { destruct (decide (x ∈ dom (parent uf) ∧ y ∈ dom (parent uf))) as [|Hn]; [done|].
      apply not_and_l in Hn.
      destruct (non_member_KeyError_aux uf x y Hwf Hn) as [_ C']. congruence. }
    destruct (connected_effect uf x y Hwf Hx Hy) as
      (rx & ry & uf0 & uf2 & _ & _ & _ & _ & C' & Hrank & Hdom & Hroots & Hwf2).
    assert (uf2 = uf1) as -> by congruence. split; [done|].
    split; [exact (connected_ranked _ _ _ _ _ Hwf Hr C)|]. split; [|done].
    apply (heavy_same_sets uf); [done|]. by split.
Qed.

Lemma run_inv uf cs uf' :
  wf uf → ranked uf → heavy uf → run uf cs = Ok uf' →
  wf uf' ∧ ranked uf' ∧ heavy uf' ∧ dom (parent uf') = dom (parent uf).
Proof.
  revert uf. induction cs as [|c cs IH]; intros uf Hwf Hr Hh R.
  { simpl in R. injection R as <-. done. }
  simpl in R. destruct (run_call uf c) as [uf1| |] eqn:R1; try done. simpl in R.
  destruct (run_call_inv uf c uf1 Hwf Hr Hh R1) as (Hwf1 & Hr1 & Hh1 & Hd1).
  destruct (IH uf1 Hwf1 Hr1 Hh1 R) as (? & ? & ? & Hd). split_and!; [done..|congruence].
Qed.

(** X6. Union by rank keeps the trees shallow: in every structure reached
    from a fresh one by calls of [find], [union] and [connected], the links
    from an element to its root are at most the rank [k] of the root, and at
    least [2 ^ k] elements are in the structure; path lengths are therefore
    logarithmic in the number of elements. *)
Theorem rank_bounds_height (elements : list node) cs uf :
  run (init elements) cs = Ok uf →
  ∀ x l r, chain (parent uf) x l r →
    ∃ k, rank uf !! r = Some k ∧ (length l ≤ k)%nat ∧
         (2 ^ k ≤ size (dom (parent uf)))%nat.
Proof.
  intros R x l r C.
  destruct (run_inv _ _ _ (init_wf elements) (ranked_init elements)
              (heavy_init elements) R) as (Hwf & Hr & Hh & _).
  pose proof (chain_end_root _ _ _ _ C) as Proot.
  assert (is_Some (rank uf !! r)) as [k Hk].
  { apply elem_of_dom. destruct Hwf as [<- _]. by eapply elem_of_dom_2. }
  exists k. split; [done|]. split; [by eapply chain_length_rank|].
  destruct (Hh r k Proot Hk) as (M & HM & Hs).
  assert (size M ≤ size (dom (parent uf)))%nat; [|lia].
  apply subseteq_size. intros z Hz. apply HM in Hz. by eapply root_of_dom.
Qed.

End union_find_more.

Lemma union_merges_witness :
  UnionFind.wf uf_chain ∧ "D" ∈ dom (UnionFind.parent uf_chain) ∧
  "B" ∈ dom (UnionFind.parent uf_chain) ∧
  ∃ b uf',
    UnionFind.union uf_chain "D" "B" = Ok (b, uf') ∧
    UnionFind.wf uf' ∧ dom (UnionFind.parent uf') = dom (UnionFind.parent uf_chain) ∧
    (b = false ↔ UnionFind.same_set uf_chain "D" "B") ∧
    ∀ a c, a ∈ dom (UnionFind.parent uf_chain) → c ∈ dom (UnionFind.parent uf_chain) →
      UnionFind.same_set uf' a c ↔
      UnionFind.same_set uf_chain a c ∨
      (UnionFind.same_set uf_chain a "D" ∧ UnionFind.same_set uf_chain "B" c) ∨
      (UnionFind.same_set uf_chain a "B" ∧ UnionFind.same_set uf_chain "D" c).
Proof.
  assert (UnionFind.wf uf_chain) as Hwf by (apply wfb_wf; vm_compute; reflexivity).
  assert ("D" ∈ dom (UnionFind.parent uf_chain)) as HD by by_compute.
  assert ("B" ∈ dom (UnionFind.parent uf_chain)) as HB by by_compute.
  split_and!; [done..|]. exact (union_merges uf_chain "D" "B" Hwf HD HB).
Defined.

Lemma union_then_connected_witness :
  UnionFind.wf uf_chain ∧ "D" ∈ dom (UnionFind.parent uf_chain) ∧
  "B" ∈ dom (UnionFind.parent uf_chain) ∧
  ∃ b uf1 uf2, UnionFind.union uf_chain "D" "B" = Ok (b, uf1) ∧
               UnionFind.connected uf1 "D" "B" = Ok (true, uf2).
Proof.
  assert (UnionFind.wf uf_chain) as Hwf by (apply wfb_wf; vm_compute; reflexivity).
  assert ("D" ∈ dom (UnionFind.parent uf_chain)) as HD by by_compute.
  assert ("B" ∈ dom (UnionFind.parent uf_chain)) as HB by by_compute.
  split_and!; [done..|]. exact (union_then_connected uf_chain "D" "B" Hwf HD HB).
Defined.

Lemma non_member_KeyError_witness :
  UnionFind.wf uf_chain ∧
  ("D" ∉ dom (UnionFind.parent uf_chain) ∨ "Z" ∉ dom (UnionFind.parent uf_chain)) ∧
  UnionFind.union uf_chain "D" "Z" = Raise KeyError ∧
  UnionFind.connected uf_chain "D" "Z" = Raise KeyError ∧
  ("D" ∉ dom (UnionFind.parent uf_chain) → UnionFind.find uf_chain "D" = Raise KeyError).
Proof.
  assert (UnionFind.wf uf_chain) as Hwf by (apply wfb_wf; vm_compute; reflexivity).
  assert ("D" ∉ dom (UnionFind.parent uf_chain) ∨ "Z" ∉ dom (UnionFind.parent uf_chain))
    as HZ by (right; by_compute).
  split; [done|]. split; [done|].
  exact (non_member_KeyError uf_chain "D" "Z" Hwf HZ).
Defined.

Lemma find_compresses_witness :
  UnionFind.wf uf_chain ∧ "D" ∈ dom (UnionFind.parent uf_chain) ∧
  ∃ r l uf',
    UnionFind.find uf_chain "D" = Ok (r, uf') ∧
    UnionFind.chain (UnionFind.parent uf_chain) "D" l r ∧
    UnionFind.parent uf' !! "D" = Some r ∧
    (∀ z, z ∈ l → UnionFind.parent uf' !! z = Some r) ∧
    (∀ z, z ∉ l → UnionFind.parent uf' !! z = UnionFind.parent uf_chain !! z) ∧
    UnionFind.rank uf' = UnionFind.rank uf_chain.
Proof.
  assert (UnionFind.wf uf_chain) as Hwf by (apply wfb_wf; vm_compute; reflexivity).
  assert ("D" ∈ dom (UnionFind.parent uf_chain)) as HD by by_compute.
  split_and!; [done..|]. exact (find_compresses uf_chain "D" Hwf HD).
Defined.

Lemma rank_bounds_height_witness :
  UnionFind.run (UnionFind.init ["A"; "B"; "C"; "D"])
    [UnionFind.Union "A" "B"; UnionFind.Union "C" "D"; UnionFind.Connected "B" "D";
     UnionFind.Union "A" "C"] = Ok uf_chain ∧
  ∀ x l r, UnionFind.chain (UnionFind.parent uf_chain) x l r →
    ∃ k, UnionFind.rank uf_chain !! r = Some k ∧ (length l ≤ k)%nat ∧
         (2 ^ k ≤ size (dom (UnionFind.parent uf_chain)))%nat.
Proof.
  assert (UnionFind.run (UnionFind.init ["A"; "B"; "C"; "D"])
    [UnionFind.Union "A" "B"; UnionFind.Union "C" "D"; UnionFind.Connected "B" "D";
     UnionFind.Union "A" "C"] = Ok uf_chain) as Hrun by (vm_compute; reflexivity).
  split; [done|]. exact (rank_bounds_height _ _ _ Hrun).
Defined.

(** ** Kruskal: more properties *)

Section kruskal_more.
Context {node : Type} `{Countable node}.
Import Kruskal.
Implicit Types (e : node * node * Z) (es seen rest mst T : list (node * node * Z))
  (a b u v x y : node) (V : gset node) (uf : UnionFind.state node).



(** An edge count that matches the components leaves no room for a cycle. *)
Lemma count_no_cycle V mst l1 u v w l2 :
  (length mst + num_components V mst)%nat = size V →
  mst = l1 ++ (u, v, w) :: l2 → ¬ conn (l1 ++ l2) u v.
Proof.
  intros Hcount -> Hc.
  assert (l1 ++ (u, v, w) :: l2 ≡ₚ (u, v, w) :: (l1 ++ l2)) as Hp
    by (by rewrite Permutation_middle).
  rewrite (num_components_perm V _ _ Hp) in Hcount.
  assert (num_components V ((u, v, w) :: l1 ++ l2) = num_components V (l1 ++ l2)) as E.
  { apply Nat.le_antisymm; apply num_components_mono; intros a b _ _.
    - rewrite conn_cons. by left.
    - rewrite conn_cons. intros [?|[[? ?]|[? ?]]]; [done|..].
      + etrans; [done|]. etrans; [exact Hc|done].
      + etrans; [done|]. etrans; [symmetry; exact Hc|done]. }
  pose proof (num_components_app_le V (l1 ++ l2) []) as Hle.
  rewrite num_components_nil, app_nil_r in Hle.
  rewrite length_app in Hcount. simpl in Hcount. rewrite length_app in Hle. lia.
Qed.

(** X7. The edges [kruskal] returns form a forest: none of them joins two
    nodes that the others already connect; in particular none joins a node to
    itself. *)
Theorem kruskal_forest (nodes : list node) (edges : list (node * node * Z)) :
  edges_in nodes edges = true →
  ∃ mst total,
    kruskal nodes edges = Ok (mst, total) ∧
    (∀ l1 u v w l2, mst = l1 ++ (u, v, w) :: l2 → ¬ conn (l1 ++ l2) u v) ∧
    (∀ u w, (u, u, w) ∉ mst).
Proof.
  intros Hin. destruct (kruskal_post nodes edges Hin) as (mst & K & P).
  exists mst, (sum_weights mst). split; [done|].
  pose proof (post_count_all _ _ _ P) as Hcount.
  assert (∀ l1 u v w l2, mst = l1 ++ (u, v, w) :: l2 → ¬ conn (l1 ++ l2) u v) as Hforest.
  { intros l1 u v w l2. by apply (count_no_cycle (list_to_set nodes)). }
  split; [done|]. intros u w (l1 & l2 & E)%list_elem_of_split.
  by apply (Hforest l1 u u w l2 E).
Qed.

(** The loop appends to the accepted edges some of the remaining edges, in
    their order. *)
Lemma loop_sublist n rest :
  ∀ uf mst mst', loop n rest uf mst = Ok mst' →
    ∃ acc, mst' = mst ++ acc ∧ acc `sublist_of` rest.
Proof.
  induction rest as [|[[u v] w] rest IH]; intros uf mst mst' L; simpl in L.
  { injection L as <-. exists []. by rewrite app_nil_r. }
  destruct (UnionFind.connected uf u v) as [[c uf1]| |]; try done. simpl in L.
  destruct c.
  - destruct (IH _ _ _ L) as (acc & -> & Hs). exists acc. split; [done|].
    by apply sublist_cons.
  - destruct (UnionFind.union uf1 u v) as [[c2 uf2]| |]; try done. simpl in L.
    case_decide.
    + injection L as <-. exists [(u, v, w)]. split; [done|].
      apply sublist_skip, sublist_nil_l.
    + destruct (IH _ _ _ L) as (acc & -> & Hs). exists ((u, v, w) :: acc).
      split; [by rewrite <- app_assoc|]. by apply sublist_skip.
Qed.

Lemma ascending_sublist es es' : es `sublist_of` es' → ascending es' → ascending es.
Proof.
  unfold ascending. induction 1 as [|x l1 l2 Hs IH|x l1 l2 Hs IH]; intros Ha.
  - constructor.
  - apply StronglySorted_inv in Ha as [Ha Hx]. constructor; [by apply IH|].
    rewrite Forall_forall in *. intros e He. apply Hx. by eapply elem_of_sublist.
  - apply StronglySorted_inv in Ha as [Ha Hx]. by apply IH.
Qed.

(** X8. [kruskal] returns the accepted edges in the order in which the
    sorted list holds them: by non-decreasing weight and, among edges of the
    same weight, in the order of the input. *)
Theorem kruskal_ascending (nodes : list node) (edges : list (node * node * Z)) :
  edges_in nodes edges = true →
  ∃ mst total,
    kruskal nodes edges = Ok (mst, total) ∧
    mst `sublist_of` sorted edges ∧ ascending mst.
Proof.
  intros Hin. destruct (kruskal_post nodes edges Hin) as (mst & K & _).
  exists mst, (sum_weights mst). split; [done|].
  unfold kruskal in K.
  destruct (loop (length nodes) (sorted edges) (UnionFind.init nodes) []) as [m| |] eqn:L;
    try done.
  simpl in K. assert (m = mst) as -> by congruence.
  destruct (loop_sublist _ _ _ _ _ L) as (acc & -> & Hs). simpl.
  split; [done|]. eapply ascending_sublist; [done|]. apply sorted_ascending.
Qed.

Lemma inside_spec (nodes : list node) u v w :
  inside nodes (u, v, w) = true ↔ u ∈ nodes ∧ v ∈ nodes.
Proof.
  unfold inside. simpl. rewrite andb_true_iff, !bool_decide_eq_true. done.
Qed.

Lemma edges_in_false (nodes : list node) edges :
  edges_in nodes edges = false →
  ∃ u v w, (u, v, w) ∈ edges ∧ ¬ (u ∈ nodes ∧ v ∈ nodes).
Proof.
  unfold edges_in. induction edges as [|[[u v] w] edges IH]; [done|]. simpl.
  intros [Hh|Ht]%andb_false_iff.
  - exists u, v, w. split; [by left|]. intros [Hu Hv].
    apply andb_false_iff in Hh as [Hf|Hf]; apply bool_decide_eq_false in Hf; done.
  - destruct (IH Ht) as (u' & v' & w' & Hin & Hbad). exists u', v', w'.
    split; [by right|done].
Qed.

(** The loop stops at the first edge with an end that is not a node, unless
    the edges before it have connected all the nodes. *)
Lemma loop_raises V n (G : list (node * node * Z)) rest :
  ∀ seen uf mst,
    (size V ≤ n)%nat → num_components V G ≠ 1%nat →
    ascending rest → inv V seen rest uf mst →
    (∀ e, e ∈ seen → e ∈ G) →
    (∀ u v w, (u, v, w) ∈ rest → u ∈ V → v ∈ V → (u, v, w) ∈ G) →
    (∃ u v w, (u, v, w) ∈ rest ∧ ¬ (u ∈ V ∧ v ∈ V)) →
    loop n rest uf mst = Raise KeyError.
Proof.
  induction rest as [|[[u v] w] rest IH]; intros seen uf mst Hn HG Hasc I Hseen Hrest Hbad.
  { destruct Hbad as (? & ? & ? & Hin & _). by apply elem_of_nil in Hin. }
  pose proof (inv_match _ _ _ _ _ I) as M. simpl.
  destruct (decide (u ∈ V ∧ v ∈ V)) as [[Hu Hv]|Hout]; cycle 1.
  { destruct M as (Hwf & Hdom & _). apply not_and_l in Hout. rewrite <- Hdom in Hout.
    destruct (non_member_KeyError_aux uf u v Hwf Hout) as [_ ->]. done. }
  assert (ascending rest) as Hasc' by (by apply StronglySorted_inv in Hasc as [? _]).
  assert (∃ u' v' w', (u', v', w') ∈ rest ∧ ¬ (u' ∈ V ∧ v' ∈ V)) as Hbad'.
  { destruct Hbad as (u' & v' & w' & Hin & Hb). exists u', v', w'. split; [|done].
    apply elem_of_cons in Hin as [E|Hin]; [|done]. injection E as -> -> ->. tauto. }
  assert (∀ e, e ∈ seen ++ [(u, v, w)] → e ∈ G) as Hseen'.
  { intros e [He|He]%elem_of_app; [by apply Hseen|].
    apply list_elem_of_singleton in He as ->. apply Hrest; [by left|done..]. }
  assert (∀ u' v' w', (u', v', w') ∈ rest → u' ∈ V → v' ∈ V → (u', v', w') ∈ G) as Hrest'.
  { intros u' v' w' Hin. apply Hrest. by right. }
  destruct (sets_match_connected V uf mst u v M Hu Hv) as (c & uf1 & C & Hc & M1).
  rewrite C. simpl. destruct c.
  - apply (IH (seen ++ [(u, v, w)])); try done.
    apply (kruskal_inv_reject V seen rest uf); [done| |done]. by apply Hc.
  - assert (¬ conn mst u v) as Hnc by (intros ?%Hc; done).
    destruct (sets_match_union V uf1 mst u v w M1 Hu Hv) as (c2 & uf2 & U & M2).
    rewrite U. simpl.
    pose proof (kruskal_inv_accept V seen rest uf uf2 mst u v w I Hasc Hu Hv Hnc M2) as I2.
    case_decide as Hbreak; [|by apply (IH (seen ++ [(u, v, w)]))].
    exfalso. apply HG.
    pose proof (inv_count_all _ _ _ _ _ I2).
    pose proof (num_components_pos V (mst ++ [(u, v, w)]) u Hu).
    pose proof (num_components_pos V G u Hu).
    assert (num_components V G ≤ 1)%nat; [|lia].
    apply num_components_connected. intros a b Ha Hb.
    apply (conn_mono (mst ++ [(u, v, w)])).
    + intros e He. apply Hseen'.
      eapply elem_of_submseteq; [exact He|]. apply (inv_sub _ _ _ _ _ I2).
    + apply (num_components_one V); [lia|done..].
Qed.

(** X9. When some edge has an end that is not in the node list, and the
    edges between listed nodes do not connect them into a single component,
    [kruskal] raises [KeyError]. *)
Theorem kruskal_KeyError (nodes : list node) (edges : list (node * node * Z)) :
  edges_in nodes edges = false →
  num_components (list_to_set nodes) (filter (λ e, inside nodes e = true) edges) ≠ 1%nat →
  kruskal nodes edges = Raise KeyError.
Proof.
  intros Hin HG. unfold kruskal.
  rewrite (loop_raises (list_to_set nodes) (length nodes)
             (filter (λ e, inside nodes e = true) edges) (sorted edges) []
             (UnionFind.init nodes) []); [done|..].
  - apply size_list_to_set_le.
  - done.
  - apply sorted_ascending.
  - apply kruskal_inv_init.
  - intros e He. by apply elem_of_nil in He.
  - intros u v w He Hu Hv. rewrite (sorted_perm edges) in He.
    apply list_elem_of_filter. split; [|done]. apply inside_spec.
    split; by apply (elem_of_list_to_set (C := gset node)).
  - destruct (edges_in_false nodes edges Hin) as (u & v & w & He & Hbad).
    exists u, v, w. split; [by rewrite (sorted_perm edges)|].
    by rewrite !(elem_of_list_to_set (C := gset node)).
Qed.

End kruskal_more.

Lemma kruskal_forest_witness :
  Kruskal.edges_in ["A"; "B"; "C"] triangle_edges = true ∧
  ∃ mst total,
    Kruskal.kruskal ["A"; "B"; "C"] triangle_edges = Ok (mst, total) ∧
    (∀ l1 u v w l2, mst = l1 ++ (u, v, w) :: l2 → ¬ Kruskal.conn (l1 ++ l2) u v) ∧
    (∀ u w, (u, u, w) ∉ mst).
Proof.
  assert (Kruskal.edges_in ["A"; "B"; "C"] triangle_edges = true) as Hin
    by (vm_compute; reflexivity).
  split; [done|]. exact (kruskal_forest ["A"; "B"; "C"] triangle_edges Hin).
Defined.

Lemma kruskal_ascending_witness :
  Kruskal.edges_in ["A"; "B"; "C"] triangle_edges = true ∧
  ∃ mst total,
    Kruskal.kruskal ["A"; "B"; "C"] triangle_edges = Ok (mst, total) ∧
    mst `sublist_of` Kruskal.sorted triangle_edges ∧ Kruskal.ascending mst.
Proof.
  assert (Kruskal.edges_in ["A"; "B"; "C"] triangle_edges = true) as Hin
    by (vm_compute; reflexivity).
  split; [done|]. exact (kruskal_ascending ["A"; "B"; "C"] triangle_edges Hin).
Defined.

Lemma kruskal_KeyError_witness :
  Kruskal.edges_in ["A"; "B"; "C"] [("A", "B", 1); ("B", "Z", 2)] = false ∧
  Kruskal.num_components (list_to_set ["A"; "B"; "C"])
    (filter (λ e, Kruskal.inside ["A"; "B"; "C"] e = true)
            [("A", "B", 1); ("B", "Z", 2)]) ≠ 1%nat ∧
  Kruskal.kruskal ["A"; "B"; "C"] [("A", "B", 1); ("B", "Z", 2)] = Raise KeyError.
Proof.
  assert (Kruskal.edges_in ["A"; "B"; "C"] [("A", "B", 1); ("B", "Z", 2)] = false) as Hin
    by (vm_compute; reflexivity).
  assert (Kruskal.num_components (list_to_set ["A"; "B"; "C"])
    (filter (λ e, Kruskal.inside ["A"; "B"; "C"] e = true)
            [("A", "B", 1); ("B", "Z", 2)]) ≠ 1%nat) as HG by by_compute.
  split_and!; [done..|].
  exact (kruskal_KeyError ["A"; "B"; "C"] [("A", "B", 1); ("B", "Z", 2)] Hin HG).
Defined.

(** ** Bellman-Ford on weights of any sign *)

Section bellman_ford_general.
Context {node : Type} `{Countable node}.
Import BellmanFord.
Implicit Types (g : graph node) (start u v x y : node)
  (dist : gmap node distance) (prev : gmap node (option node))
  (edges : list (node * node * Z)).

(** Paths compose. *)
Lemma path_app g s ns x d ns' y d' :
  path g s ns x d → path g x ns' y d' → ∃ ns'', path g s ns'' y (d + d').
Proof.
  intros P Q. induction Q as [|ns' z d' nbrs y w Q IH Hg Hin].
  - exists ns. by rewrite Z.add_0_r.
  - destruct IH as [ns'' P']. exists (ns'' ++ [y]). rewrite Z.add_assoc.
    exact (path_step _ _ _ _ _ _ _ _ P' Hg Hin).
Qed.

(** A path splits at each of its nodes. *)
Lemma path_split g s ns v d x :
  path g s ns v d → x ∈ ns →
  ∃ ns1 d1 ns2 d2, path g s ns1 x d1 ∧ path g x ns2 v d2 ∧ d = d1 + d2 ∧
                   ns1 `prefix_of` ns.
Proof.
  intros P. induction P as [|ns y d nbrs v w P IH Hg Hin]; intros Hx.
  - apply list_elem_of_singleton in Hx as ->. exists [s], 0, [s], 0.
    split_and!; [constructor|constructor|done|done].
  - apply elem_of_app in Hx as [Hx|Hx].
    + destruct (IH Hx) as (ns1 & d1 & ns2 & d2 & P1 & P2 & -> & Hpre).
      exists ns1, d1, (ns2 ++ [v]), (d2 + w). split; [done|].
      split; [exact (path_step _ _ _ _ _ _ _ _ P2 Hg Hin)|].
      split; [lia|by apply prefix_app_r].
    + apply list_elem_of_singleton in Hx as ->.
      exists (ns ++ [v]), (d + w), [v], 0.
      split; [exact (path_step _ _ _ _ _ _ _ _ P Hg Hin)|].
      split; [constructor|]. split; [lia|done].
Qed.

(** A path can be cut down to a simple one that is not heavier, unless it
    goes round a cycle of negative weight. *)
Lemma path_simple_or_cycle g s ns v d :
  path g s ns v d →
  (∃ ns' d', path g s ns' v d' ∧ NoDup ns' ∧ d' ≤ d) ∨ negative_cycle g s.
Proof.
  intros P. induction P as [|ns y d nbrs v w P IH Hg Hin].
  - left. exists [s], 0. split; [constructor|]. split; [apply NoDup_singleton|done].
  - destruct IH as [(ns' & d' & P' & Hnd & Hle)|Hcyc]; [|by right].
    destruct (decide (v ∈ ns')) as [Hv|Hv].
    + destruct (path_split _ _ _ _ _ _ P' Hv) as (ns1 & d1 & ns2 & d2 & P1 & P2 & -> & [k ->]).
      destruct (decide (d2 + w < 0)) as [Hneg|Hpos].
      * right. exists v, ns1, d1, (ns2 ++ [v]), (d2 + w).
        split; [done|]. split; [|done]. exact (path_step _ _ _ _ _ _ _ _ P2 Hg Hin).
      * left. exists ns1, d1. split; [done|].
        split; [by apply NoDup_app in Hnd as [? _]|lia].
    + left. exists (ns' ++ [v]), (d' + w).
      split; [exact (path_step _ _ _ _ _ _ _ _ P' Hg Hin)|]. split; [|lia].
      apply NoDup_app. split; [done|]. split; [|apply NoDup_singleton].
      intros z Hz ->%list_elem_of_singleton. done.
Qed.

(** The tables of [bellman_ford] on a closed graph, given all its edges. *)
Lemma bellman_ford_general g edges start :
  closedb g = true → start ∈ dom g →
  (list_to_set edges : gset (node * node * Z)) = list_to_set (edge_list g) →
  ∃ dist prev flag,
    bellman_ford g edges start = Ok (dist, prev, flag) ∧
    dom dist = dom g ∧
    (∀ v d, dist !! v = Some (Fin d) → ∃ ns, path g start ns v d) ∧
    (flag = true → negative_cycle g start) ∧
    (flag = false →
       ∀ v ns d, path g start ns v d → ∃ dv, dist !! v = Some (Fin dv) ∧ dv ≤ d).
Proof.
  intros Hc Hs Hset.
  assert (∀ e, e ∈ edges ↔ e ∈ edge_list g) as Hedges.
  { intros e. by rewrite <- !(elem_of_list_to_set (C := gset (node * node * Z))), Hset. }
  assert (graph_edges g edges) as Hge.
  { intros u v w Hin. by apply elem_of_edge_list, Hedges. }
  assert (dom (init g start).1 = dom g) as Hdom0.
  { rewrite dom_init. set_solver. }
  destruct (passes_within (λ _ _, false) g start edges (size g - 1) 0 (init g start).1 (init g start).2)
    as (dist & prev & P & Hdom & Hach & Hw); try done.
  { intros e. apply Hedges. }
  { apply achieved_init. }
  { apply within_init. }
  rewrite <- surjective_pairing in P.
  assert (edges_in g start edges = true) as Hin.
  { unfold edges_in. apply forallb_forall. intros [[u v] w] He.
    apply list_elem_of_In, Hge in He as (nbrs & Hg & Hnb).
    apply andb_true_iff. split; apply bool_decide_eq_true, elem_of_union; right.
    - by eapply elem_of_dom_2.
    - exact (closedb_closed _ _ _ _ _ Hc Hg Hnb). }
  destruct (bellman_ford_flag_iff g edges start Hin) as (dist' & prev' & flag & P' & B & Hiff).
  assert (dist' = dist ∧ prev' = prev) as [-> ->] by (split; congruence).
  assert (0 < size g)%nat as Hsize.
  { rewrite <- size_dom. by eapply size_elem_of_pos. }
  exists dist, prev, flag. split; [done|]. split; [done|]. split; [done|]. split.
  - intros Hflag. destruct (proj1 Hiff Hflag) as (u & v & w & du & dv & He & Hdu & Hdv & Hlt).
    destruct (Hge u v w He) as (nbrs & Hg & Hnb).
    destruct (Hach u du Hdu) as [ns Pu].
    pose proof (path_step _ _ _ _ _ _ _ _ Pu Hg Hnb) as Pv.
    destruct (path_simple_or_cycle _ _ _ _ _ Pv) as [(ns' & d' & P2 & Hnd & Hle)|?]; [|done].
    exfalso. pose proof (simple_path_length _ _ _ _ _ Hc Hs P2 Hnd) as Hlen.
    destruct (Hw v ns' d' P2) as (dv' & Hdv' & ?); [lia|].
    assert (dv = Fin dv') as -> by congruence. simpl in Hlt.
    apply bool_decide_eq_true in Hlt. lia.
  - intros Hflag v ns d Pv. induction Pv as [|ns x d nbrs v w Pv IH Hg Hnb].
    + apply (Hw start [start] 0); [constructor|simpl; lia].
    + destruct IH as (dx & Hdx & Hle).
      assert (v ∈ dom dist) as [dv Hdv]%elem_of_dom.
      { rewrite Hdom. exact (closedb_closed _ _ _ _ _ Hc Hg Hnb). }
      assert ((x, v, w) ∈ edges) as He by (apply Hedges, elem_of_edge_list; eauto).
      destruct dv as [dv|].
      * exists dv. split; [done|]. destruct (decide (dx + w < dv)) as [Hlt|?]; [|lia].
        assert (flag = true); [|congruence]. apply Hiff.
        exists x, v, w, dx, (Fin dv). split_and!; [done..|]. by apply bool_decide_eq_true.
      * assert (flag = true); [|congruence]. apply Hiff.
        by exists x, v, w, dx, Inf.
Qed.

(** X10. On a closed graph, given all its edges, of any weights:
    [bellman_ford] reports a negative cycle exactly when a cycle of negative
    weight can be reached from the source. *)
Theorem bellman_ford_negative_cycle g edges start :
  closedb g = true → start ∈ dom g →
  (list_to_set edges : gset (node * node * Z)) = list_to_set (edge_list g) →
  ∃ dist prev flag,
    bellman_ford g edges start = Ok (dist, prev, flag) ∧
    (flag = true ↔ negative_cycle g start).
Proof.
  intros Hc Hs Hset.
  destruct (bellman_ford_general g edges start Hc Hs Hset)
    as (dist & prev & flag & B & Hdom & Hach & Htrue & Hfalse).
  exists dist, prev, flag. split; [done|]. split; [done|].
  intros (u & ns & d & ns' & c & Pu & Pc & Hneg). destruct flag; [done|]. exfalso.
  destruct (Hfalse eq_refl u ns d Pu) as (du & Hdu & _).
  destruct (Hach u du Hdu) as [ns0 P0].
  destruct (path_app _ _ _ _ _ _ _ _ P0 Pc) as [ns1 P1].
  destruct (Hfalse eq_refl u ns1 (du + c) P1) as (du' & Hdu' & ?).
  assert (du' = du) by congruence. lia.
Qed.

(** X11. When [bellman_ford] reports no negative cycle, its distances are
    exact, whatever the signs of the weights: the entry of a node that the
    source reaches is the weight of a path and no path, simple or not, is
    lighter; the entry of any other node is [inf]. *)
Theorem bellman_ford_exact g edges start :
  closedb g = true → start ∈ dom g →
  (list_to_set edges : gset (node * node * Z)) = list_to_set (edge_list g) →
  ∃ dist prev flag,
    bellman_ford g edges start = Ok (dist, prev, flag) ∧
    (flag = false →
       (∀ v, reachable g start v →
          ∃ d, dist !! v = Some (Fin d) ∧ (∃ ns, path g start ns v d) ∧
               ∀ ns' d', path g start ns' v d' → d ≤ d') ∧
       (∀ v, v ∈ dom g → ¬ reachable g start v → dist !! v = Some Inf)).
Proof.
  intros Hc Hs Hset.
  destruct (bellman_ford_general g edges start Hc Hs Hset)
    as (dist & prev & flag & B & Hdom & Hach & Htrue & Hfalse).
  exists dist, prev, flag. split; [done|]. intros Hflag. split.
  - intros v (ns & d & Pv). destruct (Hfalse Hflag v ns d Pv) as (dv & Hdv & _).
    exists dv. split; [done|]. split; [by apply Hach|].
    intros ns' d' P'. destruct (Hfalse Hflag v ns' d' P') as (dv' & Hdv' & ?).
    assert (dv' = dv) by congruence. lia.
  - intros v Hv Hnot. rewrite <- Hdom in Hv. apply elem_of_dom in Hv as [[d|] Hd]; [|done].
    exfalso. apply Hnot. destruct (Hach v d Hd) as [ns Pv]. by exists ns, d.
Qed.

End bellman_ford_general.

Lemma bellman_ford_negative_cycle_witness :
  closedb neg_cycle_graph = true ∧ "A" ∈ dom neg_cycle_graph ∧
  (list_to_set neg_cycle_edges : gset (string * string * Z))
    = list_to_set (edge_list neg_cycle_graph) ∧
  ∃ dist prev flag,
    BellmanFord.bellman_ford neg_cycle_graph neg_cycle_edges "A" = Ok (dist, prev, flag) ∧
    (flag = true ↔ BellmanFord.negative_cycle neg_cycle_graph "A").
Proof.
  assert (closedb neg_cycle_graph = true) as Hc by (vm_compute; reflexivity).
  assert ("A" ∈ dom neg_cycle_graph) as Hs by by_compute.
  assert ((list_to_set neg_cycle_edges : gset (string * string * Z))
          = list_to_set (edge_list neg_cycle_graph)) as He by by_compute.
  split_and!; [done..|].
  exact (bellman_ford_negative_cycle neg_cycle_graph neg_cycle_edges "A" Hc Hs He).
Defined.

Lemma bellman_ford_exact_witness :
  closedb neg_edge_graph = true ∧ "A" ∈ dom neg_edge_graph ∧
  (list_to_set neg_edge_edges : gset (string * string * Z))
    = list_to_set (edge_list neg_edge_graph) ∧
  ∃ dist prev flag,
    BellmanFord.bellman_ford neg_edge_graph neg_edge_edges "A" = Ok (dist, prev, flag) ∧
    (flag = false →
       (∀ v, reachable neg_edge_graph "A" v →
          ∃ d, dist !! v = Some (Fin d) ∧ (∃ ns, path neg_edge_graph "A" ns v d) ∧
               ∀ ns' d', path neg_edge_graph "A" ns' v d' → d ≤ d') ∧
       (∀ v, v ∈ dom neg_edge_graph → ¬ reachable neg_edge_graph "A" v →
          dist !! v = Some Inf)).
Proof.
  assert (closedb neg_edge_graph = true) as Hc by (vm_compute; reflexivity).
  assert ("A" ∈ dom neg_edge_graph) as Hs by by_compute.
  assert ((list_to_set neg_edge_edges : gset (string * string * Z))
          = list_to_set (edge_list neg_edge_graph)) as He by by_compute.
  split_and!; [done..|].
  exact (bellman_ford_exact neg_edge_graph neg_edge_edges "A" Hc Hs He).
Defined.

(** The graph with a negative edge: no cycle is reported and [C] is at
    distance 1, through [B]. *)
Example bellman_ford_neg_edge :
  ∃ dist prev,
    BellmanFord.bellman_ford neg_edge_graph neg_edge_edges "A" = Ok (dist, prev, false) ∧
    dist !! "C" = Some (Fin 1) ∧ prev !! "C" = Some (Some "B").
Proof. eexists _, _. split_and!; vm_compute; reflexivity. Qed.

(** ** Dijkstra: the predecessor tree *)

Section predecessor_facts.
Context {node : Type} `{Countable node}.
Implicit Types (g : graph node) (start u v x y : node)
  (dist : gmap node distance) (prev : gmap node (option node)) (ns : list node).

Lemma descends_insert prev start u ns v p :
  descends prev start u ns → v ∉ ns → descends (<[v := p]> prev) start u ns.
Proof.
  intros D. induction D as [Hs|u ns y D IH Hy]; intros Hv.
  - constructor. rewrite lookup_insert_ne; [done|]. intros ->. apply Hv. by left.
  - apply not_elem_of_app in Hv as [Hv Hy'].
    apply (descends_step _ _ u); [by apply IH|]. rewrite lookup_insert_ne; [done|].
    intros ->. apply Hy'. by left.
Qed.

Lemma descends_last prev start v ns : descends prev start v ns → v ∈ ns.
Proof. intros [?|u ns' y D Hy]; [by left|]. apply elem_of_app. right. by left. Qed.

(** In linked tables a chain of predecessors is a path of the graph, of the
    weight that the table gives, and [reconstruct_path] returns it. *)
Lemma linked_reconstruct g start dist prev v ns :
  linked g start dist prev → descends prev start v ns →
  ∀ dv, dist !! v = Some (Fin dv) →
    path g start ns v dv ∧
    ∀ fuel acc, (length ns ≤ fuel)%nat →
      reconstruct_loop fuel prev acc (Some v) = Ok (ns ++ reverse acc).
Proof.
  intros (Hps & Hds & Hlink) D. induction D as [Hs|u ns v D IH Hv]; intros dv Hdv.
  - assert (dv = 0) as -> by congruence. split; [constructor|].
    intros fuel acc Hf. destruct fuel as [|fuel]; [simpl in Hf; lia|]. simpl.
    rewrite (subscript_Some _ _ _ Hs). simpl. destruct fuel; simpl; by rewrite reverse_snoc.
  - assert (v ≠ start) as Hne by (intros ->; congruence).
    destruct (Hlink v dv Hdv Hne) as (u' & du & w & nbrs & Hv' & Hdu & Hg & Hin & ->).
    assert (u' = u) as -> by congruence.
    destruct (IH du Hdu) as [P R]. split; [exact (path_step _ _ _ _ _ _ _ _ P Hg Hin)|].
    intros fuel acc Hf. rewrite length_app in Hf. simpl in Hf.
    destruct fuel as [|fuel]; [lia|]. simpl.
    rewrite (subscript_Some _ _ _ Hv). simpl. rewrite R by lia.
    by rewrite reverse_snoc, <- app_assoc.
Qed.

End predecessor_facts.

Section dijkstra_paths.
Context {node : Type} `{Countable node}.
Variable node_ltb : node → node → bool.
Import Dijkstra.
Implicit Types (g : graph node) (start u v x y : node) (st : state node).

Lemma dijkstra_tree_init g start : start ∈ dom g → tree g start (init g start).
Proof.
  intros [nbrs Hg]%elem_of_dom.
  assert (∀ v dv, dist (init g start) !! v = Some (Fin dv) → v ≠ start → False) as Hfin.
  { intros v dv Hv Hne. simpl in Hv. rewrite lookup_insert_ne, lookup_fmap in Hv by done.
    destruct (g !! v); by simplify_eq/=. }
  split.
  - split; [simpl; by rewrite lookup_fmap, Hg|]. split; [simpl; by rewrite lookup_insert_eq|].
    intros v dv Hv Hne. by destruct (Hfin v dv Hv Hne).
  - intros v dv Hv Hne. by destruct (Hfin v dv Hv Hne).
  - by right.
  - intros u Hu. by apply not_elem_of_empty in Hu.
Qed.

Lemma dijkstra_tree_pop_stale g start st d u heap' :
  tree g start st → (d, u) ∈ heap st → u ∈ visited st →
  tree g start (State (dist st) (prev st) heap' (visited st)).
Proof.
  intros T Hin Hu. destruct T as [T1 T2 T3 T4]. split; simpl; try done.
  left. destruct T3 as [?|E]; [done|]. rewrite E in Hin.
  apply list_elem_of_singleton in Hin. by injection Hin as -> ->.
Qed.

Lemma dijkstra_tree_pop_visit g start st d u heap' :
  tree g start st → (d, u) ∈ heap st → u ∉ visited st →
  dist st !! u = Some (Fin d) →
  tree g start (State (dist st) (prev st) heap' ({[u]} ∪ visited st)) ∧
  start ∈ {[u]} ∪ visited st.
Proof.
  intros T Hin Hu Hd. destruct T as [T1 T2 T3 T4].
  assert (start ∈ {[u]} ∪ visited st) as Hs.
  { destruct T3 as [?|E]; [set_solver|]. rewrite E in Hin.
    apply list_elem_of_singleton in Hin. injection Hin as -> ->. set_solver. }
  split; [|done]. split; simpl; try done.
  - intros v dv Hv Hne. destruct (T2 v dv Hv Hne) as (p & Hp & Hpv). exists p.
    split; [done|set_solver].
  - by left.
  - intros x [->%elem_of_singleton|Hx]%elem_of_union.
    + destruct (decide (u = start)) as [->|Hne].
      * exists [start]. split; [constructor; by destruct T1|].
        split; [apply NoDup_singleton|]. intros x ->%list_elem_of_singleton. set_solver.
      * destruct (T2 u d Hd Hne) as (p & Hp & Hpv).
        destruct (T4 p Hpv) as (ns & D & Hnd & Hsub). exists (ns ++ [u]).
        split; [by apply (descends_step _ _ p)|]. split.
        -- apply NoDup_app. split; [done|]. split; [|apply NoDup_singleton].
           intros z Hz ->%list_elem_of_singleton. by apply Hsub in Hz.
        -- intros z [Hz| ->%list_elem_of_singleton]%elem_of_app; [|set_solver].
           apply Hsub in Hz. set_solver.
    + destruct (T4 x Hx) as (ns & D & Hnd & Hsub). exists ns.
      split; [done|]. split; [done|]. intros z Hz. apply Hsub in Hz. set_solver.
Qed.

(** Step 4 keeps the tree. *)
Lemma dijkstra_tree_relax g start u du todo :
  ∀ done st st',
    g !! u = Some (done ++ todo) → start ∈ visited st →
    u ∈ visited st → dist st !! u = Some (Fin du) →
    tree g start st → relax_edges du u todo st = Ok st' →
    tree g start st' ∧ visited st' = visited st.
Proof.
  induction todo as [|[v w] todo IH]; intros done st st' Hg Hs Hu Hdu T R.
  { simpl in R. by injection R as <-. }
  assert (g !! u = Some ((done ++ [(v, w)]) ++ todo)) as Hg' by (by rewrite <- app_assoc).
  assert ((v, w) ∈ done ++ (v, w) :: todo) as Hin.
  { apply elem_of_app. right. by left. }
  simpl in R. case_decide as Hv; [by apply (IH (done ++ [(v, w)]) st)|].
  destruct (subscript (dist st) v) as [dv| |] eqn:Hdv; try done. simpl in R.
  destruct (lt_distance (du + w) dv) eqn:Hlt; [|by apply (IH (done ++ [(v, w)]) st)].
  assert (v ≠ start) as Hvs by (intros ->; done).
  assert (v ≠ u) as Hvu by (intros ->; done).
  apply (IH (done ++ [(v, w)]) _ st' Hg') with (5 := R); simpl; [done|done| |].
  - by rewrite lookup_insert_ne.
  - destruct T as [(T1a & T1b & T1c) T2 T3 T4]. split; simpl.
    + split; [by rewrite lookup_insert_ne|]. split; [by rewrite lookup_insert_ne|].
      intros y dy Hy Hne. destruct (decide (y = v)) as [->|Hyv].
      * rewrite lookup_insert_eq in Hy. injection Hy as <-.
        exists u, du, w, (done ++ (v, w) :: todo). rewrite lookup_insert_eq.
        rewrite lookup_insert_ne by done. done.
      * rewrite lookup_insert_ne in Hy by done.
        destruct (T1c y dy Hy Hne) as (p & dp & w' & nbrs & Hp & Hdp & Hgp & Hnb & ->).
        destruct (T2 y (dp + w') Hy Hne) as (p' & Hp' & Hpv).
        assert (p' = p) as -> by congruence.
        assert (p ≠ v) by (intros ->; done).
        exists p, dp, w', nbrs. rewrite !lookup_insert_ne by done. done.
    + intros y dy Hy Hne. destruct (decide (y = v)) as [->|Hyv].
      * exists u. by rewrite lookup_insert_eq.
      * rewrite lookup_insert_ne in Hy by done. rewrite lookup_insert_ne by done.
        by apply (T2 y dy).
    + by left.
    + intros x Hx. destruct (T4 x Hx) as (ns & D & Hnd & Hsub). exists ns.
      split; [|done]. apply descends_insert; [done|]. intros Hvn. by apply Hsub in Hvn.
Qed.

(** The loop leaves linked tables in which every finite entry has a chain of
    predecessors to the source. *)
Lemma dijkstra_loop_tree g start fuel :
  ∀ st dist prev,
    closedb g = true → nonnegb g = true →
    inv g start (edges_from g (visited st)) st → tree g start st →
    loop node_ltb fuel g st = Ok (dist, prev) →
    linked g start dist prev ∧
    ∀ v dv, dist !! v = Some (Fin dv) → ∃ ns, descends prev start v ns ∧ NoDup ns.
Proof.
  induction fuel as [|fuel IH]; intros st dist0 prev0 Hc Hn I T L; [done|].
  simpl in L.
  destruct (heappop (entry_ltb node_ltb) (heap st)) as [[[d u] heap']|] eqn:Hpop; cycle 1.
  { apply heappop_None in Hpop. injection L as <- <-. split; [by destruct T|].
    intros v dv Hv. destruct (decide (v ∈ visited st)) as [Hvis|Hvis].
    - destruct (tree_chain _ _ _ T v Hvis) as (ns & D & Hnd & _). by exists ns.
    - pose proof (inv_queued _ _ _ _ I v dv Hvis Hv) as Hq. rewrite Hpop in Hq.
      by apply elem_of_nil in Hq. }
  pose proof Hpop as [Hin Hperm]%heappop_Some.
  case_decide as Hu.
  - apply (IH _ _ _ Hc Hn) with (3 := L).
    + exact (dijkstra_inv_pop_stale g start st d u heap' I Hperm Hu).
    + exact (dijkstra_tree_pop_stale g start st d u heap' T Hin Hu).
  - destruct (dijkstra_inv_pop_visit node_ltb g start st d u heap' Hn I Hpop Hu)
      as ([nbrs Hg]%elem_of_dom & Hd & I1).
    destruct (dijkstra_tree_pop_visit g start st d u heap' T Hin Hu Hd) as [T1 Hs].
    rewrite (subscript_Some _ _ _ Hg) in L. simpl in L.
    destruct (relax_edges_inv node_ltb g start u d nbrs []
                (State (dist st) (prev st) heap' ({[u]} ∪ visited st)))
      as (st' & R & I' & Hvis & Hlen'); simpl; try done.
    { set_solver. }
    rewrite R in L. simpl in L.
    destruct (dijkstra_tree_relax g start u d nbrs []
                (State (dist st) (prev st) heap' ({[u]} ∪ visited st)) st')
      as [T' _]; simpl; try done.
    { set_solver. }
    simpl in I', Hvis. apply (IH _ _ _ Hc Hn) with (3 := L); [|done].
    rewrite Hvis. eapply dijkstra_inv_weaken; [|exact I'].
    intros x v w [Hx (nb & Hgx & Hnb)]. destruct (decide (x = u)) as [->|Hne].
    + right. split; [done|]. congruence.
    + left. split; [done|]. split; eauto.
Qed.

(** X12. On a graph with non-negative weights, [reconstruct_path] on the
    predecessor table of [dijkstra] returns, for every node that the source
    reaches, a simple path from the source to that node whose weight is the
    distance in the table, the least there is; for a node of the graph that
    the source does not reach it returns the node alone. *)
Theorem dijkstra_reconstruct g start :
  closedb g = true → nonnegb g = true → start ∈ dom g →
  ∃ dist prev,
    dijkstra node_ltb g start = Ok (dist, prev) ∧
    (∀ v, reachable g start v →
       ∃ ns d, dist !! v = Some (Fin d) ∧ path g start ns v d ∧ NoDup ns ∧
               shortest g start v d ∧
               ∀ fuel, (length ns ≤ fuel)%nat → reconstruct_path fuel prev v = Ok ns) ∧
    (∀ v, v ∈ dom g → ¬ reachable g start v →
       ∀ fuel, (0 < fuel)%nat → reconstruct_path fuel prev v = Ok [v]).
Proof.
  intros Hc Hn Hs.
  destruct (dijkstra_tables node_ltb g start Hc Hn Hs)
    as (dist & prev & D & Hdom & Hreach & Hunreach).
  destruct (dijkstra_loop_tree g start _ (init g start) dist prev Hc Hn
              (dijkstra_inv_init node_ltb g start Hs) (dijkstra_tree_init g start Hs) D)
    as [Hlinked Hchain].
  exists dist, prev. split; [done|]. split.
  - intros v Hv. destruct (Hreach v Hv) as (d & Hd & Hshort).
    destruct (Hchain v d Hd) as (ns & Hdesc & Hnd).
    destruct (linked_reconstruct g start dist prev v ns Hlinked Hdesc d Hd) as [P R].
    exists ns, d. split_and!; [done..|]. intros fuel Hf.
    change (reconstruct_loop fuel prev [] (Some v) = Ok ns).
    rewrite R by done. by rewrite app_nil_r.
  - intros v Hv Hnr fuel Hf. destruct (Hunreach v Hv Hnr) as [_ Hp].
    destruct fuel as [|fuel]; [lia|].
    change (reconstruct_loop (S fuel) prev [] (Some v) = Ok [v]). simpl.
    rewrite (subscript_Some _ _ _ Hp). simpl. by destruct fuel.
Qed.

End dijkstra_paths.

Lemma dijkstra_reconstruct_witness :
  closedb triangle = true ∧ nonnegb triangle = true ∧ "A" ∈ dom triangle ∧
  ∃ dist prev,
    Dijkstra.dijkstra String.ltb triangle "A" = Ok (dist, prev) ∧
    (∀ v, reachable triangle "A" v →
       ∃ ns d, dist !! v = Some (Fin d) ∧ path triangle "A" ns v d ∧ NoDup ns ∧
               shortest triangle "A" v d ∧
               ∀ fuel, (length ns ≤ fuel)%nat → Dijkstra.reconstruct_path fuel prev v = Ok ns) ∧
    (∀ v, v ∈ dom triangle → ¬ reachable triangle "A" v →
       ∀ fuel, (0 < fuel)%nat → Dijkstra.reconstruct_path fuel prev v = Ok [v]).
Proof.
  assert (closedb triangle = true) as Hc by (vm_compute; reflexivity).
  assert (nonnegb triangle = true) as Hn by (vm_compute; reflexivity).
  assert ("A" ∈ dom triangle) as Hs by by_compute.
  split_and!; [done..|].
  exact (dijkstra_reconstruct String.ltb triangle "A" Hc Hn Hs).
Defined.

(** Scenario 1: the path to [C] goes through [B]. *)
Example dijkstra_triangle_path :
  ∃ dist prev,
    Dijkstra.dijkstra String.ltb triangle "A" = Ok (dist, prev) ∧
    Dijkstra.reconstruct_path 3 prev "C" = Ok ["A"; "B"; "C"].
Proof. eexists _, _. split; vm_compute; reflexivity. Qed.

(** ** Nodes that are not in the graph *)

Section absent_start.
Context {node : Type} `{Countable node}.
Variable node_ltb : node → node → bool.
Implicit Types (g : graph node) (start u v : node).

Lemma heappop_singleton {E : Type} `{EqDecision E} (ltb : E → E → bool) (x : E) :
  heappop ltb [x] = Some (x, []).
Proof. unfold heappop. simpl. by rewrite decide_True. Qed.

(** X13. [dijkstra] raises [KeyError] when the start node is not a node of
    the graph: the assignment [dist[start] = 0] passes, the lookup
    [graph[start]] of the first iteration does not. *)
Theorem dijkstra_start_absent g start :
  start ∉ dom g → Dijkstra.dijkstra node_ltb g start = Raise KeyError.
Proof.
  intros Hs%not_elem_of_dom. unfold Dijkstra.dijkstra.
  change (2 + num_edges g)%nat with (S (S (num_edges g))).
  cbn [Dijkstra.loop Dijkstra.init Dijkstra.heap Dijkstra.visited Dijkstra.dist
       Dijkstra.prev].
  rewrite heappop_singleton. rewrite decide_False by apply not_elem_of_empty. simpl.
  by rewrite (subscript_None _ _ Hs).
Qed.

(** X14. [prim] from a start node that is not a node of the graph raises
    [KeyError], except on the empty graph, where the loop is not entered and
    the result is the empty tree of weight 0. *)
Theorem prim_start_absent g start :
  start ∉ dom g →
  Prim.prim node_ltb g start =
    if decide (size g = 0%nat) then Ok ([], 0) else Raise KeyError.
Proof.
  intros Hs%not_elem_of_dom. unfold Prim.prim.
  change (2 + num_edges g)%nat with (S (S (num_edges g))).
  cbn [Prim.loop Prim.heap Prim.in_mst Prim.mst_edges].
  rewrite heappop_singleton. rewrite size_empty.
  destruct (decide (size g = 0%nat)) as [E|E].
  - rewrite decide_False by lia. done.
  - rewrite decide_True by lia. rewrite decide_False by apply not_elem_of_empty.
    simpl. by rewrite (subscript_None _ _ Hs).
Qed.

End absent_start.

Section bellman_ford_errors.
Context {node : Type} `{Countable node}.
Import BellmanFord.
Implicit Types (g : graph node) (start u v : node).

Lemma relax_cases (dist : gmap node distance) (prev : gmap node (option node))
    (e : node * node * Z) :
  relax (dist, prev) e = Raise KeyError ∨
  ∃ dist' prev', relax (dist, prev) e = Ok (dist', prev') ∧ dom dist' = dom dist.
Proof.
  destruct e as [[u v] w]. unfold relax, relaxable. cbn beta iota.
  destruct (dist !! u) as [[du|]|] eqn:Hu.
  - rewrite (subscript_Some _ _ _ Hu). simpl.
    destruct (dist !! v) as [dv|] eqn:Hv.
    + rewrite (subscript_Some _ _ _ Hv). simpl. right.
      destruct (lt_distance (du + w) dv); simpl.
      * eexists _, _. split; [done|].
        rewrite dom_insert_L. apply elem_of_dom_2 in Hv. set_solver.
      * by eexists _, _.
    + rewrite (subscript_None _ _ Hv). by left.
  - rewrite (subscript_Some _ _ _ Hu). simpl. right. by eexists _, _.
  - rewrite (subscript_None _ _ Hu). by left.
Qed.

Lemma relax_all_raises edges :
  ∀ (dist : gmap node distance) (prev : gmap node (option node)) u v w,
    (u, v, w) ∈ edges → u ∉ dom dist →
    relax_all edges (dist, prev) = Raise KeyError.
Proof.
  induction edges as [|e edges IH]; intros dist prev u v w Hin Hu.
  { by apply elem_of_nil in Hin. }
  rewrite relax_all_cons. apply elem_of_cons in Hin as [<-|Hin].
  - unfold relax, relaxable. apply not_elem_of_dom in Hu.
    by rewrite (subscript_None _ _ Hu).
  - destruct (relax_cases dist prev e) as [->|(dist' & prev' & -> & Hdom)]; [done|].
    simpl. apply (IH dist' prev' u v w Hin). by rewrite Hdom.
Qed.

(** X15. [bellman_ford] raises [KeyError] when the graph has two nodes or
    more and some edge in the list starts at a node that is neither a node of
    the graph nor the start node. *)
Theorem bellman_ford_KeyError g edges start u v w :
  (u, v, w) ∈ edges → u ∉ {[start]} ∪ dom g → (2 ≤ size g)%nat →
  bellman_ford g edges start = Raise KeyError.
Proof.
  intros Hin Hu Hsize. unfold bellman_ford.
  destruct (size g - 1)%nat as [|n] eqn:E; [lia|].
  rewrite passes_S. unfold init.
  rewrite (relax_all_raises edges _ _ u v w Hin); [done|].
  by rewrite dom_insert_L, dom_fmap_L.
Qed.

End bellman_ford_errors.

Lemma dijkstra_start_absent_witness :
  ("Z" ∉ dom triangle) ∧ Dijkstra.dijkstra String.ltb triangle "Z" = Raise KeyError.
Proof.
  assert ("Z" ∉ dom triangle) as Hs by by_compute.
  split; [done|]. exact (dijkstra_start_absent String.ltb triangle "Z" Hs).
Defined.

Lemma prim_start_absent_witness :
  ("Z" ∉ dom triangle) ∧
  Prim.prim String.ltb triangle "Z" =
    if decide (size triangle = 0%nat) then Ok ([], 0) else Raise KeyError.
Proof.
  assert ("Z" ∉ dom triangle) as Hs by by_compute.
  split; [done|]. exact (prim_start_absent String.ltb triangle "Z" Hs).
Defined.

Lemma bellman_ford_KeyError_witness :
  ("Z", "A", 1) ∈ [("A", "B", 1); ("Z", "A", 1)] ∧
  ("Z" ∉ {[ "A" ]} ∪ dom triangle) ∧ (2 ≤ size triangle)%nat ∧
  BellmanFord.bellman_ford triangle [("A", "B", 1); ("Z", "A", 1)] "A" = Raise KeyError.
Proof.
  assert (("Z", "A", 1) ∈ [("A", "B", 1); ("Z", "A", 1)]) as Hin by by_compute.
  assert ("Z" ∉ {[ "A" ]} ∪ dom triangle) as Hu by by_compute.
  assert (2 ≤ size triangle)%nat as Hsize by (vm_compute; lia).
  split_and!; [done..|].
  exact (bellman_ford_KeyError triangle _ "A" "Z" "A" 1 Hin Hu Hsize).
Defined.

(** ** Prim: the tree is a minimum spanning tree *)

Section exchange.
Context {node : Type} `{Countable node}.
Import Kruskal.
Implicit Types (e f : node * node * Z) (es T X R : list (node * node * Z))
  (a b p u v x y : node) (tree : gset node).

Lemma sum_weights_perm es es' : es ≡ₚ es' → sum_weights es = sum_weights es'.
Proof.
  induction 1 as [|e l l' _ IH|e e' l|l1 l2 l3 _ IH1 _ IH2].
  - done.
  - by rewrite !sum_weights_cons, IH.
  - rewrite !sum_weights_cons. lia.
  - congruence.
Qed.

Lemma cons_submseteq_notin e (l k : list (node * node * Z)) :
  e ∈ k → e ∉ l → l ⊆+ k → e :: l ⊆+ k.
Proof.
  intros (k' & Hk)%elem_of_Permutation Hl Hsub. rewrite Hk in Hsub |- *.
  apply submseteq_skip. apply submseteq_cons_r in Hsub as [?|(l' & Hp & _)]; [done|].
  destruct Hl. rewrite Hp. by left.
Qed.

Lemma conn_dec es a b : Decision (conn es a b).
Proof.
  destruct (decide (label es a = label es b)) as [E|E].
  - left. by apply label_conn.
  - right. by rewrite <- label_conn.
Defined.

(** Edges that do not cross the cut connect nodes of the same side. *)
Lemma conn_same_side tree R a b :
  (∀ e, e ∈ R → ¬ crossing tree e) → conn R a b → a ∈ tree ↔ b ∈ tree.
Proof.
  intros HR Hc. induction Hc as [|x y z Hxy _ IH]; [done|]. rewrite <- IH.
  destruct Hxy as [[w Hw]|[w Hw]]; apply HR in Hw; unfold crossing in Hw; simpl in Hw;
    destruct (decide (x ∈ tree)), (decide (y ∈ tree)); tauto.
Qed.

(** Adding the edges of [X] one at a time, one of them is the first to
    connect [p] and [u]. *)
Lemma find_bridge R p u X :
  conn (X ++ R) p u → ¬ conn R p u →
  ∃ X1 f X2, X = X1 ++ f :: X2 ∧ ¬ conn (X2 ++ R) p u ∧ conn (f :: X2 ++ R) p u.
Proof.
  induction X as [|f X IH]; intros Hc Hn; [done|].
  destruct (conn_dec (X ++ R) p u) as [Hc'|Hn'].
  - destruct (IH Hc' Hn) as (X1 & f' & X2 & -> & ? & ?).
    by exists (f :: X1), f', X2.
  - by exists [], f, X.
Qed.

(** The exchange step: a spanning tree without the lightest edge [e] across
    a cut gives one up an edge across the cut for [e], and is no lighter for
    it. *)
Lemma exchange (nodes : list node) es T tree p u wt :
  spanning_tree nodes es T →
  p ∈ nodes → u ∈ nodes → p ∈ tree → u ∉ tree →
  (p, u, wt) ∈ es → (p, u, wt) ∉ T →
  (∀ f, f ∈ T → crossing tree f → wt ≤ weight f) →
  ∃ f Z, T ≡ₚ f :: Z ∧ crossing tree f ∧
         spanning_tree nodes es ((p, u, wt) :: Z) ∧
         sum_weights ((p, u, wt) :: Z) ≤ sum_weights T.
Proof.
  intros (Hsub & Hlen & Hconn) Hp Hu Hpt Hut He HeT Hmin.
  set (X := filter (crossing tree) T). set (R := filter (λ f, ¬ crossing tree f) T).
  assert (X ++ R ≡ₚ T) as Hperm by apply filter_app_complement.
  assert (conn (X ++ R) p u) as Hc.
  { apply (conn_perm T); [done|]. by apply Hconn. }
  assert (¬ conn R p u) as Hn.
  { intros Hc'. apply Hut. apply (conn_same_side tree R p u); [|done..].
    intros f Hf. by apply list_elem_of_filter in Hf as [? _]. }
  destruct (find_bridge R p u X Hc Hn) as (X1 & f & X2 & EX & Hn2 & Hc2).
  assert (f ∈ X) as Hf by (rewrite EX; apply elem_of_app; right; by left).
  apply list_elem_of_filter in Hf as [Hcross HfT].
  set (Z := X1 ++ X2 ++ R).
  assert (T ≡ₚ f :: Z) as HT.
  { rewrite <- Hperm, EX. unfold Z. rewrite <- app_assoc. simpl.
    by rewrite <- Permutation_middle. }
  assert (∀ a b, conn (X2 ++ R) a b → conn ((p, u, wt) :: Z) a b) as Hup.
  { intros a b. apply conn_mono. intros e' He'. right. unfold Z.
    apply elem_of_app. by right. }
  assert (conn ((p, u, wt) :: Z) p u) as Hpu by (apply (conn_edge _ p u wt); by left).
  exists f, Z. split; [done|]. split; [done|]. split.
  - split; [|split].
    + apply cons_submseteq_notin; [done| |].
      * intros HeZ. apply HeT. rewrite HT. by right.
      * etrans; [|exact Hsub]. rewrite HT. by apply submseteq_cons.
    + rewrite <- Hlen. apply Permutation_length in HT. simpl in *. lia.
    + intros a b Ha Hb. apply (conn_sub T); [|by apply Hconn].
      intros x y w Hxy. rewrite HT in Hxy. apply elem_of_cons in Hxy as [<-|Hxy].
      * apply conn_cons in Hc2 as [?|[[Hpx Hyu]|[Hpy Hxu]]]; [done|..].
        -- etrans; [symmetry; by apply Hup|]. etrans; [exact Hpu|]. symmetry. by apply Hup.
        -- etrans; [by apply Hup|]. etrans; [symmetry; exact Hpu|]. by apply Hup.
      * apply (conn_edge _ x y w). by right.
  - rewrite (sum_weights_perm T (f :: Z) HT), !sum_weights_cons.
    specialize (Hmin f HfT Hcross). unfold weight at 1. simpl. lia.
Qed.

End exchange.

Section prim_mst.
Context {node : Type} `{Countable node}.
Variable node_ltb : node → node → bool.
Import Prim.
Implicit Types (g : graph node) (start u v p : node) (st : state node)
  (T : list (node * node * Z)).

(** The entry that [heappop] returns has the least weight of the heap. *)
Lemma prim_least_weight (h : list (Z * node * option node)) m h' :
  heappop (entry_ltb node_ltb) h = Some (m, h') → ∀ y, y ∈ h → m.1.1 ≤ y.1.1.
Proof.
  destruct h as [|x h]; [done|]. unfold heappop. intros [= <- _] y Hy.
  apply (least_bound _ (λ a b, a.1.1 ≤ b.1.1)); try done.
  - intros. lia.
  - intros a b. unfold entry_ltb, pair_ltb.
    rewrite !orb_true_iff, !andb_true_iff. lia.
  - intros a b. unfold entry_ltb, pair_ltb. rewrite !orb_false_iff. lia.
Qed.

Lemma symmetricb_sym g u v w :
  symmetricb g = true → (u, v, w) ∈ edge_list g → (v, u, w) ∈ edge_list g.
Proof.
  unfold symmetricb. rewrite forallb_forall. intros Hall Hin.
  apply list_elem_of_In, Hall in Hin. by apply bool_decide_eq_true in Hin.
Qed.

Lemma prim_grow_init g start : prim_grow g (State ∅ [] [(0, start, None)]).
Proof.
  split; simpl.
  - intros a nbrs v w Ha. by apply not_elem_of_empty in Ha.
  - intros a b w Hin. by apply elem_of_nil in Hin.
  - intros T HT. exists T. split; [done|]. split; [apply submseteq_nil_l|done].
Qed.

Lemma prim_grow_stale g st weight u parent heap' :
  prim_grow g st → heap st ≡ₚ (weight, u, parent) :: heap' → u ∈ in_mst st →
  prim_grow g (State (in_mst st) (mst_edges st) heap').
Proof.
  intros G Hperm Hu. destruct G as [G1 G2 G3]. split; simpl; try done.
  intros a nbrs v w Ha Hg Hnb Hv. specialize (G1 a nbrs v w Ha Hg Hnb Hv).
  rewrite Hperm in G1. apply elem_of_cons in G1 as [Heq|?]; [|done].
  injection Heq as -> -> ->. done.
Qed.

Lemma prim_grow_visit g start st weight u parent heap' nbrs :
  closedb g = true → symmetricb g = true → start ∈ dom g →
  inv g start st → prim_grow g st →
  heappop (entry_ltb node_ltb) (heap st) = Some ((weight, u, parent), heap') →
  u ∉ in_mst st → g !! u = Some nbrs →
  prim_grow g
    (State ({[u]} ∪ in_mst st)
           (match parent with
            | Some p => mst_edges st ++ [(p, u, weight)]
            | None => mst_edges st
            end)
           (push_edges u ({[u]} ∪ in_mst st) nbrs heap')).
Proof.
  intros Hc Hsym Hs I G Hpop Hu Hg.
  pose proof (prim_least_weight _ _ _ Hpop) as Hmin. simpl in Hmin.
  apply heappop_Some in Hpop as [Hin Hperm].
  destruct G as [G1 G2 G3]. split; simpl.
  - intros a nb v w Ha Hga Hnb Hv. apply elem_of_push_edges.
    apply elem_of_union in Ha as [->%elem_of_singleton|Ha].
    + right. exists v, w. assert (nb = nbrs) as -> by congruence. done.
    + left. assert (v ∉ in_mst st) as Hv' by set_solver.
      specialize (G1 a nb v w Ha Hga Hnb Hv'). rewrite Hperm in G1.
      apply elem_of_cons in G1 as [Heq|?]; [|done]. injection Heq as -> -> ->. set_solver.
  - intros a b w Hab. destruct parent as [p|].
    + apply elem_of_app in Hab as [Hab|Hab].
      * destruct (G2 a b w Hab). set_solver.
      * apply list_elem_of_singleton in Hab. injection Hab as -> -> ->.
        destruct (inv_heap_edge _ _ _ I _ _ _ Hin) as [Hp _]. set_solver.
    + destruct (G2 a b w Hab). set_solver.
  - destruct parent as [p|]; [|done]. intros T HT.
    destruct (G3 T HT) as (T' & HT' & Hsub & Hle).
    destruct (inv_heap_edge _ _ _ I _ _ _ Hin) as (Hp & nbp & Hgp & Hnbp).
    assert ((p, u, weight) ∈ edge_list g) as He by (apply elem_of_edge_list; eauto).
    assert ((p, u, weight) ∉ mst_edges st) as HeF.
    { intros HeF. by apply G2 in HeF as [_ ?]. }
    assert (∀ f, f ∈ mst_edges st → ¬ crossing (in_mst st) f) as Hinside.
    { intros [[a b] w] Hf Hcross. destruct (G2 a b w Hf) as [Ha Hb].
      unfold crossing in Hcross. simpl in Hcross. tauto. }
    destruct (decide ((p, u, weight) ∈ T')) as [HeT|HeT].
    { exists T'. split; [done|]. split; [|done].
      rewrite <- Permutation_cons_append. by apply cons_submseteq_notin. }
    destruct (exchange (elements (dom g)) (edge_list g) T' (in_mst st) p u weight)
      as (f & Z & HTZ & Hcross & HZ & HleZ); try done.
    { apply elem_of_elements. by apply (inv_dom _ _ _ I). }
    { apply elem_of_elements. by eapply elem_of_dom_2. }
    { intros [[x y] wf] Hf Hcr. destruct HT' as (HsubT & _ & _).
      assert ((x, y, wf) ∈ edge_list g) as Hfe by (by eapply elem_of_submseteq).
      unfold Kruskal.weight. simpl. destruct Hcr as [[Hx Hy]|[Hx Hy]]; simpl in Hx, Hy.
      - apply elem_of_edge_list in Hfe as (nb & Hgx & Hnb).
        exact (Hmin _ (G1 x nb y wf Hx Hgx Hnb Hy)).
      - apply (symmetricb_sym _ _ _ _ Hsym), elem_of_edge_list in Hfe as (nb & Hgy & Hnb).
        exact (Hmin _ (G1 y nb x wf Hy Hgy Hnb Hx)). }
    exists ((p, u, weight) :: Z). split; [done|]. split; [|lia].
    rewrite <- Permutation_cons_append. apply submseteq_skip.
    rewrite HTZ in Hsub. apply submseteq_cons_r in Hsub as [?|(l' & Hp' & _)]; [done|].
    destruct (Hinside f); [|done]. rewrite Hp'. by left.
Qed.

(** The loop keeps [prim_grow]. *)
Lemma prim_loop_grow g start fuel :
  ∀ st st',
    closedb g = true → symmetricb g = true → start ∈ dom g →
    inv g start st → prim_grow g st →
    loop node_ltb fuel g st = Ok st' → prim_grow g st'.
Proof.
  induction fuel as [|fuel IH]; intros st st' Hc Hsym Hs I G L; [done|].
  simpl in L. destruct (heappop (entry_ltb node_ltb) (heap st))
    as [[[[weight u] parent] heap']|] eqn:Hpop; cycle 1.
  { by injection L as <-. }
  pose proof Hpop as [Hin Hperm]%heappop_Some.
  case_decide as Hsize; cycle 1.
  { by injection L as <-. }
  case_decide as Hu.
  - apply (IH _ _ Hc Hsym Hs) with (3 := L).
    + by eapply prim_inv_stale.
    + by eapply prim_grow_stale.
  - destruct (prim_popped_node _ _ _ _ _ _ Hc Hs I Hin) as [[nbrs Hg]%elem_of_dom _].
    rewrite (subscript_Some _ _ _ Hg) in L. simpl in L.
    apply (IH _ _ Hc Hsym Hs) with (3 := L).
    + by eapply (prim_inv_visit node_ltb).
    + by eapply prim_grow_visit.
Qed.

(** In a graph with its edges in both directions, nodes that edges connect,
    whatever their direction, reach each other. *)
Lemma conn_reachable g a b :
  closedb g = true → symmetricb g = true → a ∈ dom g →
  Kruskal.conn (edge_list g) a b → reachable g a b.
Proof.
  intros Hc Hsym Ha Hconn.
  assert (∀ x y, reachable g a x → Kruskal.conn (edge_list g) x y → reachable g a y) as Hgen.
  { intros x y Hx Hxy. induction Hxy as [|x y z Hxy _ IH]; [done|]. apply IH.
    destruct Hxy as [[w Hw]|[w Hw]].
    - apply elem_of_edge_list in Hw as (nb & Hg & Hnb). by eapply reachable_step.
    - apply (symmetricb_sym _ _ _ _ Hsym), elem_of_edge_list in Hw as (nb & Hg & Hnb).
      by eapply reachable_step. }
  apply (Hgen a b); [apply reachable_refl|done].
Qed.

(** What [prim] returns on an undirected graph that has a spanning tree. *)
Lemma prim_spanning g start T :
  closedb g = true → symmetricb g = true → start ∈ dom g →
  Kruskal.spanning_tree (elements (dom g)) (edge_list g) T →
  ∃ edges,
    prim node_ltb g start = Ok (edges, sum_weights edges) ∧
    Kruskal.spanning_tree (elements (dom g)) (edge_list g) edges ∧
    sum_weights edges ≤ sum_weights T.
Proof.
  intros Hc Hsym Hs HT.
  destruct (prim_loop_returns node_ltb g start (2 + num_edges g)
              (State ∅ [] [(0, start, None)]) Hc Hs) as (st & L & I & Hall).
  { apply prim_inv_init. }
  { simpl. rewrite pending_empty. lia. }
  pose proof (prim_loop_grow g start _ _ _ Hc Hsym Hs (prim_inv_init g start)
                (prim_grow_init g start) L) as G.
  exists (mst_edges st). split; [unfold prim; by rewrite L|].
  destruct (grow_safe _ _ G T HT) as (T' & HT' & Hsub & Hle).
  assert (in_mst st = dom g) as Hdom.
  { apply set_eq. intros v. split; [apply (inv_dom _ _ _ I)|]. intros Hv.
    apply Hall. apply conn_reachable; [done..|].
    destruct HT as (HsubT & _ & Hconn).
    apply (conn_mono T); [intros e He; by eapply elem_of_submseteq|].
    apply Hconn; by apply elem_of_elements. }
  assert (S (length (mst_edges st)) = size (dom g)) as Hlen.
  { rewrite <- Hdom.
    assert (in_mst st = {[start]} ∪ list_to_set (targets (mst_edges st))) as ->.
    { apply set_eq. intros v. rewrite elem_of_union, elem_of_singleton, elem_of_list_to_set.
      rewrite (inv_targets _ _ _ I). rewrite Hdom. destruct (decide (v = start)); naive_solver. }
    rewrite size_union, size_singleton, size_list_to_set by
      (first [by destruct I | intros v ->%elem_of_singleton [_ ?]%elem_of_list_to_set%(inv_targets _ _ _ I); done]).
    unfold targets. by rewrite length_fmap. }
  assert (mst_edges st ≡ₚ T') as Hperm.
  { apply submseteq_length_Permutation; [done|]. destruct HT' as (_ & HlenT & _).
    rewrite list_to_set_elements_L in HlenT. lia. }
  split; [|by rewrite (sum_weights_perm _ _ Hperm)].
  destruct HT' as (HsubT & HlenT & HconnT). split; [by rewrite Hperm|].
  split; [by rewrite (Permutation_length Hperm)|].
  intros a b Ha Hb. apply (conn_perm T'); [done|]. by apply HconnT.
Qed.

(** X16. On an undirected graph (every edge listed in both directions),
    [prim] returns a minimum spanning tree whenever the graph has a spanning
    tree at all: its edges form a spanning tree and their total weight, which
    is the total returned, is at most that of every spanning tree. *)
Theorem prim_minimum g start :
  closedb g = true → symmetricb g = true → start ∈ dom g →
  ∃ edges total,
    prim node_ltb g start = Ok (edges, total) ∧
    total = sum_weights edges ∧
    ∀ T, Kruskal.spanning_tree (elements (dom g)) (edge_list g) T →
         Kruskal.spanning_tree (elements (dom g)) (edge_list g) edges ∧
         total ≤ sum_weights T.
Proof.
  intros Hc Hsym Hs.
  destruct (prim_returns node_ltb g start Hc Hs) as (st & P & _).
  exists (mst_edges st), (sum_weights (mst_edges st)). split; [done|]. split; [done|].
  intros T HT.
  destruct (prim_spanning g start T Hc Hsym Hs HT) as (edges & P' & Hspan & Hle).
  assert (edges = mst_edges st) as -> by congruence. done.
Qed.

End prim_mst.

Lemma prim_minimum_witness :
  closedb triangle_undirected = true ∧ symmetricb triangle_undirected = true ∧
  "A" ∈ dom triangle_undirected ∧
  ∃ edges total,
    Prim.prim String.ltb triangle_undirected "A" = Ok (edges, total) ∧
    total = sum_weights edges ∧
    ∀ T, Kruskal.spanning_tree (elements (dom triangle_undirected))
           (edge_list triangle_undirected) T →
         Kruskal.spanning_tree (elements (dom triangle_undirected))
           (edge_list triangle_undirected) edges ∧
         total ≤ sum_weights T.
Proof.
  assert (closedb triangle_undirected = true) as Hc by (vm_compute; reflexivity).
  assert (symmetricb triangle_undirected = true) as Hsym by (vm_compute; reflexivity).
  assert ("A" ∈ dom triangle_undirected) as Hs by by_compute.
  split_and!; [done..|].
  exact (prim_minimum String.ltb triangle_undirected "A" Hc Hsym Hs).
Defined.

(** Scenario 3 with the frontier-growth algorithm: the same tree. *)
Example prim_triangle :
  Prim.prim String.ltb triangle_undirected "A" = Ok ([("A", "B", 1); ("B", "C", 2)], 3).
Proof. vm_compute. reflexivity. Qed.

(** ** Kruskal and Prim agree *)

Section kruskal_prim.
Context {node : Type} `{Countable node}.
Variable node_ltb : node → node → bool.
Implicit Types (g : graph node) (start u v : node).

(** What [kruskal] returns, for comparison with other spanning trees. *)
Lemma kruskal_result (nodes : list node) (edges : list (node * node * Z)) :
  Kruskal.edges_in nodes edges = true →
  ∃ mst,
    Kruskal.kruskal nodes edges = Ok (mst, sum_weights mst) ∧
    (nodes ≠ [] → (∀ a b, a ∈ nodes → b ∈ nodes → Kruskal.conn edges a b) →
       Kruskal.spanning_tree nodes edges mst) ∧
    (∀ T, Kruskal.spanning_tree nodes edges T → sum_weights mst ≤ sum_weights T).
Proof.
  intros Hin. destruct (kruskal_post nodes edges Hin) as (mst & K & P).
  set (V := list_to_set nodes : gset node) in *.
  pose proof (kruskal_post_components V edges mst P) as Hcomp.
  pose proof (Kruskal.post_count_all _ _ _ P) as Hcount.
  exists mst. split; [done|]. split.
  - intros Hne Hconn. destruct nodes as [|x0 nodes']; [done|].
    assert (x0 ∈ V) as Hx0 by (apply (elem_of_list_to_set (C := gset node)); by left).
    assert (Kruskal.num_components V mst = 1%nat) as Hone.
    { rewrite Hcomp. pose proof (num_components_pos V edges x0 Hx0).
      assert (Kruskal.num_components V edges ≤ 1)%nat; [|lia].
      apply num_components_connected. intros a b Ha Hb.
      apply Hconn; by apply (elem_of_list_to_set (C := gset node)). }
    split; [apply (Kruskal.post_sub _ _ _ P)|]. split; [fold V; lia|].
    intros a b Ha Hb.
    apply (num_components_one V); [done|by apply (elem_of_list_to_set (C := gset node))..].
  - intros T HT. pose proof HT as (Hsub & Hlen & Hconn). fold V in Hlen.
    assert (Kruskal.num_components V edges = 1%nat) as Hone.
    { assert (∃ x, x ∈ V) as [x Hx] by (apply size_pos_elem_of; lia).
      pose proof (num_components_pos V edges x Hx).
      assert (Kruskal.num_components V edges ≤ 1)%nat; [|lia].
      apply num_components_connected. intros a b Ha Hb.
      apply (conn_mono T); [intros e He; by eapply elem_of_submseteq|].
      apply Hconn; by apply (elem_of_list_to_set (C := gset node)). }
    apply layer_cake; [lia|]. intros t.
    pose proof (tree_upto_bound nodes edges T t HT) as Hb. fold V in Hb.
    pose proof (Kruskal.post_count _ _ _ P t).
    pose proof (kruskal_post_upto_components V edges mst t P). lia.
Qed.

Lemma closedb_edges_in g :
  closedb g = true → Kruskal.edges_in (elements (dom g)) (edge_list g) = true.
Proof.
  intros Hc. unfold Kruskal.edges_in. apply forallb_forall. intros [[u v] w] He.
  apply list_elem_of_In, elem_of_edge_list in He as (nbrs & Hg & Hnb).
  apply andb_true_iff. split; apply bool_decide_eq_true, elem_of_elements.
  - by eapply elem_of_dom_2.
  - exact (closedb_closed _ _ _ _ _ Hc Hg Hnb).
Qed.

Lemma connectedb_conn (nodes : list node) (edges : list (node * node * Z)) a b :
  Kruskal.connectedb nodes edges = true → a ∈ nodes → b ∈ nodes →
  Kruskal.conn edges a b.
Proof.
  unfold Kruskal.connectedb. rewrite forallb_forall. intros Hall Ha Hb.
  apply list_elem_of_In, Hall in Ha. rewrite forallb_forall in Ha.
  apply list_elem_of_In, Ha in Hb. apply bool_decide_eq_true in Hb. by apply label_conn.
Qed.

(** On a connected undirected graph [kruskal] and [prim] return the same
    total. *)
Lemma kruskal_prim_total g start :
  closedb g = true → symmetricb g = true → start ∈ dom g →
  Kruskal.connectedb (elements (dom g)) (edge_list g) = true →
  ∃ edges_k edges_p total,
    Kruskal.kruskal (elements (dom g)) (edge_list g) = Ok (edges_k, total) ∧
    Prim.prim node_ltb g start = Ok (edges_p, total).
Proof.
  intros Hc Hsym Hs Hall.
  destruct (kruskal_result (elements (dom g)) (edge_list g) (closedb_edges_in g Hc))
    as (ek & K & Hspan & Hmin).
  assert (Kruskal.spanning_tree (elements (dom g)) (edge_list g) ek) as HK.
  { apply Hspan.
    - intros E. apply elem_of_elements in Hs. rewrite E in Hs. by apply elem_of_nil in Hs.
    - intros a b Ha Hb. by apply (connectedb_conn (elements (dom g))). }
  destruct (prim_spanning node_ltb g start ek Hc Hsym Hs HK) as (ep & P & HP & Hle).
  specialize (Hmin ep HP).
  exists ek, ep, (sum_weights ek). split; [done|]. rewrite P. do 2 f_equal. lia.
Qed.

(** X17. On a connected undirected graph, [kruskal], given the nodes and the
    flat edge list of the graph, and [prim], from any start node, return the
    same total weight. *)
Theorem kruskal_prim_agree g start :
  closedb g = true → symmetricb g = true → start ∈ dom g →
  Kruskal.connectedb (elements (dom g)) (edge_list g) = true →
  ∃ edges_k edges_p total,
    Kruskal.kruskal (elements (dom g)) (edge_list g) = Ok (edges_k, total) ∧
    Prim.prim node_ltb g start = Ok (edges_p, total).
Proof. apply kruskal_prim_total. Qed.

End kruskal_prim.

Lemma kruskal_prim_agree_witness :
  closedb triangle_undirected = true ∧ symmetricb triangle_undirected = true ∧
  "C" ∈ dom triangle_undirected ∧
  Kruskal.connectedb (elements (dom triangle_undirected))
    (edge_list triangle_undirected) = true ∧
  ∃ edges_k edges_p total,
    Kruskal.kruskal (elements (dom triangle_undirected)) (edge_list triangle_undirected)
      = Ok (edges_k, total) ∧
    Prim.prim String.ltb triangle_undirected "C" = Ok (edges_p, total).
Proof.
  assert (closedb triangle_undirected = true) as Hc by (vm_compute; reflexivity).
  assert (symmetricb triangle_undirected = true) as Hsym by (vm_compute; reflexivity).
  assert ("C" ∈ dom triangle_undirected) as Hs by by_compute.
  assert (Kruskal.connectedb (elements (dom triangle_undirected))
            (edge_list triangle_undirected) = true) as Hall by (vm_compute; reflexivity).
  split_and!; [done..|].
  exact (kruskal_prim_agree String.ltb triangle_undirected "C" Hc Hsym Hs Hall).
Defined.

(** ** Kruskal: minimum spanning forests *)

Section kruskal_forests.
Context {node : Type} `{Countable node}.
Import Kruskal.
Implicit Types (e : node * node * Z) (es mst F : list (node * node * Z))
  (a b u v : node) (V : gset node).

(** Below every threshold a forest has at most as many edges as components
    are lost. *)
Lemma forest_upto_bound V F t :
  (length F + num_components V F)%nat = size V →
  (length (upto t F) + num_components V (upto t F) ≤ size V)%nat.
Proof.
  intros Hcount.
  pose proof (filter_app_complement (λ e, weight e ≤ t) F) as Hperm.
  fold (upto t F) in Hperm. set (heavy := filter (λ e, ¬ weight e ≤ t) F) in *.
  assert (length F = length (upto t F) + length heavy)%nat as Hl.
  { rewrite <- Hperm at 1. by rewrite length_app. }
  pose proof (num_components_app_le V heavy (upto t F)) as Hle.
  rewrite (num_components_perm V (heavy ++ upto t F) F) in Hle
    by (by rewrite Permutation_app_comm).
  lia.
Qed.

(** X18. On every graph whose edges join listed nodes, connected or not,
    [kruskal] returns a minimum spanning forest: edges of the graph without a
    cycle that connect whatever the graph connects, of a total weight that is
    at most that of every spanning forest. *)
Theorem kruskal_minimum_forest (nodes : list node) (edges : list (node * node * Z)) :
  edges_in nodes edges = true →
  ∃ mst total,
    kruskal nodes edges = Ok (mst, total) ∧
    spanning_forest nodes edges mst ∧
    ∀ F, spanning_forest nodes edges F → total ≤ sum_weights F.
Proof.
  intros Hin. destruct (kruskal_post nodes edges Hin) as (mst & K & P).
  set (V := list_to_set nodes : gset node) in *.
  pose proof (kruskal_post_components V edges mst P) as Hcomp.
  pose proof (post_count_all _ _ _ P) as Hcount.
  exists mst, (sum_weights mst). split; [done|]. split.
  - split; [apply (post_sub _ _ _ P)|]. split; [done|]. intros a b _ _.
    apply conn_sub. intros u v w He. eapply conn_upto, (post_all _ _ _ P), He.
  - intros F (Hsub & HcountF & Hspan).
    assert (num_components V F = num_components V edges) as HcompF.
    { apply Nat.le_antisymm; apply num_components_mono; intros a b Ha Hb.
      - apply Hspan; by apply (elem_of_list_to_set (C := gset node)).
      - apply conn_mono. intros e He. by eapply elem_of_submseteq. }
    apply layer_cake; [fold V in HcountF; lia|]. intros t.
    pose proof (forest_upto_bound V F t HcountF).
    pose proof (post_count _ _ _ P t).
    pose proof (kruskal_post_upto_components V edges mst t P).
    assert (num_components V (upto t edges) ≤ num_components V (upto t F))%nat.
    { apply num_components_mono. intros a b _ _. apply conn_mono.
      intros e [? He]%elem_of_upto. apply elem_of_upto. split; [done|].
      by eapply elem_of_submseteq. }
    lia.
Qed.

End kruskal_forests.

Lemma kruskal_minimum_forest_witness :
  Kruskal.edges_in two_islands_nodes two_islands_edges = true ∧
  ∃ mst total,
    Kruskal.kruskal two_islands_nodes two_islands_edges = Ok (mst, total) ∧
    Kruskal.spanning_forest two_islands_nodes two_islands_edges mst ∧
    ∀ F, Kruskal.spanning_forest two_islands_nodes two_islands_edges F →
         total ≤ sum_weights F.
Proof.
  assert (Kruskal.edges_in two_islands_nodes two_islands_edges = true) as Hin
    by (vm_compute; reflexivity).
  split; [done|]. exact (kruskal_minimum_forest two_islands_nodes two_islands_edges Hin).
Defined.

(** ** Bellman-Ford: the predecessor tree *)

Section bellman_ford_paths.
Context {node : Type} `{Countable node}.
Import BellmanFord.
Implicit Types (g : graph node) (start u v x y : node)
  (dist : gmap node distance) (prev : gmap node (option node))
  (edges : list (node * node * Z)) (ns : list node).

Lemma descends_root prev start v ns : descends prev start v ns → prev !! start = Some None.
Proof. induction 1; done. Qed.

Lemma descends_first prev start v ns : descends prev start v ns → start ∈ ns.
Proof. induction 1; [by left|]. apply elem_of_app. by left. Qed.

(** After [prev[v] = p], with a chain for [v], every node that had a chain
    has one. *)
Lemma descends_reroute prev start v p nsv :
  v ≠ start → descends (<[v := Some p]> prev) start v nsv →
  ∀ y ns, descends prev start y ns → ∃ ns', descends (<[v := Some p]> prev) start y ns'.
Proof.
  intros Hne Dv y ns D. induction D as [Hs|u ns y D IH Hy].
  - exists [start]. constructor. by rewrite lookup_insert_ne.
  - destruct (decide (y = v)) as [->|Hyv]; [by exists nsv|].
    destruct IH as [ns' D']. exists (ns' ++ [y]).
    apply (descends_step _ _ u); [done|]. by rewrite lookup_insert_ne.
Qed.

(** The part of a chain between two of its nodes is a path of the graph,
    at most as heavy as the difference of their entries. *)
Lemma chain_segment g start dist prev u ns :
  loose g start dist prev → descends prev start u ns →
  ∀ du v, dist !! u = Some (Fin du) → v ∈ ns →
    ∃ dv ns' c, dist !! v = Some (Fin dv) ∧ path g v ns' u c ∧ c ≤ du - dv.
Proof.
  intros (HL & _ & _) D. induction D as [Hs|x ns u D IH Hu]; intros du v Hdu Hv.
  - apply list_elem_of_singleton in Hv as ->. exists du, [start], 0.
    split; [done|]. split; [constructor|lia].
  - destruct (decide (v = u)) as [->|Hne].
    { exists du, [u], 0. split; [done|]. split; [constructor|lia]. }
    apply elem_of_app in Hv as [Hv|Hv]; [|by apply list_elem_of_singleton in Hv].
    destruct (HL u du Hdu) as [(_ & Hn & _)|(x' & dx & w & nbrs & Hp & Hdx & Hg & Hin & Hle)];
      [congruence|].
    assert (x' = x) as -> by congruence.
    destruct (IH dx v Hdx Hv) as (dv & ns' & c & Hdv & P & Hc).
    exists dv, (ns' ++ [u]), (c + w). split; [done|].
    split; [exact (path_step _ _ _ _ _ _ _ _ P Hg Hin)|lia].
Qed.

(** One relaxation keeps the table loose, or shows a negative cycle. *)
Lemma relax_loose g start dist prev u v w nbrs :
  closedb g = true → dom dist = dom g → achieved g start dist →
  g !! u = Some nbrs → (v, w) ∈ nbrs →
  negative_cycle g start ∨ loose g start dist prev →
  ∃ dist' prev',
    relax (dist, prev) (u, v, w) = Ok (dist', prev') ∧
    dom dist' = dom g ∧ achieved g start dist' ∧
    (negative_cycle g start ∨ loose g start dist' prev').
Proof.
  intros Hc Hdom Hach Hg Hin HL.
  destruct (relax_step (λ _ _, false) g start dist prev u v w nbrs Hc Hdom Hach Hg Hin)
    as (dist' & prev' & R & Hdom' & Hach' & _ & _).
  exists dist', prev'. split; [done|]. split; [done|]. split; [done|].
  destruct HL as [?|HL]; [by left|].
  assert (u ∈ dom dist) as Hu by (rewrite Hdom; by eapply elem_of_dom_2).
  assert (v ∈ dom dist) as Hv by (rewrite Hdom; exact (closedb_closed _ _ _ _ _ Hc Hg Hin)).
  destruct (relaxable_ok dist u v w Hu Hv) as (b & Hb & Hiff).
  unfold relax in R. rewrite Hb in R. simpl in R. destruct b; cycle 1.
  { injection R as <- <-. by right. }
  destruct (proj1 Hiff eq_refl) as (du & dvd & Hdu & Hdv & Hlt). simpl in *.
  rewrite (subscript_Some _ _ _ Hdu) in R. simpl in R. injection R as <- <-.
  pose proof HL as (HL1 & HL2 & HL3).
  destruct (HL3 u du Hdu) as [nsu Du].
  destruct (decide (v ∈ nsu)) as [Hvn|Hvn].
  - left. destruct (chain_segment g start dist prev u nsu HL Du du v Hdu Hvn)
      as (dv & ns' & c & Hdv' & P & Hle).
    assert (dvd = Fin dv) as -> by congruence. simpl in Hlt.
    apply bool_decide_eq_true in Hlt.
    destruct (Hach v dv Hdv') as [ns0 P0].
    exists v, ns0, dv, (ns' ++ [v]), (c + w). split; [done|].
    split; [exact (path_step _ _ _ _ _ _ _ _ P Hg Hin)|lia].
  - right.
    assert (v ≠ start) as Hvs by (intros ->; by apply Hvn, (descends_first prev start u)).
    assert (v ≠ u) as Hvu by (intros ->; by apply Hvn, (descends_last prev start u)).
    assert (descends (<[v := Some u]> prev) start v (nsu ++ [v])) as Dv.
    { apply (descends_step _ _ u); [by apply descends_insert|apply lookup_insert_eq]. }
    split; [|split].
    + intros y dy Hy. destruct (decide (y = v)) as [->|Hyv].
      * rewrite lookup_insert_eq in Hy. injection Hy as <-. right.
        exists u, du, w, nbrs. rewrite lookup_insert_eq, lookup_insert_ne by done.
        split_and!; [done..|lia].
      * rewrite lookup_insert_ne in Hy by done. rewrite lookup_insert_ne by done.
        destruct (HL1 y dy Hy) as [?|(p & dp & w' & nb & Hp & Hdp & Hgp & Hnb & Hle)];
          [by left|right].
        destruct (decide (p = v)) as [->|Hpv].
        -- exists v, (du + w), w', nb. rewrite lookup_insert_eq.
           assert (dvd = Fin dp) as -> by congruence. simpl in Hlt.
           apply bool_decide_eq_true in Hlt. split_and!; [done..|lia].
        -- exists p, dp, w', nb. by rewrite lookup_insert_ne.
    + intros y Hy. destruct (decide (y = v)) as [->|Hyv].
      * by rewrite lookup_insert_eq in Hy.
      * rewrite lookup_insert_ne in Hy by done. rewrite lookup_insert_ne by done.
        by apply HL2.
    + intros y dy Hy. destruct (decide (y = v)) as [->|Hyv]; [by eexists|].
      rewrite lookup_insert_ne in Hy by done. destruct (HL3 y dy Hy) as [ns D].
      by apply (descends_reroute prev start v u (nsu ++ [v]) Hvs Dv y ns).
Qed.

Lemma relax_all_loose g start edges :
  ∀ dist prev,
    closedb g = true → graph_edges g edges →
    dom dist = dom g → achieved g start dist →
    negative_cycle g start ∨ loose g start dist prev →
    ∃ dist' prev',
      relax_all edges (dist, prev) = Ok (dist', prev') ∧
      dom dist' = dom g ∧ achieved g start dist' ∧
      (negative_cycle g start ∨ loose g start dist' prev').
Proof.
  induction edges as [|[[u v] w] edges IH]; intros dist prev Hc Hge Hdom Hach HL.
  { by exists dist, prev. }
  destruct (Hge u v w) as (nbrs & Hg & Hin); [by left|].
  destruct (relax_loose g start dist prev u v w nbrs Hc Hdom Hach Hg Hin HL)
    as (dist1 & prev1 & R1 & Hdom1 & Hach1 & HL1).
  destruct (IH dist1 prev1 Hc) as (dist2 & prev2 & R2 & ?); [|done..|].
  { intros u' v' w' Hin'. apply Hge. by right. }
  exists dist2, prev2. rewrite relax_all_cons, R1. done.
Qed.

Lemma passes_loose g start edges n :
  ∀ dist prev,
    closedb g = true → graph_edges g edges →
    dom dist = dom g → achieved g start dist →
    negative_cycle g start ∨ loose g start dist prev →
    ∃ dist' prev',
      passes n edges (dist, prev) = Ok (dist', prev') ∧
      dom dist' = dom g ∧ achieved g start dist' ∧
      (negative_cycle g start ∨ loose g start dist' prev').
Proof.
  induction n as [|n IH]; intros dist prev Hc Hge Hdom Hach HL.
  { by exists dist, prev. }
  destruct (relax_all_loose g start edges dist prev Hc Hge Hdom Hach HL)
    as (dist1 & prev1 & R1 & Hdom1 & Hach1 & HL1).
  destruct (IH dist1 prev1 Hc Hge Hdom1 Hach1 HL1) as (dist2 & prev2 & R2 & ?).
  exists dist2, prev2. rewrite passes_S, R1. done.
Qed.

Lemma loose_init g start : start ∈ dom g → loose g start (init g start).1 (init g start).2.
Proof.
  intros [nbrs Hg]%elem_of_dom. simpl.
  assert (((λ _, None) <$> g : gmap node (option node)) !! start = Some None) as Hp
    by (by rewrite lookup_fmap, Hg).
  assert (∀ v dv, <[start := Fin 0]> ((λ _, Inf) <$> g) !! v = Some (Fin dv) →
            v = start ∧ dv = 0) as Hfin.
  { intros v dv Hv. destruct (decide (v = start)) as [->|Hne].
    - rewrite lookup_insert_eq in Hv. by injection Hv as <-.
    - rewrite lookup_insert_ne, lookup_fmap in Hv by done.
      destruct (g !! v); by simplify_eq/=. }
  split; [|split].
  - intros v dv Hv. destruct (Hfin v dv Hv) as [-> ->]. by left.
  - intros v Hv. destruct (decide (v = start)) as [->|Hne]; [done|].
    rewrite lookup_insert_ne, lookup_fmap in Hv by done. rewrite lookup_fmap.
    destruct (g !! v); by simplify_eq/=.
  - intros v dv Hv. destruct (Hfin v dv Hv) as [-> ->]. exists [start]. by constructor.
Qed.

(** X19. When [bellman_ford] reports no negative cycle, [reconstruct_path] on
    its predecessor table returns, for every node that the source reaches, a
    path from the source to that node whose weight is the distance in the
    table, the least there is; for a node of the graph that the source does
    not reach it returns the node alone. *)
Theorem bellman_ford_reconstruct g edges start :
  closedb g = true → start ∈ dom g →
  (list_to_set edges : gset (node * node * Z)) = list_to_set (edge_list g) →
  ∃ dist prev flag,
    bellman_ford g edges start = Ok (dist, prev, flag) ∧
    (flag = false →
       (∀ v, reachable g start v →
          ∃ ns d, dist !! v = Some (Fin d) ∧ path g start ns v d ∧
                  (∀ ns' d', path g start ns' v d' → d ≤ d') ∧
                  ∀ fuel, (length ns ≤ fuel)%nat → reconstruct_path fuel prev v = Ok ns) ∧
       (∀ v, v ∈ dom g → ¬ reachable g start v →
          ∀ fuel, (0 < fuel)%nat → reconstruct_path fuel prev v = Ok [v])).
Proof.
  intros Hc Hs Hset.
  destruct (bellman_ford_general g edges start Hc Hs Hset)
    as (dist & prev & flag & B & Hdom & Hach & Htrue & Hfalse).
  exists dist, prev, flag. split; [done|]. intros Hflag. specialize (Hfalse Hflag).
  assert (graph_edges g edges) as Hge.
  { intros u v w Hin. apply elem_of_edge_list.
    by rewrite <- !(elem_of_list_to_set (C := gset (node * node * Z))), <- Hset,
      (elem_of_list_to_set (C := gset (node * node * Z))). }
  destruct (passes_loose g start edges (size g - 1) (init g start).1 (init g start).2)
    as (dist' & prev' & P & _ & _ & HL); try done.
  { rewrite dom_init. set_solver. }
  { apply achieved_init. }
  { right. by apply loose_init. }
  rewrite <- surjective_pairing in P.
  assert (dist' = dist ∧ prev' = prev) as [-> ->].
  { unfold bellman_ford in B. rewrite P in B. simpl in B.
    destruct (detect edges dist'); simpl in B; by simplify_eq. }
  destruct HL as [(u & ns & d & ns' & c & Pu & Pc & Hneg)|(HL1 & HL2 & HL3)].
  { exfalso. destruct (Hfalse u ns d Pu) as (du & Hdu & _).
    destruct (Hach u du Hdu) as [ns0 P0].
    destruct (path_app _ _ _ _ _ _ _ _ P0 Pc) as [ns1 P1].
    destruct (Hfalse u ns1 (du + c) P1) as (du' & Hdu' & ?).
    assert (du' = du) by congruence. lia. }
  assert (linked g start dist prev) as Hlinked.
  { destruct (Hfalse start [start] 0) as (ds & Hds & Hle); [constructor|].
    destruct (HL3 start ds Hds) as [ns0 D0]. pose proof (descends_root _ _ _ _ D0) as Hroot.
    split; [done|]. split.
    - destruct (HL1 start ds Hds) as [(_ & _ & ->)|(? & ? & ? & ? & ? & _)]; [done|congruence].
    - intros v dv Hdv Hne.
      destruct (HL1 v dv Hdv) as [(? & _)|(u & du & w & nbrs & Hp & Hdu & Hg & Hin & Hle')];
        [done|].
      exists u, du, w, nbrs. split_and!; [done..|].
      destruct (Hach u du Hdu) as [nsu Pu].
      destruct (Hfalse v (nsu ++ [v]) (du + w)) as (dv' & Hdv' & ?).
      { exact (path_step _ _ _ _ _ _ _ _ Pu Hg Hin). }
      assert (dv' = dv) by congruence. lia. }
  split.
  - intros v (ns0 & d0 & P0). destruct (Hfalse v ns0 d0 P0) as (d & Hd & _).
    destruct (HL3 v d Hd) as [ns D].
    destruct (linked_reconstruct g start dist prev v ns Hlinked D d Hd) as [Pv R].
    exists ns, d. split_and!; [done..| |].
    + intros ns' d' P'. destruct (Hfalse v ns' d' P') as (d2 & Hd2 & ?).
      assert (d2 = d) by congruence. lia.
    + intros fuel Hf. change (reconstruct_loop fuel prev [] (Some v) = Ok ns).
      rewrite R by done. by rewrite app_nil_r.
  - intros v Hv Hnr fuel Hf. rewrite <- Hdom in Hv.
    apply elem_of_dom in Hv as [[d|] Hd].
    + destruct Hnr. destruct (Hach v d Hd) as [ns Pv]. by exists ns, d.
    + pose proof (HL2 v Hd) as Hp. destruct fuel as [|fuel]; [lia|].
      change (reconstruct_loop (S fuel) prev [] (Some v) = Ok [v]). simpl.
      rewrite (subscript_Some _ _ _ Hp). simpl. by destruct fuel.
Qed.

End bellman_ford_paths.

Lemma bellman_ford_reconstruct_witness :
  closedb neg_edge_graph = true ∧ "A" ∈ dom neg_edge_graph ∧
  (list_to_set neg_edge_edges : gset (string * string * Z))
    = list_to_set (edge_list neg_edge_graph) ∧
  ∃ dist prev flag,
    BellmanFord.bellman_ford neg_edge_graph neg_edge_edges "A" = Ok (dist, prev, flag) ∧
    (flag = false →
       (∀ v, reachable neg_edge_graph "A" v →
          ∃ ns d, dist !! v = Some (Fin d) ∧ path neg_edge_graph "A" ns v d ∧
                  (∀ ns' d', path neg_edge_graph "A" ns' v d' → d ≤ d') ∧
                  ∀ fuel, (length ns ≤ fuel)%nat →
                          BellmanFord.reconstruct_path fuel prev v = Ok ns) ∧
       (∀ v, v ∈ dom neg_edge_graph → ¬ reachable neg_edge_graph "A" v →
          ∀ fuel, (0 < fuel)%nat → BellmanFord.reconstruct_path fuel prev v = Ok [v])).
Proof.
  assert (closedb neg_edge_graph = true) as Hc by (vm_compute; reflexivity).
  assert ("A" ∈ dom neg_edge_graph) as Hs by by_compute.
  assert ((list_to_set neg_edge_edges : gset (string * string * Z))
          = list_to_set (edge_list neg_edge_graph)) as He by by_compute.
  split_and!; [done..|].
  exact (bellman_ford_reconstruct neg_edge_graph neg_edge_edges "A" Hc Hs He).
Defined.

(** On the graph with a negative edge the path to [C] goes through [B]. *)
Example bellman_ford_neg_edge_path :
  ∃ dist prev,
    BellmanFord.bellman_ford neg_edge_graph neg_edge_edges "A" = Ok (dist, prev, false) ∧
    BellmanFord.reconstruct_path 3 prev "C" = Ok ["A"; "B"; "C"].
Proof. eexists _, _. split; vm_compute; reflexivity. Qed.

(** ** Dijkstra: neighbours that are not keys *)

Section dijkstra_dangling.
Context {node : Type} `{Countable node}.
Variable node_ltb : node → node → bool.
Import Dijkstra.
Implicit Types (g : graph node) (start u v x y : node) (st : state node)
  (E : node → node → Z → Prop).

Lemma sweep_weaken g E E' st :
  (∀ x v w, E' x v w → E x v w) → sweep g E st → sweep g E' st.
Proof. intros HE Sw. destruct Sw. split; eauto. Qed.

(** Step 4 on any graph: a lookup fails, or every edge is relaxed. *)
Lemma relax_edges_sweep g u d todo :
  ∀ done st,
    g !! u = Some (done ++ todo) → u ∈ visited st →
    sweep g (relaxing g (visited st) u done) st →
    relax_edges d u todo st = Raise KeyError ∨
    ∃ st', relax_edges d u todo st = Ok st' ∧
           sweep g (relaxing g (visited st) u (done ++ todo)) st' ∧
           visited st' = visited st ∧
           (∀ e, e ∈ heap st → e ∈ heap st') ∧
           (length (heap st') ≤ length (heap st) + length todo)%nat.
Proof.
  induction todo as [|[v w] todo IH]; intros done st Hg Hu Sw.
  { right. exists st. rewrite app_nil_r. simpl. split_and!; [done..|lia]. }
  assert (g !! u = Some ((done ++ [(v, w)]) ++ todo)) as Hg' by (by rewrite <- app_assoc).
  assert (∀ st1, visited st1 = visited st →
            (∀ e, e ∈ heap st → e ∈ heap st1) →
            (length (heap st1) ≤ S (length (heap st)))%nat →
            sweep g (λ x y w', relaxing g (visited st) u done x y w' ∨
                               (x = u ∧ y = v ∧ w' = w)) st1 →
            relax_edges d u todo st1 = Raise KeyError ∨
            ∃ st', relax_edges d u todo st1 = Ok st' ∧
                   sweep g (relaxing g (visited st) u (done ++ (v, w) :: todo)) st' ∧
                   visited st' = visited st ∧
                   (∀ e, e ∈ heap st → e ∈ heap st') ∧
                   (length (heap st') ≤ length (heap st) + S (length todo))%nat) as Hnext.
  { intros st1 Hvis1 Hsub1 Hlen1 S1.
    destruct (IH (done ++ [(v, w)]) st1) as [?|(st' & R & Sw' & Hvis' & Hsub' & Hlen')];
      [done|by rewrite Hvis1| |by left|right].
    - rewrite Hvis1. eapply sweep_weaken; [|done]. intros x y w'. apply relaxing_snoc.
    - exists st'. rewrite <- app_assoc in Sw'. rewrite Hvis1 in Sw'.
      split_and!; [done..|congruence|auto|lia]. }
  simpl. case_decide as Hv.
  - apply Hnext; [done..|lia|]. destruct Sw as [S1 S2 S3 S4]. split; try done.
    intros x y w' [HE|(-> & -> & ->)]; [exact (S4 _ _ _ HE)|]. split; [by apply S2|by left].
  - destruct (dist st !! v) as [dv|] eqn:Hdv; cycle 1.
    { rewrite (subscript_None _ _ Hdv). by left. }
    rewrite (subscript_Some _ _ _ Hdv). simpl.
    assert (v ∈ dom g) as Hvd.
    { rewrite <- (sweep_dom _ _ _ Sw). by eapply elem_of_dom_2. }
    destruct (lt_distance (d + w) dv) eqn:Hlt.
    + apply Hnext; simpl; [done| | |].
      * intros e He. unfold heappush. apply elem_of_app. by left.
      * unfold heappush. rewrite length_app. simpl. lia.
      * destruct Sw as [S1 S2 S3 S4]. split; simpl.
        -- rewrite dom_insert_L, S1. set_solver.
        -- done.
        -- intros y dy Hy Hdy. unfold heappush. destruct (decide (y = v)) as [->|Hne].
           ++ exists (d + w). apply elem_of_app. right. by left.
           ++ rewrite lookup_insert_ne in Hdy by done.
              destruct (S3 y dy Hy Hdy) as [d' Hin]. exists d'. apply elem_of_app. by left.
        -- intros x y w' [HE|(-> & -> & ->)].
           ++ destruct (S4 x y w' HE) as [Hyd [?|[dy Hdy]]]; (split; [done|]); [by left|].
              right. destruct (decide (y = v)) as [->|Hne].
              ** exists (d + w). apply lookup_insert_eq.
              ** exists dy. by rewrite lookup_insert_ne.
           ++ split; [done|]. right. exists (d + w). apply lookup_insert_eq.
    + apply Hnext; [done..|lia|]. destruct Sw as [S1 S2 S3 S4]. split; try done.
      intros x y w' [HE|(-> & -> & ->)]; [exact (S4 _ _ _ HE)|]. split; [done|right].
      destruct dv as [dv|]; [by exists dv|done].
Qed.

(** The loop on any graph: a lookup fails, or the loop returns and every
    node within reach of a visited or queued node has all its neighbours
    among the keys of the graph. *)
Lemma dijkstra_loop_sweep g fuel :
  ∀ st,
    sweep g (edges_from g (visited st)) st →
    (length (heap st) + pending g (visited st) < fuel)%nat →
    loop node_ltb fuel g st = Raise KeyError ∨
    ∃ r, loop node_ltb fuel g st = Ok r ∧
         ∀ x, x ∈ visited st ∨ (∃ d, (d, x) ∈ heap st) →
         ∀ u nbrs y w, reachable g x u → g !! u = Some nbrs → (y, w) ∈ nbrs → y ∈ dom g.
Proof.
  induction fuel as [|fuel IH]; intros st Sw Hm; [lia|].
  simpl. destruct (heappop (entry_ltb node_ltb) (heap st)) as [[[d u] heap']|] eqn:Hpop;
    cycle 1.
  { apply heappop_None in Hpop. right. eexists. split; [done|].
    intros x [Hx|[d Hd]]; [|rewrite Hpop in Hd; by apply elem_of_nil in Hd].
    intros u nbrs y w Hr Hg Hin.
    assert (u ∈ visited st) as Hu.
    { revert Hr. apply (reachable_closed g x (λ z, z ∈ visited st)); [done|].
      intros z nb z' w' Hz Hgz Hnb.
      destruct (sweep_edges _ _ _ Sw z z' w') as [_ [?|[dz Hdz]]]; [by split; eauto|done|].
      destruct (decide (z' ∈ visited st)) as [?|Hn]; [done|].
      destruct (sweep_queued _ _ _ Sw z' dz Hn Hdz) as [d' Hq]. rewrite Hpop in Hq.
      by apply elem_of_nil in Hq. }
    by destruct (sweep_edges _ _ _ Sw u y w) as [? _]; [split; eauto|]. }
  apply heappop_Some in Hpop as [Hin Hperm].
  apply Permutation_length in Hperm as Hlen. simpl in Hlen.
  case_decide as Hu.
  - destruct (IH (State (dist st) (prev st) heap' (visited st))) as [->|(r & -> & HC)];
      [| |by left|right].
    + destruct Sw as [S1 S2 S3 S4]. split; simpl; try done.
      intros y dy Hy Hdy. destruct (S3 y dy Hy Hdy) as [d' Hq]. exists d'.
      rewrite Hperm in Hq. apply elem_of_cons in Hq as [Heq|?]; [|done].
      injection Heq as -> ->. done.
    + simpl. lia.
    + exists r. split; [done|]. intros x [Hx|[d' Hd']]; apply HC; simpl; [by left| ].
      rewrite Hperm in Hd'. apply elem_of_cons in Hd' as [Heq|?]; [|by eauto].
      injection Heq as -> ->. by left.
  - destruct (g !! u) as [nbrs|] eqn:Hg; cycle 1.
    { rewrite (subscript_None _ _ Hg). by left. }
    rewrite (subscript_Some _ _ _ Hg). simpl.
    destruct (relax_edges_sweep g u d nbrs []
                (State (dist st) (prev st) heap' ({[u]} ∪ visited st)))
      as [->|(st' & -> & Sw' & Hvis & Hsub & Hlen')]; simpl; [done|set_solver| |by left|].
    { destruct Sw as [S1 S2 S3 S4]. split; simpl; try done.
      - apply elem_of_dom_2 in Hg. set_solver.
      - intros y dy Hy Hdy. assert (y ∉ visited st) as Hy' by set_solver.
        destruct (S3 y dy Hy' Hdy) as [d' Hq]. exists d'.
        rewrite Hperm in Hq. apply elem_of_cons in Hq as [Heq|?]; [|done].
        injection Heq as -> ->. set_solver.
      - intros x y w [[Hne [Hx HE]]|[_ Hnil]]; [|by apply elem_of_nil in Hnil].
        destruct (S4 x y w) as [? [?|?]]; [split; [set_solver|done]|..];
          (split; [done|]); [left; set_solver|by right]. }
    simpl in *. destruct (IH st') as [->|(r & -> & HC)]; [| |by left|right].
    + rewrite Hvis. eapply sweep_weaken; [|exact Sw'].
      intros x v w [Hx (nb & Hgx & Hnb)]. destruct (decide (x = u)) as [->|Hne].
      * right. split; [done|]. congruence.
      * left. split; [done|]. split; eauto.
    + rewrite Hvis. pose proof (pending_visit g (visited st) u nbrs Hg Hu). lia.
    + exists r. split; [done|]. intros x Hx. apply HC. rewrite Hvis.
      destruct Hx as [Hx|[d' Hd']]; [left; set_solver|].
      rewrite Hperm in Hd'. apply elem_of_cons in Hd' as [Heq|Hd'].
      * injection Heq as -> ->. left. set_solver.
      * right. exists d'. by apply Hsub.
Qed.

(** X20. [dijkstra] raises [KeyError] when some node that the start node
    reaches has a neighbour that is not a key of the graph: every node must
    be a key, also one without outgoing edges. *)
Theorem dijkstra_KeyError g start u nbrs v w :
  start ∈ dom g → reachable g start u → g !! u = Some nbrs → (v, w) ∈ nbrs →
  v ∉ dom g →
  dijkstra node_ltb g start = Raise KeyError.
Proof.
  intros Hs Hr Hg Hin Hv.
  destruct (dijkstra_loop_sweep g (2 + num_edges g) (init g start)) as [?|(r & _ & HC)];
    [| |done|].
  - split; simpl.
    + rewrite dom_insert_L, dom_fmap_L. set_solver.
    + apply empty_subseteq.
    + intros y dy _ Hy. destruct (decide (y = start)) as [->|Hne].
      * exists 0. by left.
      * rewrite lookup_insert_ne, lookup_fmap in Hy by done.
        destruct (g !! y); by simplify_eq/=.
    + intros x y w' [Hx _]. by apply not_elem_of_empty in Hx.
  - simpl. rewrite pending_empty. lia.
  - destruct Hv. apply (HC start) with u nbrs w; [|done..].
    right. exists 0. simpl. by left.
Qed.

End dijkstra_dangling.

Lemma dijkstra_KeyError_witness :
  "A" ∈ dom dangling ∧ reachable dangling "A" "B" ∧
  dangling !! "B" = Some [("C", 2)] ∧ ("C", 2) ∈ [("C", 2)] ∧ ("C" ∉ dom dangling) ∧
  Dijkstra.dijkstra String.ltb dangling "A" = Raise KeyError.
Proof.
  assert ("A" ∈ dom dangling) as Hs by by_compute.
  assert (reachable dangling "A" "B") as Hr.
  { exists ["A"; "B"], (0 + 1).
    apply (path_step dangling "A" ["A"] "A" 0 [("B", 1)] "B" 1); [constructor| |].
    - vm_compute. reflexivity.
    - by_compute. }
  assert (dangling !! "B" = Some [("C", 2)]) as Hg by (vm_compute; reflexivity).
  assert (("C", 2) ∈ [("C", 2)]) as Hin by by_compute.
  assert ("C" ∉ dom dangling) as Hv by by_compute.
  split_and!; [done..|].
  exact (dijkstra_KeyError String.ltb dangling "A" "B" [("C", 2)] "C" 2 Hs Hr Hg Hin Hv).
Defined.

(** ** Results that do not depend on ties or on the start *)

Section independence.
Context {node : Type} `{Countable node}.
Implicit Types (g : graph node) (start u v : node).

(** X21. The distance table of [dijkstra] does not depend on how the heap
    orders entries of equal distance: any two orders of the nodes give the
    same table. *)
Theorem dijkstra_order_independent (ltb1 ltb2 : node → node → bool) g start :
  closedb g = true → nonnegb g = true → start ∈ dom g →
  ∃ dist prev1 prev2,
    Dijkstra.dijkstra ltb1 g start = Ok (dist, prev1) ∧
    Dijkstra.dijkstra ltb2 g start = Ok (dist, prev2).
Proof.
  intros Hc Hn Hs.
  destruct (dijkstra_loop_returns ltb1 g start (2 + num_edges g) (Dijkstra.init g start) Hc Hn)
    as (dist1 & prev1 & L1 & Hdom1 & _ & Hpath1 & Hlow1).
  { by apply dijkstra_inv_init. }
  { simpl. rewrite pending_empty. lia. }
  destruct (dijkstra_loop_returns ltb2 g start (2 + num_edges g) (Dijkstra.init g start) Hc Hn)
    as (dist2 & prev2 & L2 & Hdom2 & _ & Hpath2 & Hlow2).
  { by apply dijkstra_inv_init. }
  { simpl. rewrite pending_empty. lia. }
  exists dist1, prev1, prev2. split; [done|]. unfold Dijkstra.dijkstra. rewrite L2.
  do 2 f_equal. apply map_eq. intros v. destruct (dist1 !! v) as [[d1|]|] eqn:Hv1.
  - destruct (Hpath1 v d1 Hv1) as [ns1 P1].
    destruct (Hlow2 v ns1 d1 P1) as (d2 & Hv2 & Hle2).
    destruct (Hpath2 v d2 Hv2) as [ns2 P2].
    destruct (Hlow1 v ns2 d2 P2) as (d1' & Hv1' & Hle1).
    assert (d1' = d1) by congruence. rewrite Hv2. do 2 f_equal. lia.
  - destruct (dist2 !! v) as [[d2|]|] eqn:Hv2; [|done|].
    + destruct (Hpath2 v d2 Hv2) as [ns2 P2].
      destruct (Hlow1 v ns2 d2 P2) as (d1' & Hv1' & _). congruence.
    + apply not_elem_of_dom in Hv2. apply elem_of_dom_2 in Hv1. set_solver.
  - destruct (dist2 !! v) as [d2|] eqn:Hv2; [|done].
    apply elem_of_dom_2 in Hv2. apply not_elem_of_dom in Hv1. set_solver.
Qed.

(** X22. On a connected undirected graph the total weight that [prim]
    returns does not depend on the start node, nor on how the heap orders
    entries of equal weight. *)
Theorem prim_start_independent (ltb1 ltb2 : node → node → bool) g start1 start2 :
  closedb g = true → symmetricb g = true →
  start1 ∈ dom g → start2 ∈ dom g →
  Kruskal.connectedb (elements (dom g)) (edge_list g) = true →
  ∃ edges1 edges2 total,
    Prim.prim ltb1 g start1 = Ok (edges1, total) ∧
    Prim.prim ltb2 g start2 = Ok (edges2, total).
Proof.
  intros Hc Hsym Hs1 Hs2 Hconn.
  destruct (kruskal_prim_total ltb1 g start1 Hc Hsym Hs1 Hconn)
    as (ek1 & ep1 & t1 & K1 & P1).
  destruct (kruskal_prim_total ltb2 g start2 Hc Hsym Hs2 Hconn)
    as (ek2 & ep2 & t2 & K2 & P2).
  exists ep1, ep2, t1. split; [done|]. rewrite P2. do 2 f_equal. congruence.
Qed.

End independence.

Lemma dijkstra_order_independent_witness :
  closedb triangle = true ∧ nonnegb triangle = true ∧ "A" ∈ dom triangle ∧
  ∃ dist prev1 prev2,
    Dijkstra.dijkstra String.ltb triangle "A" = Ok (dist, prev1) ∧
    Dijkstra.dijkstra (λ a b, String.ltb b a) triangle "A" = Ok (dist, prev2).
Proof.
  assert (closedb triangle = true) as Hc by (vm_compute; reflexivity).
  assert (nonnegb triangle = true) as Hn by (vm_compute; reflexivity).
  assert ("A" ∈ dom triangle) as Hs by by_compute.
  split_and!; [done..|].
  exact (dijkstra_order_independent String.ltb (λ a b, String.ltb b a) triangle "A" Hc Hn Hs).
Defined.

Lemma prim_start_independent_witness :
  closedb triangle_undirected = true ∧ symmetricb triangle_undirected = true ∧
  "A" ∈ dom triangle_undirected ∧ "C" ∈ dom triangle_undirected ∧
  Kruskal.connectedb (elements (dom triangle_undirected))
    (edge_list triangle_undirected) = true ∧
  ∃ edges1 edges2 total,
    Prim.prim String.ltb triangle_undirected "A" = Ok (edges1, total) ∧
    Prim.prim (λ a b, String.ltb b a) triangle_undirected "C" = Ok (edges2, total).
Proof.
  assert (closedb triangle_undirected = true) as Hc by (vm_compute; reflexivity).
  assert (symmetricb triangle_undirected = true) as Hsym by (vm_compute; reflexivity).
  assert ("A" ∈ dom triangle_undirected) as Hs1 by by_compute.
  assert ("C" ∈ dom triangle_undirected) as Hs2 by by_compute.
  assert (Kruskal.connectedb (elements (dom triangle_undirected))
            (edge_list triangle_undirected) = true) as Hall by (vm_compute; reflexivity).
  split_and!; [done..|].
  exact (prim_start_independent String.ltb (λ a b, String.ltb b a) triangle_undirected
           "A" "C" Hc Hsym Hs1 Hs2 Hall).
Defined.

